(** * The view ledger of the profile page

    A shallow embedding of the three generations of [ViewCounter.tsx]:

    - [ViewCounter]  src/components/ViewCounter.tsx  counter row, no guard, no feed
    - [CounterRow]   (unnamed part 004)              counter row, guard flag, UPDATE feed
    - [VisitLog]     (unnamed part 005)              visit log, guard flag, INSERT feed

    together with the two table generations of the migrations (unnamed parts
    000 and 001).

    An [async] function of the source is a pair: the synchronous prefix, a
    function on the page state, and a [Task], the request it is suspended on
    with the code after the [await] as a continuation.  The store executes a
    request and the continuation runs in one step of the session ([Reply]);
    the steps of several sessions interleave freely on a shared table. *)

From Stdlib Require Import ZArith Lia String Ascii Strings.Byte.
From Stdlib Require Import Decimal DecimalString DecimalZ DecimalPos.
From stdpp Require Import base list strings gmap.

Local Open Scope string_scope.
Local Open Scope Z_scope.
Local Open Scope list_scope.

(** ** The client protocol *)

(** The query builders the components use.  Numbers that come from an
    [INTEGER] column are far inside the range where the addition of the
    JavaScript runtime is exact, so they are integers here; a timestamp is
    the clock reading whose ISO rendering the code sends. *)
Inductive Request :=
| SelectViewCount (id : string)
    (* from("profile_views").select("view_count").eq("id", id).single() *)
| UpdateViewCount (id : string) (view_count updated_at : Z)
    (* from("profile_views").update({view_count, updated_at}).eq("id", id) *)
| InsertView
    (* from("profile_views").insert({}) *)
| SelectCountExact.
    (* from("profile_views").select("*", {count: "exact", head: true}) *)

(** Modelled from the spec: what an awaited query of the client module
    [@/integrations/supabase/client], which is not among the sources,
    resolves to.  A failure is reported in the result and never raised; the
    causes of failure are not told apart.  [data] is the [view_count] of the
    row that [single()] found. *)
Record Response := { data : option Z; count : option Z; error : bool }.

Definition failure : Response := {| data := None; count := None; error := true |}.
Definition no_content : Response := {| data := None; count := None; error := false |}.

Definition is_write (q : Request) : bool :=
  match q with
  | UpdateViewCount _ _ _ | InsertView => true
  | SelectViewCount _ | SelectCountExact => false
  end.

(** A request that reached the store and changed it. *)
Definition durable (e : Request * Response) : bool :=
  is_write e.1 && negb (error e.2).

Definition durable_writes (j : list (Request * Response)) : nat :=
  length (filter (fun e => durable e = true) j).

Definition write_requests (j : list (Request * Response)) : nat :=
  length (filter (fun e => is_write e.1 = true) j).

(** ** Suspended asynchronous code *)

#[warnings="-register-all"]
Inductive Task (P : Type) :=
| Done
| Await (q : Request) (k : Response -> P -> P * Task P).
Arguments Done {P}.
Arguments Await {P} q k.

Definition finished {P} (t : Task P) : bool :=
  match t with Done => true | Await _ _ => false end.

(** The promise of a call that returned without suspending is settled
    already; only a suspended one stays pending. *)
Definition pending {P} (t : Task P) : list (Task P) :=
  if finished t then [] else [t].

(** ** What a component offers its page *)

Inductive EventType := INSERT | UPDATE | DELETE.

(** A change of the feed: the kind of the committed write and the new row,
    of which the components read the identity and the [view_count]. *)
Record Change := { eventType : EventType; new_id : string; new_view_count : Z }.

Record Component (P : Type) := {
  initial : P;                                  (* useState / useRef initial values *)
  effect : P -> P * list (Task P);              (* body of useEffect *)
  cleanup : P -> P;                             (* the function useEffect returns *)
  visibilitychange : bool -> P -> P * list (Task P);  (* document raises the event *)
  postgres_changes : Change -> P -> P;          (* the feed delivers a change *)
  tick : Z -> P -> P                            (* the clock advances *)
}.
Arguments initial {P} _.
Arguments effect {P} _ _.
Arguments cleanup {P} _ _.
Arguments visibilitychange {P} _ _ _.
Arguments postgres_changes {P} _ _ _.
Arguments tick {P} _ _ _.

(** ** One page session against a store *)

Section Runtime.
Context {P Table : Type}.
Variable C : Component P.
Variable exec : bool -> Request -> Table -> Table * Response.

Record Session := {
  page : P;
  inflight : list (Task P);                   (* promises not yet settled *)
  journal : list (Request * Response)         (* requests the store has answered *)
}.

Definition fresh : Session :=
  {| page := initial C; inflight := []; journal := [] |}.

Definition spawn (r : P * list (Task P)) (s : Session) : Session :=
  {| page := r.1; inflight := inflight s ++ r.2; journal := journal s |}.

Definition on_page (f : P -> P) (s : Session) : Session :=
  {| page := f (page s); inflight := inflight s; journal := journal s |}.

Inductive Input :=
| Mount                                       (* the effect runs *)
| Unmount                                     (* its cleanup runs *)
| Reply (i : nat) (reachable : bool)          (* the i-th pending request is answered *)
| VisibilityChange (hidden : bool)
| PostgresChanges (c : Change)
| Clock (t : Z).

Definition reply (i : nat) (reachable : bool) (w : Table * Session) : Table * Session :=
  match inflight w.2 !! i with
  | Some (Await q k) =>
      let a := exec reachable q w.1 in
      let r := k a.2 (page w.2) in
      (a.1, {| page := r.1;
               inflight := delete i (inflight w.2) ++ pending r.2;
               journal := journal w.2 ++ [(q, a.2)] |})
  | _ => w
  end.

Definition feed (e : Input) (w : Table * Session) : Table * Session :=
  match e with
  | Mount => (w.1, spawn (effect C (page w.2)) w.2)
  | Unmount => (w.1, on_page (cleanup C) w.2)
  | Reply i reachable => reply i reachable w
  | VisibilityChange h => (w.1, spawn (visibilitychange C h (page w.2)) w.2)
  | PostgresChanges c => (w.1, on_page (postgres_changes C c) w.2)
  | Clock t => (w.1, on_page (tick C t) w.2)
  end.

Definition run (es : list Input) (w : Table * Session) : Table * Session :=
  foldl (fun w e => feed e w) w es.

(** Several sessions on one table; an event names its session. *)
Record System := { db : Table; sessions : list Session }.

Definition step (e : nat * Input) (y : System) : System :=
  match sessions y !! e.1 with
  | Some s =>
      let w := feed e.2 (db y, s) in
      {| db := w.1; sessions := <[e.1 := w.2]> (sessions y) |}
  | None => y
  end.

Definition schedule (es : list (nat * Input)) (y : System) : System :=
  foldl (fun y e => step e y) y es.
End Runtime.

Arguments Session P : clear implicits.
Arguments System P Table : clear implicits.

(** ** The stores *)

Definition VIEW_ID : string := "00000000-0000-0000-0000-000000000001".

Definition found (v : Z) : Response := {| data := Some v; count := None; error := false |}.
Definition counted (n : nat) : Response :=
  {| data := None; count := Some (Z.of_nat n); error := false |}.

(** The first migration: one row per counter, [SELECT] and [UPDATE] open to
    anyone and no policy for [INSERT].  [created_at] is filled by the server
    and never read or written by the client; it is left out. *)
Module CounterTable.
Record Row := { id : string; view_count : Z; updated_at : Z }.
Definition Table := list Row.


Definition matching (i : string) (t : Table) : Table :=
  List.filter (fun r => String.eqb (id r) i) t.

(** [.single()]: a result only when exactly one row matches. *)
Definition single (i : string) (t : Table) : option Z :=
  match matching i t with
  | [r] => Some (view_count r)
  | _ => None
  end.

Definition update (i : string) (v ts : Z) (t : Table) : Table :=
  List.map (fun r => if String.eqb (id r) i
                     then {| id := id r; view_count := v; updated_at := ts |}
                     else r) t.

(** Modelled from the spec: the store answering the queries of the client
    on the table of this migration.  [reachable = false] stands for every
    cause of failure (no connection, a policy, a value the column does not
    take).  An update is one atomic statement on the rows it matches, and
    one that matches no row is no failure; an insert has no policy. *)
Definition exec (reachable : bool) (q : Request) (t : Table) : Table * Response :=
  if reachable then
    match q with
    | SelectViewCount i =>
        (t, match single i t with Some v => found v | None => failure end)
    | UpdateViewCount i v ts => (update i v ts t, no_content)
    | InsertView => (t, failure)
    | SelectCountExact => (t, counted (List.length t))
    end
  else (t, failure).
End CounterTable.

(** The second migration: one row per visit, [SELECT] and [INSERT] open to
    anyone, no [view_count] column any more.  The generated identifier of a
    row is its position in the log; [viewed_at] is filled by the server and
    never read by the client. *)
Module VisitTable.
Record Row := { id : nat }.
Definition Table := list Row.

(** Modelled from the spec: the store answering the queries of the client
    on the table of this migration.  An insert is one atomic statement that
    appends a row; the count is the cardinality of the table. *)
Definition exec (reachable : bool) (q : Request) (t : Table) : Table * Response :=
  if reachable then
    match q with
    | InsertView => (t ++ [{| id := List.length t |}], no_content)
    | SelectCountExact => (t, counted (List.length t))
    | SelectViewCount _ | UpdateViewCount _ _ _ => (t, failure)
    end
  else (t, failure).
End VisitTable.

(** ** The page: component state, realtime client, document *)

(** One realtime channel object.  [chan] is the identity of the object;
    schema and table are the one table of the store. *)
Record Channel := {
  chan : nat;
  topic : string;
  event : EventType;
  filter_by : option string                     (* Some i  for  filter: id=eq.i *)
}.

Inductive Action :=
| Issued (q : Request)                          (* a query was started *)
| Removed (c : nat)                             (* supabase.removeChannel *)
| Subscribed (c : nat).                         (* channel(..).on(..).subscribe() *)

Record Page := {
  viewCount : option Z;                         (* useState<number | null>(null) *)
  hasIncrementedRef : bool;                     (* useRef(false) *)
  channelRef : option Channel;                  (* useRef(null) *)
  channels : list Channel;                      (* channels the client holds *)
  created : nat;                                (* channel objects made so far *)
  hidden : bool;                                (* document.hidden *)
  listeners : nat;                              (* visibilitychange handlers registered *)
  now : Z;                                      (* new Date() *)
  log : list Action
}.

Definition setViewCount (v : option Z) (p : Page) : Page :=
  {| viewCount := v; hasIncrementedRef := hasIncrementedRef p;
     channelRef := channelRef p; channels := channels p; created := created p;
     hidden := hidden p; listeners := listeners p; now := now p; log := log p |}.

Definition set_hasIncrementedRef (b : bool) (p : Page) : Page :=
  {| viewCount := viewCount p; hasIncrementedRef := b;
     channelRef := channelRef p; channels := channels p; created := created p;
     hidden := hidden p; listeners := listeners p; now := now p; log := log p |}.

Definition set_channelRef (c : option Channel) (p : Page) : Page :=
  {| viewCount := viewCount p; hasIncrementedRef := hasIncrementedRef p;
     channelRef := c; channels := channels p; created := created p;
     hidden := hidden p; listeners := listeners p; now := now p; log := log p |}.

Definition set_hidden (h : bool) (p : Page) : Page :=
  {| viewCount := viewCount p; hasIncrementedRef := hasIncrementedRef p;
     channelRef := channelRef p; channels := channels p; created := created p;
     hidden := h; listeners := listeners p; now := now p; log := log p |}.

Definition set_listeners (n : nat) (p : Page) : Page :=
  {| viewCount := viewCount p; hasIncrementedRef := hasIncrementedRef p;
     channelRef := channelRef p; channels := channels p; created := created p;
     hidden := hidden p; listeners := n; now := now p; log := log p |}.

Definition set_now (t : Z) (p : Page) : Page :=
  {| viewCount := viewCount p; hasIncrementedRef := hasIncrementedRef p;
     channelRef := channelRef p; channels := channels p; created := created p;
     hidden := hidden p; listeners := listeners p; now := t; log := log p |}.

Definition note (a : Action) (p : Page) : Page :=
  {| viewCount := viewCount p; hasIncrementedRef := hasIncrementedRef p;
     channelRef := channelRef p; channels := channels p; created := created p;
     hidden := hidden p; listeners := listeners p; now := now p; log := log p ++ [a] |}.

Definition blank : Page :=
  {| viewCount := None; hasIncrementedRef := false; channelRef := None;
     channels := []; created := 0; hidden := false; listeners := 0; now := 0;
     log := [] |}.

(** [await q] followed by [k]. *)
Definition query (q : Request) (k : Response -> Page -> Page * Task Page) (p : Page)
  : Page * Task Page :=
  (note (Issued q) p, Await q k).

(** Modelled from the spec: supabase.removeChannel(c) of the client module,
    the unsubscribe of the change notifier.  The client lets go of that
    channel object, with effect from the call. *)
Definition removeChannel (c : Channel) (p : Page) : Page :=
  note (Removed (chan c))
    {| viewCount := viewCount p; hasIncrementedRef := hasIncrementedRef p;
       channelRef := channelRef p;
       channels := List.filter (fun d => negb (Nat.eqb (chan d) (chan c))) (channels p);
       created := created p; hidden := hidden p; listeners := listeners p;
       now := now p; log := log p |}.

(** Modelled from the spec:
    supabase.channel(name).on('postgres_changes', {event, filter}, cb).subscribe()
    of the client module, the subscribe of the change notifier: a new
    channel object, held by the client from then on. *)
Definition subscribe (name : string) (ev : EventType) (f : option string) (p : Page)
  : Channel * Page :=
  let c := {| chan := created p; topic := name; event := ev; filter_by := f |} in
  (c, note (Subscribed (chan c))
        {| viewCount := viewCount p; hasIncrementedRef := hasIncrementedRef p;
           channelRef := channelRef p; channels := channels p ++ [c];
           created := S (created p); hidden := hidden p; listeners := listeners p;
           now := now p; log := log p |}).

(** Modelled from the spec: the feed is scoped to the one table and
    filtered by the kind of event and, when the channel names one, by the
    identity of the row. *)
Definition receives (ch : Change) (c : Channel) : bool :=
  match event c, eventType ch with
  | INSERT, INSERT | UPDATE, UPDATE | DELETE, DELETE =>
      match filter_by c with
      | Some i => String.eqb (new_id ch) i
      | None => true
      end
  | _, _ => false
  end.

(** Modelled from the spec: one event per committed write, which the
    client hands to the callback once for every channel it holds that
    receives it. *)
Definition deliver (callback : Change -> Page -> Page) (ch : Change) (p : Page) : Page :=
  fold_left (fun p _ => callback ch p) (List.filter (receives ch) (channels p)) p.

(** The document runs every registered handler. *)
Fixpoint dispatch (n : nat) (handler : Page -> Page * Task Page) (p : Page)
  : Page * list (Task Page) :=
  match n with
  | O => (p, [])
  | S n =>
      let r := handler p in
      let rs := dispatch n handler r.1 in
      (rs.1, pending r.2 ++ rs.2)
  end.


(** ** src/components/ViewCounter.tsx *)

(** The component keeps [viewCount] only: no ref, no channel, no listener;
    those fields of the page stay as they are. *)
Module ViewCounter.
Definition incrementAndFetch_update (newCount : Z) (_ : Response) (p : Page)
  : Page * Task Page :=
  (setViewCount (Some newCount) p, Done).

Definition incrementAndFetch_read (currentData : Response) (p : Page)
  : Page * Task Page :=
  match data currentData with
  | Some view_count =>
      let newCount := view_count + 1 in
      query (UpdateViewCount VIEW_ID newCount (now p))
            (incrementAndFetch_update newCount) p
  | None => (p, Done)
  end.

Definition incrementAndFetch (p : Page) : Page * Task Page :=
  query (SelectViewCount VIEW_ID) incrementAndFetch_read p.

Definition useEffect (p : Page) : Page * list (Task Page) :=
  let r := incrementAndFetch p in (r.1, pending r.2).

Definition component : Component Page := {|
  initial := blank;
  effect := useEffect;
  cleanup := fun p => p;
  visibilitychange := fun h p => (set_hidden h p, []);
  postgres_changes := fun _ p => p;
  tick := set_now
|}.
End ViewCounter.

(** ** ViewCounter.tsx, counter row with guard and feed (unnamed part 004) *)

Module CounterRow.
Definition fetchViewCount_data (r : Response) (p : Page) : Page * Task Page :=
  (match data r with
   | Some view_count => setViewCount (Some view_count) p
   | None => p
   end, Done).

Definition fetchViewCount (p : Page) : Page * Task Page :=
  query (SelectViewCount VIEW_ID) fetchViewCount_data p.

(** (payload) => setViewCount(payload.new.view_count) *)
Definition callback (payload : Change) (p : Page) : Page :=
  setViewCount (Some (new_view_count payload)) p.

Definition setupRealtimeChannel (p : Page) : Page :=
  let p1 := match channelRef p with
            | Some c => removeChannel c p
            | None => p
            end in
  let channel := subscribe "profile-views-realtime" UPDATE (Some VIEW_ID) p1 in
  set_channelRef (Some channel.1) channel.2.

Definition incrementAndFetch_update (newCount : Z) (_ : Response) (p : Page)
  : Page * Task Page :=
  (setViewCount (Some newCount) p, Done).

Definition incrementAndFetch_read (currentData : Response) (p : Page)
  : Page * Task Page :=
  match data currentData with
  | Some view_count =>
      let newCount := view_count + 1 in
      query (UpdateViewCount VIEW_ID newCount (now p))
            (incrementAndFetch_update newCount) p
  | None => (p, Done)
  end.

Definition incrementAndFetch (p : Page) : Page * Task Page :=
  if hasIncrementedRef p then (p, Done)
  else query (SelectViewCount VIEW_ID) incrementAndFetch_read
             (set_hasIncrementedRef true p).

Definition handleVisibilityChange (p : Page) : Page * Task Page :=
  if hidden p then (p, Done)
  else
    let r := fetchViewCount p in
    (setupRealtimeChannel r.1, r.2).

Definition useEffect (p : Page) : Page * list (Task Page) :=
  let r := incrementAndFetch p in
  let p1 := setupRealtimeChannel r.1 in
  (set_listeners (S (listeners p1)) p1, pending r.2).

Definition useEffect_cleanup (p : Page) : Page :=
  let p1 := match channelRef p with
            | Some c => set_channelRef None (removeChannel c p)
            | None => p
            end in
  set_listeners (Nat.pred (listeners p1)) p1.

Definition component : Component Page := {|
  initial := blank;
  effect := useEffect;
  cleanup := useEffect_cleanup;
  visibilitychange := fun h p =>
    dispatch (listeners p) handleVisibilityChange (set_hidden h p);
  postgres_changes := deliver callback;
  tick := set_now
|}.
End CounterRow.

(** ** ViewCounter.tsx, visit log with guard and feed (unnamed part 005) *)

Module VisitLog.
Definition fetchViewCount_count (r : Response) (p : Page) : Page * Task Page :=
  (match count r with
   | Some n => setViewCount (Some n) p
   | None => p
   end, Done).

Definition fetchViewCount (p : Page) : Page * Task Page :=
  query SelectCountExact fetchViewCount_count p.

(** () => setViewCount((prev) => (prev !== null ? prev + 1 : null)) *)
Definition callback (_ : Change) (p : Page) : Page :=
  setViewCount (match viewCount p with
                | Some prev => Some (prev + 1)
                | None => None
                end) p.

Definition setupRealtimeChannel (p : Page) : Page :=
  let p1 := match channelRef p with
            | Some c => removeChannel c p
            | None => p
            end in
  let channel := subscribe "profile-views-realtime" INSERT None p1 in
  set_channelRef (Some channel.1) channel.2.

Definition recordViewAndFetch_insert (_ : Response) (p : Page) : Page * Task Page :=
  fetchViewCount p.

Definition recordViewAndFetch (p : Page) : Page * Task Page :=
  if hasIncrementedRef p then (p, Done)
  else query InsertView recordViewAndFetch_insert (set_hasIncrementedRef true p).

Definition handleVisibilityChange (p : Page) : Page * Task Page :=
  if hidden p then (p, Done)
  else
    let r := fetchViewCount p in
    (setupRealtimeChannel r.1, r.2).

Definition useEffect (p : Page) : Page * list (Task Page) :=
  let r := recordViewAndFetch p in
  let p1 := setupRealtimeChannel r.1 in
  (set_listeners (S (listeners p1)) p1, pending r.2).

Definition useEffect_cleanup (p : Page) : Page :=
  let p1 := match channelRef p with
            | Some c => set_channelRef None (removeChannel c p)
            | None => p
            end in
  set_listeners (Nat.pred (listeners p1)) p1.

Definition component : Component Page := {|
  initial := blank;
  effect := useEffect;
  cleanup := useEffect_cleanup;
  visibilitychange := fun h p =>
    dispatch (listeners p) handleVisibilityChange (set_hidden h p);
  postgres_changes := deliver callback;
  tick := set_now
|}.
End VisitLog.

(** ** Scenarios *)

Section Scenarios.
Context {P Table : Type}.
Variable C : Component P.
Variable exec : bool -> Request -> Table -> Table * Response.

Definition session_of (p : P) : Session P :=
  {| page := p; inflight := []; journal := [] |}.

(** An asynchronous function called and not awaited. *)
Definition call (f : P -> P * Task P) (s : Session P) : Session P :=
  let r := f (page s) in spawn (r.1, pending r.2) s.

(** One page load carried to its end, alone on the store: the effect runs
    and the two requests it can make are answered, with the given
    outcomes. *)
Definition visit (ok : bool * bool) (t : Table) : Table * Session P :=
  run C exec [Mount; Reply 0 ok.1; Reply 0 ok.2] (t, fresh C).

Definition visits (oks : list (bool * bool)) (t : Table) : Table :=
  foldl (fun t ok => (visit ok t).1) t oks.

(** The effect run [k] times in one session, each run answered twice. *)
Definition loads (k : nat) : list Input :=
  concat (replicate k [Mount; Reply 0 true; Reply 0 true]).

(** [n] page loads open at once on one table. *)
Definition crowd (n : nat) (t : Table) : System P Table :=
  {| db := t; sessions := replicate n (fresh C) |}.
End Scenarios.

(** The page loads of a sequence whose read and write were both answered. *)
Definition recorded (oks : list (bool * bool)) : Z :=
  Z.of_nat (List.length (List.filter (fun ok => ok.1 && ok.2) oks)).

(** A table of the first migration whose counter row holds [v]. *)
Definition sentinel (v : Z) : CounterTable.Table :=
  [{| CounterTable.id := VIEW_ID; CounterTable.view_count := v;
      CounterTable.updated_at := 0 |}].

(** ** Invariants of a running session *)

(** The suspended code a session of part 004 can hold. *)
Inductive RowShape :=
| Reading                                       (* incrementAndFetch at its select *)
| Writing (newCount updated_at : Z)             (* incrementAndFetch at its update *)
| Fetching.                                     (* fetchViewCount at its select *)

Definition row_task (sh : RowShape) : Task Page :=
  match sh with
  | Reading => Await (SelectViewCount VIEW_ID) CounterRow.incrementAndFetch_read
  | Writing n t =>
      Await (UpdateViewCount VIEW_ID n t) (CounterRow.incrementAndFetch_update n)
  | Fetching => Await (SelectViewCount VIEW_ID) CounterRow.fetchViewCount_data
  end.

(** The writes a suspended piece of code may still make. *)
Definition row_owes (sh : RowShape) : nat :=
  match sh with
  | Reading | Writing _ _ => 1
  | Fetching => 0
  end.

(** The same for part 005. *)
Inductive LogShape :=
| Inserting                                     (* recordViewAndFetch at its insert *)
| Counting.                                     (* fetchViewCount at its select *)

Definition log_task (sh : LogShape) : Task Page :=
  match sh with
  | Inserting => Await InsertView VisitLog.recordViewAndFetch_insert
  | Counting => Await SelectCountExact VisitLog.fetchViewCount_count
  end.

Definition log_owes (sh : LogShape) : nat :=
  match sh with
  | Inserting => 1
  | Counting => 0
  end.

Definition answered_ok (j : list (Request * Response)) : Prop :=
  Forall (fun e => error e.2 = false) j.

Definition flag (p : Page) : nat := if hasIncrementedRef p then 1 else 0.

(** The client holds the channel of [channelRef] and no other, and that
    channel listens for [ev] under the filter [f]. *)
Definition one_channel (ev : EventType) (f : option string) (p : Page) : Prop :=
  channels p = option_list (channelRef p) /\
  forall c, channelRef p = Some c -> event c = ev /\ filter_by c = f.

(** What code that only re-subscribes keeps of a page: the flag, and a
    count that is known. *)
Definition keeps (p p' : Page) : Prop :=
  hasIncrementedRef p' = hasIncrementedRef p /\
  (viewCount p <> None -> viewCount p' <> None).

(** What code that leaves the refs and the client alone keeps. *)
Definition frame (p p' : Page) : Prop :=
  keeps p p' /\ channelRef p' = channelRef p /\ channels p' = channels p.

(** Writes made and writes still owed are covered by the flag; nothing is
    pending but code of the component. *)
Definition guarded {Shape} (task : Shape -> Task Page) (owes : Shape -> nat)
    (clean : list (Request * Response) -> Prop)
    (shapes : list Shape) (s : Session Page) : Prop :=
  inflight s = task <$> shapes /\
  (write_requests (journal s) + sum_list_with owes shapes <= flag (page s))%nat /\
  (clean (journal s) ->
   (write_requests (journal s) + sum_list_with owes shapes)%nat = flag (page s)).

Definition row_sound (s : Session Page) : Prop :=
  one_channel UPDATE (Some VIEW_ID) (page s) /\
  exists shapes, guarded row_task row_owes answered_ok shapes s.

Definition log_sound (s : Session Page) : Prop :=
  one_channel INSERT None (page s) /\
  exists shapes, guarded log_task log_owes (fun _ => True) shapes s.

(** A page load that has run to its end without a failed write. *)
Definition settled (s : Session Page) : Prop :=
  hasIncrementedRef (page s) = true /\ inflight s = [] /\
  Forall (fun e => is_write e.1 = true -> error e.2 = false) (journal s).

Definition total_durable (l : list (Session Page)) : nat :=
  sum_list_with (fun s => durable_writes (journal s)) l.

(** ** Further notions *)

(** The rows of the first migration's table other than the counter row. *)
Definition other_rows (t : CounterTable.Table) : CounterTable.Table :=
  List.filter (fun r => negb (String.eqb (CounterTable.id r) VIEW_ID)) t.

(** A change of the feed that part 004 has subscribed to. *)
Definition counter_update (ch : Change) : Prop :=
  eventType ch = UPDATE /\ new_id ch = VIEW_ID.

(** The suspended code a session of src/components/ViewCounter.tsx can
    hold. *)
Inductive PlainShape :=
| PlainReading                                  (* incrementAndFetch at its select *)
| PlainWriting (newCount updated_at : Z).       (* incrementAndFetch at its update *)

Definition plain_task (sh : PlainShape) : Task Page :=
  match sh with
  | PlainReading => Await (SelectViewCount VIEW_ID) ViewCounter.incrementAndFetch_read
  | PlainWriting n t =>
      Await (UpdateViewCount VIEW_ID n t) (ViewCounter.incrementAndFetch_update n)
  end.

(** Nothing is pending but code of the component. *)
Definition shaped {Shape} (task : Shape -> Task Page) (s : Session Page) : Prop :=
  exists shapes, inflight s = task <$> shapes.

(** The requests of the counter-row components, and those of part 005. *)
Definition counter_request (q : Request) : Prop :=
  match q with
  | SelectViewCount i | UpdateViewCount i _ _ => i = VIEW_ID
  | InsertView | SelectCountExact => False
  end.

Definition log_request (q : Request) : Prop :=
  match q with
  | InsertView | SelectCountExact => True
  | SelectViewCount _ | UpdateViewCount _ _ _ => False
  end.

(** An input that is no UPDATE of the counter row brought by the feed. *)
Definition no_counter_update (e : Input) : Prop :=
  match e with
  | PostgresChanges ch => ~ counter_update ch
  | _ => True
  end.

(** ** Numbers as text *)

(** The integers that a number of the runtime holds exactly, those of
    [Number.isSafeInteger]: sums, products and comparisons of such integers
    whose result is one of them are the ones of arithmetic. *)
Definition safe_integer (n : Z) : Prop := - 2 ^ 53 < n < 2 ^ 53.

(** [n.toString()] of a safe integer [n]: its decimal digits, with a leading
    [-] below zero. Beyond the safe integers a number is rounded, and from
    10^21 on the runtime prints an exponent: nothing is stated of
    [toString] there. *)
Definition toString (n : Z) : string := NilZero.string_of_int (Z.to_int n).

(** [s.padStart(n, fill)] for a filler of one character. *)
Definition padStart (n : nat) (fill : ascii) (s : string) : string :=
  String.append (string_of_list_ascii (repeat fill (n - String.length s))) s.

(** The character of a decimal digit. *)
Definition digit (d : Z) : ascii := ascii_of_nat (48 + Z.to_nat d).

(** ** src/components/SpotifyPlayer.tsx: the time label and the volume *)

Module SpotifyPlayer.
(** Positions and durations are whole milliseconds and safe integers. For
    a safe integer, [Math.floor] of its quotient by 1000 or by 60, which the
    runtime rounds, is the floor division: the rounding is by less than
    what a quotient that is no integer is short of the next one. [%] is
    the remainder that takes the sign of the dividend. Nothing is stated
    of [formatTime] beyond the safe integers. *)
Definition formatTime (ms : Z) : string :=
  let seconds := ms / 1000 in
  let mins := seconds / 60 in
  let secs := Z.rem seconds 60 in
  String.append (toString mins) (String.append ":" (padStart 2 "0" (toString secs))).

(** The volume state of the component and the calls it has made to the
    [setVolume] of the player hook; the call [setVolume(x / 100)] is
    recorded by its [x]. *)
Record Mixer := {
  volume : Z;                                   (* useState(50) *)
  isMuted : bool;                               (* useState(false) *)
  previousVolume : Z;                           (* useState(50) *)
  setVolume : list Z
}.

Definition initial : Mixer :=
  {| volume := 50; isMuted := false; previousVolume := 50; setVolume := [] |}.

(** [newVolume] is [value[0]], the position of the one thumb of the slider. *)
Definition handleVolumeChange (newVolume : Z) (m : Mixer) : Mixer :=
  {| volume := newVolume;
     isMuted := if 0 <? newVolume then false else isMuted m;
     previousVolume := previousVolume m;
     setVolume := setVolume m ++ [newVolume] |}.

Definition toggleMute (m : Mixer) : Mixer :=
  if isMuted m then
    {| volume := previousVolume m; isMuted := false;
       previousVolume := previousVolume m;
       setVolume := setVolume m ++ [previousVolume m] |}
  else
    {| volume := 0; isMuted := true; previousVolume := volume m;
       setVolume := setVolume m ++ [0] |}.

Inductive Action := Slide (newVolume : Z) | ToggleMute.

Definition act (a : Action) (m : Mixer) : Mixer :=
  match a with
  | Slide v => handleVolumeChange v m
  | ToggleMute => toggleMute m
  end.

Definition run (l : list Action) (m : Mixer) : Mixer :=
  foldl (fun m a => act a m) m l.

(** The volume last asked of the player hook, in hundredths; the hook
    starts the player at 0.5. *)
Definition player_volume (m : Mixer) : Z := List.last (setVolume m) 50.

(** The slider has [max={100}] and the default minimum 0. *)
Definition on_slider (a : Action) : Prop :=
  match a with
  | Slide v => 0 <= v <= 100
  | ToggleMute => True
  end.
End SpotifyPlayer.

(** ** The YouTube player component (unnamed part 006): the volume *)

Module YouTubeMusicPlayer.
Inductive PlayerCall :=
| setVolume (v : Z)
| mute
| unMute.

Record Mixer := {
  volume : Z;                                   (* useState(50) *)
  isMuted : bool;                               (* useState(false) *)
  playerRef : bool;                             (* playerRef.current is a player *)
  calls : list PlayerCall                       (* what the player was told *)
}.

(** After [onReady], which sets the volume of the player to 50. *)
Definition ready : Mixer :=
  {| volume := 50; isMuted := false; playerRef := true; calls := [setVolume 50] |}.

Definition handleVolumeChange (newVolume : Z) (m : Mixer) : Mixer :=
  if playerRef m then
    if (0 <? newVolume) && isMuted m then
      {| volume := newVolume; isMuted := false; playerRef := playerRef m;
         calls := calls m ++ [setVolume newVolume; unMute] |}
    else
      {| volume := newVolume; isMuted := isMuted m; playerRef := playerRef m;
         calls := calls m ++ [setVolume newVolume] |}
  else
    {| volume := newVolume; isMuted := isMuted m; playerRef := playerRef m;
       calls := calls m |}.

(** [volume || 50] *)
Definition toggleMute (m : Mixer) : Mixer :=
  if playerRef m then
    if isMuted m then
      {| volume := volume m; isMuted := false; playerRef := playerRef m;
         calls := calls m ++ [unMute; setVolume (if volume m =? 0 then 50 else volume m)] |}
    else
      {| volume := volume m; isMuted := true; playerRef := playerRef m;
         calls := calls m ++ [mute] |}
  else m.

Inductive Action := Slide (newVolume : Z) | ToggleMute.

Definition act (a : Action) (m : Mixer) : Mixer :=
  match a with
  | Slide v => handleVolumeChange v m
  | ToggleMute => toggleMute m
  end.

Definition run (l : list Action) (m : Mixer) : Mixer :=
  foldl (fun m a => act a m) m l.

(** What the player holds after the calls it was given. *)
Definition player_volume (l : list PlayerCall) : option Z :=
  List.fold_left (fun o c => match c with setVolume v => Some v | _ => o end) l None.

Definition player_muted (l : list PlayerCall) : bool :=
  List.fold_left (fun b c => match c with
                             | mute => true
                             | unMute => false
                             | setVolume _ => b
                             end) l false.

(** value={[isMuted ? 0 : volume]} *)
Definition slider (m : Mixer) : Z := if isMuted m then 0 else volume m.

(** The slider has [max={100}] and the default minimum 0. *)
Definition on_slider (a : Action) : Prop :=
  match a with
  | Slide v => 0 <= v <= 100
  | ToggleMute => True
  end.
End YouTubeMusicPlayer.

(** What the volume controls keep. *)
Definition spotify_mixer_sound (m : SpotifyPlayer.Mixer) : Prop :=
  SpotifyPlayer.player_volume m = SpotifyPlayer.volume m /\
  (SpotifyPlayer.isMuted m = true -> SpotifyPlayer.volume m = 0) /\
  0 <= SpotifyPlayer.volume m <= 100 /\
  0 <= SpotifyPlayer.previousVolume m <= 100.

Definition youtube_mixer_sound (m : YouTubeMusicPlayer.Mixer) : Prop :=
  YouTubeMusicPlayer.playerRef m = true /\
  YouTubeMusicPlayer.player_muted (YouTubeMusicPlayer.calls m)
  = YouTubeMusicPlayer.isMuted m /\
  (YouTubeMusicPlayer.player_volume (YouTubeMusicPlayer.calls m)
   = Some (YouTubeMusicPlayer.volume m) \/
   (YouTubeMusicPlayer.volume m = 0 /\
    YouTubeMusicPlayer.player_volume (YouTubeMusicPlayer.calls m) = Some 50)).

(** ** Text as numbers *)

(** [parseInt(s, 10)] on a string of characters below 256: white space is
    skipped, then an optional sign and the longest run of decimal digits are
    read; [None] is NaN. The result is the integer written; the runtime
    rounds it to the nearest number it holds, which is that integer when it
    is safe, and which in any case compares with a safe integer as the
    integer written does, the rounding being monotone. *)
Definition white_space (c : ascii) : bool :=
  let n := nat_of_ascii c in
  ((9 <=? n)%nat && (n <=? 13)%nat) || (n =? 32)%nat || (n =? 160)%nat.

Fixpoint trimStart (s : string) : string :=
  match s with
  | String c s' => if white_space c then trimStart s' else s
  | EmptyString => s
  end.

Definition digit_value (c : ascii) : option Z :=
  let n := Z.of_nat (nat_of_ascii c) in
  if (48 <=? n) && (n <=? 57) then Some (n - 48) else None.

Fixpoint digits (s : string) (read : option Z) : option Z :=
  match s with
  | String c s' =>
      match digit_value c with
      | Some d => digits s' (Some (10 * default 0 read + d))
      | None => read
      end
  | EmptyString => read
  end.

Definition parseInt (s : string) : option Z :=
  match trimStart s with
  | String "-"%char s' => Z.opp <$> digits s' None
  | String "+"%char s' => digits s' None
  | s' => digits s' None
  end.

(** [now < expiryTime] for a safe integer [now], which is false when
    [expiryTime] is NaN. *)
Definition less_than (now : Z) (expiryTime : option Z) : bool :=
  match expiryTime with
  | Some e => now <? e
  | None => false
  end.

(** A string in a condition: [null] and the empty string do not pass. *)
Definition truthy (o : option string) : option string :=
  match o with
  | Some (String c s) => Some (String c s)
  | _ => None
  end.

(** [s.replace(/c/g, by)] for one character [c]. *)
Fixpoint replace_all (c : ascii) (by_ : string) (s : string) : string :=
  match s with
  | String x s' =>
      if Ascii.eqb x c then String.append by_ (replace_all c by_ s')
      else String x (replace_all c by_ s')
  | EmptyString => EmptyString
  end.

(** The [btoa] of the platform on the characters of a list of bytes: base64
    with its padding. *)
Definition base64_alphabet : string :=
  "ABCDEFGHIJKLMNOPQRSTUVWXYZabcdefghijklmnopqrstuvwxyz0123456789+/".

Definition sextet (n : nat) : ascii :=
  default "="%char (String.get n base64_alphabet).

Fixpoint btoa (bytes : list byte) : string :=
  match bytes with
  | [] => EmptyString
  | [a] =>
      let a := Byte.to_nat a in
      String (sextet (a / 4)) (String (sextet (a mod 4 * 16)) "==")
  | [a; b] =>
      let a := Byte.to_nat a in
      let b := Byte.to_nat b in
      String (sextet (a / 4))
        (String (sextet (a mod 4 * 16 + b / 16))
           (String (sextet (b mod 16 * 4)) "="))
  | a :: b :: c :: rest =>
      let a := Byte.to_nat a in
      let b := Byte.to_nat b in
      let c := Byte.to_nat c in
      String (sextet (a / 4))
        (String (sextet (a mod 4 * 16 + b / 16))
           (String (sextet (b mod 16 * 4 + c / 64))
              (String (sextet (c mod 64)) (btoa rest))))
  end.

(** ** src/hooks/useSpotifyAuth.ts: signing in with Spotify *)

Module SpotifyAuth.
Record SpotifyAuthConfig := {
  clientId : string;
  redirectUri : string;
  scopes : option (list string)
}.

Definition DEFAULT_SCOPES : list string :=
  ["streaming"; "user-read-email"; "user-read-private";
   "user-read-playback-state"; "user-modify-playback-state";
   "user-read-currently-playing"].

(** *** The PKCE helpers *)

Definition possible : string :=
  "ABCDEFGHIJKLMNOPQRSTUVWXYZabcdefghijklmnopqrstuvwxyz0123456789".

(** [possible[i]] as it is appended to a string. *)
Definition possible_at (i : nat) : string :=
  match String.get i possible with
  | Some c => String c EmptyString
  | None => "undefined"
  end.

(** [values] are the [length] bytes that [crypto.getRandomValues] gives. *)
Definition generateRandomString (values : list byte) : string :=
  List.fold_left
    (fun acc x => String.append acc (possible_at (Byte.to_nat x mod String.length possible)))
    values EmptyString.

Definition base64encode (input : list byte) : string :=
  replace_all "/" "_" (replace_all "+" "-" (replace_all "=" EmptyString (btoa input))).

Module STORAGE_KEYS.
Definition accessToken : string := "spotify_access_token".
Definition refreshToken : string := "spotify_refresh_token".
Definition tokenExpiry : string := "spotify_token_expiry".
Definition codeVerifier : string := "spotify_code_verifier".
End STORAGE_KEYS.

(** *** The state of the hook and of the page around it *)

(** The parameters of the address that [login] navigates to. *)
Record Authorize := {
  response_type : string;
  client_id : string;
  scope : string;
  code_challenge_method : string;
  code_challenge : string;
  redirect_uri : string
}.

Record Hook := {
  accessToken : option string;                  (* useState(null) *)
  isLoading : bool;                             (* useState(true) *)
  error : option string;                        (* useState(null) *)
  localStorage : gmap string string;
  code : option string;                         (* urlParams.get("code") *)
  errorParam : option string;                   (* urlParams.get("error") *)
  href : option Authorize;                      (* window.location.href, once assigned *)
  now : Z                                       (* Date.now() *)
}.

Definition initial (storage : gmap string string) (code errorParam : option string)
    (now : Z) : Hook :=
  {| accessToken := None; isLoading := true; error := None;
     localStorage := storage; code := code; errorParam := errorParam;
     href := None; now := now |}.

Definition isAuthenticated (h : Hook) : bool :=
  match truthy (accessToken h) with Some _ => true | None => false end.

Definition setAccessToken (v : option string) (h : Hook) : Hook :=
  {| accessToken := v; isLoading := isLoading h; error := error h;
     localStorage := localStorage h; code := code h; errorParam := errorParam h;
     href := href h; now := now h |}.

Definition setIsLoading (v : bool) (h : Hook) : Hook :=
  {| accessToken := accessToken h; isLoading := v; error := error h;
     localStorage := localStorage h; code := code h; errorParam := errorParam h;
     href := href h; now := now h |}.

Definition setError (v : option string) (h : Hook) : Hook :=
  {| accessToken := accessToken h; isLoading := isLoading h; error := v;
     localStorage := localStorage h; code := code h; errorParam := errorParam h;
     href := href h; now := now h |}.

Definition store (f : gmap string string -> gmap string string) (h : Hook) : Hook :=
  {| accessToken := accessToken h; isLoading := isLoading h; error := error h;
     localStorage := f (localStorage h); code := code h;
     errorParam := errorParam h; href := href h; now := now h |}.

Definition getItem (key : string) (h : Hook) : option string := localStorage h !! key.
Definition setItem (key value : string) : Hook -> Hook := store (insert key value).
Definition removeItem (key : string) : Hook -> Hook := store (delete key).

(** [window.history.replaceState({}, document.title, window.location.pathname)]:
    the address keeps no parameters. *)
Definition replaceState (h : Hook) : Hook :=
  {| accessToken := accessToken h; isLoading := isLoading h; error := error h;
     localStorage := localStorage h; code := None; errorParam := None;
     href := href h; now := now h |}.

Definition navigate (a : Authorize) (h : Hook) : Hook :=
  {| accessToken := accessToken h; isLoading := isLoading h; error := error h;
     localStorage := localStorage h; code := code h; errorParam := errorParam h;
     href := Some a; now := now h |}.

Definition tick (t : Z) (h : Hook) : Hook :=
  {| accessToken := accessToken h; isLoading := isLoading h; error := error h;
     localStorage := localStorage h; code := code h; errorParam := errorParam h;
     href := href h; now := t |}.

(** *** What the hook waits for *)

(** The two posts to the token endpoint, by the fields of their body, and
    the digest that [sha256] asks of the platform. *)
Inductive Call :=
| AuthorizationCode (client_id code redirect_uri code_verifier : string)
| RefreshToken (client_id refresh_token : string)
| Sha256 (plain : string).

(** The body of an answer that is ok, as [saveTokens] takes it; the
    lifetime is in whole seconds. The expiry time that [saveTokens] computes
    and prints is the one of the runtime when the lifetime in milliseconds
    and the expiry time are safe integers. *)
Record TokenData := {
  access_token : string;
  refresh_token : option string;
  expires_in : Z
}.

(** How a post ends: an ok answer with its body, an answer that is not ok
    with the [error_description] of its body, or an [Error] thrown by
    [fetch] or by [response.json()]. *)
Inductive Fetched :=
| Granted (data : TokenData)
| Refused (error_description : option string)
| Failed (message : string).

(** How the digest ends: the hash, or an [Error] thrown. *)
Inductive Digested :=
| Hashed (hashed : list byte)
| Thrown (message : string).

(** *** The functions of the hook *)

Definition saveTokens (data : TokenData) (h : Hook) : Hook :=
  let expiryTime := now h + expires_in data * 1000 in
  let h := setItem STORAGE_KEYS.accessToken (access_token data) h in
  let h := setItem STORAGE_KEYS.tokenExpiry (toString expiryTime) h in
  let h := match truthy (refresh_token data) with
           | Some r => setItem STORAGE_KEYS.refreshToken r h
           | None => h
           end in
  setError None (setAccessToken (Some (access_token data)) h).

Definition clearTokens (h : Hook) : Hook :=
  setAccessToken None
    (removeItem STORAGE_KEYS.codeVerifier
       (removeItem STORAGE_KEYS.tokenExpiry
          (removeItem STORAGE_KEYS.refreshToken
             (removeItem STORAGE_KEYS.accessToken h)))).

(** [refreshAccessToken] up to its post, and from the end of the post. *)
Definition refreshAccessToken (cfg : SpotifyAuthConfig) (refreshToken : string) : Call :=
  RefreshToken (clientId cfg) refreshToken.

Definition refreshAccessToken_fetched (r : Fetched) (h : Hook) : Hook :=
  match r with
  | Granted data => setIsLoading false (saveTokens data h)
  | Refused _ | Failed _ => setIsLoading false (clearTokens h)
  end.

(** The first effect: the check for a token kept from before. *)
Definition checkExistingToken (cfg : SpotifyAuthConfig) (h : Hook) : Hook * list Call :=
  match truthy (getItem STORAGE_KEYS.accessToken h),
        truthy (getItem STORAGE_KEYS.tokenExpiry h) with
  | Some storedToken, Some tokenExpiry =>
      let expiryTime := parseInt tokenExpiry in
      if less_than (now h) expiryTime then
        (setIsLoading false (setAccessToken (Some storedToken) h), [])
      else
        match truthy (getItem STORAGE_KEYS.refreshToken h) with
        | Some refreshToken => (h, [refreshAccessToken cfg refreshToken])
        | None => (setIsLoading false (clearTokens h), [])
        end
  | _, _ => (setIsLoading false h, [])
  end.

(** The second effect: [handleCallback] with [exchangeCodeForToken], up to
    the post and from its end. *)
Definition handleCallback (cfg : SpotifyAuthConfig) (h : Hook) : Hook * list Call :=
  match truthy (errorParam h) with
  | Some e => (replaceState (setIsLoading false (setError (Some e) h)), [])
  | None =>
      match truthy (code h) with
      | Some c =>
          let h := setIsLoading true h in
          match truthy (getItem STORAGE_KEYS.codeVerifier h) with
          | Some codeVerifier =>
              (h, [AuthorizationCode (clientId cfg) c (redirectUri cfg) codeVerifier])
          | None =>
              (setIsLoading false
                 (replaceState (setError (Some "Code verifier not found") h)), [])
          end
      | None => (h, [])
      end
  end.

Definition handleCallback_fetched (r : Fetched) (h : Hook) : Hook :=
  match r with
  | Granted data =>
      setIsLoading false
        (replaceState (removeItem STORAGE_KEYS.codeVerifier (saveTokens data h)))
  | Refused error_description =>
      setIsLoading false
        (replaceState
           (setError (Some (default "Token exchange failed" (truthy error_description))) h))
  | Failed message => setIsLoading false (replaceState (setError (Some message) h))
  end.

(** [login] up to the digest, with the 64 random bytes it draws, and from
    the end of the digest. *)
Definition login (values : list byte) (h : Hook) : Hook * list Call :=
  let h := setError None (setIsLoading true h) in
  let codeVerifier := generateRandomString values in
  (setItem STORAGE_KEYS.codeVerifier codeVerifier h, [Sha256 codeVerifier]).

Definition login_hashed (cfg : SpotifyAuthConfig) (d : Digested) (h : Hook) : Hook :=
  match d with
  | Hashed hashed =>
      navigate {| response_type := "code";
                  client_id := clientId cfg;
                  scope := String.concat " " (default DEFAULT_SCOPES (scopes cfg));
                  code_challenge_method := "S256";
                  code_challenge := base64encode hashed;
                  redirect_uri := redirectUri cfg |} h
  | Thrown message => setIsLoading false (setError (Some message) h)
  end.

Definition logout (h : Hook) : Hook := clearTokens h.

(** *** The hook in a page *)

Record Session := {
  hook : Hook;
  pending : list Call
}.

Definition fresh (h : Hook) : Session := {| hook := h; pending := [] |}.

Inductive Event :=
| Mount                                         (* the two effects, in their order *)
| Login (values : list byte)
| Logout
| Answer (i : nat) (r : Fetched)                (* the post pending at [i] ends *)
| Digest (i : nat) (d : Digested)               (* the digest pending at [i] ends *)
| Clock (t : Z).

Definition start (f : Hook -> Hook * list Call) (s : Session) : Session :=
  {| hook := (f (hook s)).1; pending := pending s ++ (f (hook s)).2 |}.

Definition finish (i : nat) (f : Hook -> Hook) (s : Session) : Session :=
  {| hook := f (hook s); pending := delete i (pending s) |}.

Definition step (cfg : SpotifyAuthConfig) (e : Event) (s : Session) : Session :=
  match e with
  | Mount => start (handleCallback cfg) (start (checkExistingToken cfg) s)
  | Login values => start (login values) s
  | Logout => {| hook := logout (hook s); pending := pending s |}
  | Answer i r =>
      match pending s !! i with
      | Some (AuthorizationCode _ _ _ _) => finish i (handleCallback_fetched r) s
      | Some (RefreshToken _ _) => finish i (refreshAccessToken_fetched r) s
      | Some (Sha256 _) | None => s
      end
  | Digest i d =>
      match pending s !! i with
      | Some (Sha256 _) => finish i (login_hashed cfg d) s
      | _ => s
      end
  | Clock t => {| hook := tick t (hook s); pending := pending s |}
  end.

Definition run (cfg : SpotifyAuthConfig) (es : list Event) (s : Session) : Session :=
  foldl (fun s e => step cfg e s) s es.

(** The four keys of the hook. *)
Definition own_key (k : string) : Prop :=
  k = STORAGE_KEYS.accessToken \/ k = STORAGE_KEYS.refreshToken \/
  k = STORAGE_KEYS.tokenExpiry \/ k = STORAGE_KEYS.codeVerifier.

Definition is_refresh (c : Call) : Prop :=
  match c with
  | RefreshToken _ _ => True
  | _ => False
  end.
End SpotifyAuth.

(** A letter or a digit; a character of the base64 alphabet for addresses. *)
Definition alphanumeric (c : ascii) : bool :=
  let n := nat_of_ascii c in
  ((48 <=? n)%nat && (n <=? 57)%nat) || ((65 <=? n)%nat && (n <=? 90)%nat)
  || ((97 <=? n)%nat && (n <=? 122)%nat).

Definition url_safe (c : ascii) : bool :=
  alphanumeric c || Ascii.eqb c "-" || Ascii.eqb c "_".

(** The number that a run of decimal digits writes, after [acc]. *)
Fixpoint uint_value (d : uint) (acc : Z) : Z :=
  match d with
  | Nil => acc
  | D0 d => uint_value d (10 * acc + 0)
  | D1 d => uint_value d (10 * acc + 1)
  | D2 d => uint_value d (10 * acc + 2)
  | D3 d => uint_value d (10 * acc + 3)
  | D4 d => uint_value d (10 * acc + 4)
  | D5 d => uint_value d (10 * acc + 5)
  | D6 d => uint_value d (10 * acc + 6)
  | D7 d => uint_value d (10 * acc + 7)
  | D8 d => uint_value d (10 * acc + 8)
  | D9 d => uint_value d (10 * acc + 9)
  end.

(** What every step keeps: a token in memory is the token in the storage. *)
Definition token_stored (h : SpotifyAuth.Hook) : Prop :=
  forall tok, SpotifyAuth.accessToken h = Some tok ->
              SpotifyAuth.localStorage h !! SpotifyAuth.STORAGE_KEYS.accessToken = Some tok.

(** When nothing is awaited and the page is not leaving, the hook is not
    loading. *)
Definition at_rest (s : SpotifyAuth.Session) : Prop :=
  SpotifyAuth.pending s = [] -> SpotifyAuth.href (SpotifyAuth.hook s) = None ->
  SpotifyAuth.isLoading (SpotifyAuth.hook s) = false.

(** * Facts *)

(** ** The runtime *)

Section RuntimeFacts.
Context {P Table : Type}.
Variable C : Component P.
Variable exec : bool -> Request -> Table -> Table * Response.

Lemma run_app es1 es2 (w : Table * Session P) :
  run C exec (es1 ++ es2) w = run C exec es2 (run C exec es1 w).
Proof. apply foldl_app. Qed.

Lemma schedule_app es1 es2 (y : System P Table) :
  schedule C exec (es1 ++ es2) y = schedule C exec es2 (schedule C exec es1 y).
Proof. apply foldl_app. Qed.

(** What every input keeps holds after any run. *)
Lemma run_invariant (I : Table * Session P -> Prop) :
  (forall e w, I w -> I (feed C exec e w)) ->
  forall es w, I w -> I (run C exec es w).
Proof.
  intros Hstep es. induction es as [|e es IH]; intros w Hw; [exact Hw|].
  simpl. apply IH, Hstep, Hw.
Qed.

Lemma schedule_invariant (I : System P Table -> Prop) :
  (forall e y, I y -> I (step C exec e y)) ->
  forall es y, I y -> I (schedule C exec es y).
Proof.
  intros Hstep es. induction es as [|e es IH]; intros y Hy; [exact Hy|].
  simpl. apply IH, Hstep, Hy.
Qed.
End RuntimeFacts.

Lemma write_requests_snoc j q r :
  write_requests (j ++ [(q, r)]) = (write_requests j + if is_write q then 1 else 0)%nat.
Proof.
  unfold write_requests. rewrite filter_app, length_app. f_equal.
  destruct (is_write q) eqn:E.
  - rewrite filter_cons_True by exact E. reflexivity.
  - rewrite filter_cons_False by (simpl; congruence). reflexivity.
Qed.

Lemma durable_writes_snoc j e :
  durable_writes (j ++ [e]) = (durable_writes j + if durable e then 1 else 0)%nat.
Proof.
  unfold durable_writes. rewrite filter_app, length_app. f_equal.
  destruct (durable e) eqn:E.
  - rewrite filter_cons_True by exact E. reflexivity.
  - rewrite filter_cons_False by congruence. reflexivity.
Qed.

Lemma durable_le_write_requests j : (durable_writes j <= write_requests j)%nat.
Proof.
  induction j as [|e j IH] using rev_ind; [reflexivity|].
  destruct e as [q r]. rewrite durable_writes_snoc, write_requests_snoc.
  unfold durable; simpl. destruct (is_write q), (error r); simpl; lia.
Qed.

Lemma sum_list_with_delete {A} (f : A -> nat) (l : list A) i x :
  l !! i = Some x -> sum_list_with f l = (f x + sum_list_with f (delete i l))%nat.
Proof.
  revert i. induction l as [|y l IH]; intros [|i] Hi; simpl in *; try discriminate.
  - injection Hi as ->. reflexivity.
  - rewrite (IH i Hi). lia.
Qed.

Lemma sum_list_with_insert {A} (f : A -> nat) (l : list A) i x y :
  l !! i = Some x ->
  (sum_list_with f (<[i:=y]> l) + f x)%nat = (sum_list_with f l + f y)%nat.
Proof.
  revert i. induction l as [|z l IH]; intros [|i] Hi; simpl in *; try discriminate.
  - injection Hi as ->. lia.
  - specialize (IH i Hi). lia.
Qed.

(** ** Pages *)

Lemma keeps_refl p : keeps p p.
Proof. split; auto. Qed.

Lemma keeps_trans p q r : keeps p q -> keeps q r -> keeps p r.
Proof. intros [H1 H2] [H3 H4]. split; [congruence | auto]. Qed.

Lemma frame_refl p : frame p p.
Proof. repeat split; auto. Qed.

Lemma frame_trans p q r : frame p q -> frame q r -> frame p r.
Proof.
  intros [H1 [H2 H3]] [H4 [H5 H6]].
  split; [eapply keeps_trans; eauto | split; congruence].
Qed.

Lemma frame_keeps p q : frame p q -> keeps p q.
Proof. intros [H _]. exact H. Qed.

Lemma frame_one_channel ev f p q : frame p q -> one_channel ev f p -> one_channel ev f q.
Proof.
  intros [_ [Hr Hc]] [H1 H2]. unfold one_channel. rewrite Hr, Hc. split; assumption.
Qed.

Lemma frame_flag p q : keeps p q -> flag q = flag p.
Proof. intros [H _]. unfold flag. rewrite H. reflexivity. Qed.

Lemma removeChannel_only c p :
  channels p = [c] -> channels (removeChannel c p) = [].
Proof.
  intros H. unfold removeChannel; simpl. rewrite H; simpl.
  rewrite Nat.eqb_refl. reflexivity.
Qed.

(** Re-subscribing leaves exactly the new channel with the client. *)
Lemma resubscribe_one ev f name p :
  channels p = option_list (channelRef p) ->
  let p1 := match channelRef p with Some c => removeChannel c p | None => p end in
  let channel := subscribe name ev f p1 in
  let p' := set_channelRef (Some channel.1) channel.2 in
  one_channel ev f p' /\ keeps p p' /\
  channels p' = [channel.1] /\ channelRef p' = Some channel.1.
Proof.
  intros H. destruct (channelRef p) as [c|] eqn:E.
  - pose proof (removeChannel_only c p H) as Hr. simpl in *. rewrite Hr.
    unfold one_channel, keeps; simpl.
    repeat split; auto;
  match goal with E : Some _ = Some _ |- _ => injection E as <-; reflexivity end.
  - simpl in *. rewrite H.
    unfold one_channel, keeps; simpl.
    repeat split; auto;
  match goal with E : Some _ = Some _ |- _ => injection E as <-; reflexivity end.
Qed.

Lemma unsubscribe_none ev f p :
  channels p = option_list (channelRef p) ->
  let p1 := match channelRef p with
            | Some c => set_channelRef None (removeChannel c p)
            | None => p
            end in
  let p' := set_listeners (Nat.pred (listeners p1)) p1 in
  one_channel ev f p' /\ keeps p p' /\ channels p' = [] /\ channelRef p' = None.
Proof.
  intros H. destruct (channelRef p) as [c|] eqn:E.
  - pose proof (removeChannel_only c p H) as Hr. simpl in *. rewrite Hr.
    unfold one_channel, keeps; simpl.
    repeat split; auto; discriminate.
  - simpl in *. unfold one_channel, keeps; simpl. rewrite E, H.
    repeat split; auto; discriminate.
Qed.

Lemma deliver_frame callback ch p :
  (forall q, frame q (callback ch q)) -> frame p (deliver callback ch p).
Proof.
  intros Hcb. unfold deliver.
  generalize (List.filter (receives ch) (channels p)). intros l. revert p.
  induction l as [|c l IH]; intros p; simpl; [apply frame_refl|].
  pose proof (IH (callback ch p)) as IH'.
  assert (forall a b, frame a b ->
    frame a (fold_left (fun p0 _ => callback ch p0) l b)) as Hgen.
  { clear IH IH' p. induction l as [|d l IHl]; intros a b Hab; simpl; [exact Hab|].
    apply IHl. eapply frame_trans; [exact Hab | apply Hcb]. }
  apply Hgen, Hcb.
Qed.

Lemma answered_ok_snoc j e : answered_ok (j ++ [e]) -> answered_ok j.
Proof. unfold answered_ok. rewrite Forall_app. tauto. Qed.

(** Several handlers in a row: the refs stay, the channel stays single, and
    whatever they suspend is a fetch. *)
Lemma dispatch_handlers ev f (handler : Page -> Page * Task Page) (fetch : Task Page) :
  (forall p, one_channel ev f p ->
     one_channel ev f (handler p).1 /\ keeps p (handler p).1 /\
     ((handler p).2 = Done \/ (handler p).2 = fetch)) ->
  finished fetch = false ->
  forall n p, one_channel ev f p ->
    let r := dispatch n handler p in
    one_channel ev f r.1 /\ keeps p r.1 /\ exists k, r.2 = replicate k fetch.
Proof.
  intros Hh Hf n. induction n as [|n IH]; intros p Hp; simpl.
  - split; [exact Hp|]. split; [apply keeps_refl|]. exists 0%nat. reflexivity.
  - destruct (Hh p Hp) as [H1 [H2 H3]].
    destruct (IH _ H1) as [H4 [H5 [k H6]]].
    split; [exact H4|]. split; [eapply keeps_trans; eauto|].
    rewrite H6. destruct H3 as [-> | ->]; unfold pending.
    + exists k. reflexivity.
    + rewrite Hf. exists (S k). reflexivity.
Qed.

(** ** Part 004 keeps its invariant *)

Lemma row_callback_frame ch p : frame p (CounterRow.callback ch p).
Proof. unfold frame, keeps; simpl. repeat split; auto; discriminate. Qed.

Lemma row_handler p :
  one_channel UPDATE (Some VIEW_ID) p ->
  one_channel UPDATE (Some VIEW_ID) (CounterRow.handleVisibilityChange p).1 /\
  keeps p (CounterRow.handleVisibilityChange p).1 /\
  ((CounterRow.handleVisibilityChange p).2 = Done \/
   (CounterRow.handleVisibilityChange p).2 = row_task Fetching).
Proof.
  intros Hp. unfold CounterRow.handleVisibilityChange.
  destruct (hidden p); simpl.
  - split; [exact Hp|]. split; [apply keeps_refl | left; reflexivity].
  - destruct Hp as [Hc _].
    pose proof (resubscribe_one UPDATE (Some VIEW_ID) "profile-views-realtime"
                  (note (Issued (SelectViewCount VIEW_ID)) p) Hc) as [H1 [H2 _]].
    split; [exact H1|]. split; [exact H2 | right; reflexivity].
Qed.

Lemma row_effect p :
  one_channel UPDATE (Some VIEW_ID) p ->
  let r := CounterRow.useEffect p in
  one_channel UPDATE (Some VIEW_ID) r.1 /\
  (viewCount p <> None -> viewCount r.1 <> None) /\
  ((hasIncrementedRef p = true /\ r.2 = [] /\ flag r.1 = flag p) \/
   (hasIncrementedRef p = false /\ r.2 = [row_task Reading] /\ flag r.1 = 1%nat)).
Proof.
  intros [Hc Hk]. unfold CounterRow.useEffect, CounterRow.incrementAndFetch.
  destruct (hasIncrementedRef p) eqn:E.
  - pose proof (resubscribe_one UPDATE (Some VIEW_ID) "profile-views-realtime" p Hc)
      as [[H1 H1'] [[H2 H2'] _]].
    split; [split; assumption|]. split; [exact H2'|].
    left. repeat split. unfold flag. simpl in *. rewrite H2, E. reflexivity.
  - pose proof (resubscribe_one UPDATE (Some VIEW_ID) "profile-views-realtime"
        (note (Issued (SelectViewCount VIEW_ID)) (set_hasIncrementedRef true p)) Hc)
      as [[H1 H1'] [[H2 H2'] _]].
    split; [split; assumption|]. split; [exact H2'|].
    right. repeat split. unfold flag. simpl in *. rewrite H2. reflexivity.
Qed.

Lemma row_sound_fresh : row_sound (fresh CounterRow.component).
Proof.
  split.
  - split; [reflexivity | discriminate].
  - exists []. repeat split; simpl; auto.
Qed.

Lemma select_without_data reachable i t :
  data (CounterTable.exec reachable (SelectViewCount i) t).2 = None ->
  error (CounterTable.exec reachable (SelectViewCount i) t).2 = true.
Proof.
  unfold CounterTable.exec. destruct reachable; [|reflexivity].
  simpl. destruct (CounterTable.single i t); [discriminate | reflexivity].
Qed.

Lemma sum_list_with_replicate_zero {A} (f : A -> nat) k x :
  f x = 0%nat -> sum_list_with f (replicate k x) = 0%nat.
Proof. intros H. induction k as [|k IH]; simpl; [reflexivity | lia]. Qed.

Ltac session_step C :=
  unfold feed, spawn, on_page;
  cbn [fst snd page inflight journal effect cleanup visibilitychange
       postgres_changes tick C].

Ltac same_channel H :=
  unfold one_channel in *; simpl; exact H.

Lemma row_sound_feed e db s :
  row_sound s ->
  let s' := (feed CounterRow.component CounterTable.exec e (db, s)).2 in
  row_sound s' /\ (viewCount (page s) <> None -> viewCount (page s') <> None).
Proof.
  intros [Hch [shapes [Hin [Hle Heq]]]].
  destruct e as [| |i reachable|h|ch|t]; session_step CounterRow.component.
  all: unfold row_sound, guarded in *.
  - (* Mount *)
    destruct (row_effect (page s) Hch) as [H1 [H2 H3]].
    split; [|exact H2]. split; [exact H1|].
    destruct H3 as [[Hf [Ht Hfl]] | [Hf [Ht Hfl]]].
    + exists shapes. cbn [page inflight journal].
      rewrite Ht, app_nil_r, Hfl. auto.
    + exists (shapes ++ [Reading]). cbn [page inflight journal].
      rewrite Ht, Hin, fmap_app, Hfl, sum_list_with_app. simpl.
      unfold flag in Hle. rewrite Hf in Hle. split; [reflexivity|]. split; lia.
  - (* Unmount *)
    destruct Hch as [Hc Hk].
    destruct (unsubscribe_none UPDATE (Some VIEW_ID) (page s) Hc) as [H1 [H2 _]].
    split; [|apply H2]. split; [exact H1|].
    exists shapes. cbn [page inflight journal].
    unfold CounterRow.useEffect_cleanup. rewrite (frame_flag _ _ H2). auto.
  - (* Reply *)
    unfold reply; cbn [fst snd]. rewrite Hin, list_lookup_fmap.
    destruct (shapes !! i) as [sh|] eqn:Hi; cbn [fmap option_fmap option_map].
    2:{ split; [|auto]. split; [exact Hch|]. exists shapes. split; auto. }
    pose proof (sum_list_with_delete row_owes shapes i sh Hi) as Hsum.
    destruct sh as [|n u|]; cbn [row_task row_owes page inflight journal fst snd] in *.
    + (* the select of incrementAndFetch *)
      unfold CounterRow.incrementAndFetch_read.
      pose proof (select_without_data reachable VIEW_ID db) as Herr.
      destruct (data (CounterTable.exec reachable (SelectViewCount VIEW_ID) db).2)
        as [v|]; cbn [fst snd query pending finished].
      * split; [|auto]. split; [same_channel Hch|].
        exists (delete i shapes ++ [Writing (v + 1) (now (page s))]).
        cbn [page inflight journal].
        rewrite fmap_app, list_fmap_delete, write_requests_snoc,
          sum_list_with_app; simpl.
        unfold flag in *; cbn [hasIncrementedRef note] in *.
        split; [reflexivity|]. split; [lia|].
        intros Hok. apply answered_ok_snoc in Hok. specialize (Heq Hok). lia.
      * split; [|auto]. split; [exact Hch|].
        exists (delete i shapes). cbn [page inflight journal].
        rewrite app_nil_r, list_fmap_delete, write_requests_snoc; simpl.
        split; [reflexivity|]. split; [lia|].
        intros Hok. unfold answered_ok in Hok. rewrite Forall_app in Hok.
        destruct Hok as [_ Hok]. inversion Hok as [|? ? Hbad _]; subst.
        cbn [snd] in Hbad. rewrite (Herr eq_refl) in Hbad. discriminate.
    + (* its update *)
      split; [|intros _; discriminate]. split; [same_channel Hch|].
      exists (delete i shapes). cbn [page inflight journal].
      rewrite app_nil_r, list_fmap_delete, write_requests_snoc; simpl.
      unfold flag in *; cbn [hasIncrementedRef setViewCount] in *.
      split; [reflexivity|]. split; [lia|].
      intros Hok. apply answered_ok_snoc in Hok. specialize (Heq Hok). lia.
    + (* the select of fetchViewCount *)
      assert (frame (page s)
        (CounterRow.fetchViewCount_data
           (CounterTable.exec reachable (SelectViewCount VIEW_ID) db).2 (page s)).1)
        as Hfr.
      { unfold CounterRow.fetchViewCount_data; cbn [fst].
        destruct (data _); [|apply frame_refl].
        unfold frame, keeps; simpl. repeat split; auto; discriminate. }
      split; [|apply Hfr]. split; [exact (frame_one_channel _ _ _ _ Hfr Hch)|].
      exists (delete i shapes). cbn [page inflight journal].
      change (CounterRow.fetchViewCount_data
                (CounterTable.exec reachable (SelectViewCount VIEW_ID) db).2
                (page s)).2 with (@Done Page).
      cbn [pending finished].
      rewrite app_nil_r, list_fmap_delete, write_requests_snoc,
        (frame_flag _ _ (frame_keeps _ _ Hfr)); simpl.
      split; [reflexivity|]. split; [lia|].
      intros Hok. apply answered_ok_snoc in Hok. specialize (Heq Hok). lia.
  - (* VisibilityChange *)
    assert (one_channel UPDATE (Some VIEW_ID) (set_hidden h (page s))) as Hch'
      by same_channel Hch.
    destruct (dispatch_handlers UPDATE (Some VIEW_ID)
                CounterRow.handleVisibilityChange (row_task Fetching)
                row_handler eq_refl (listeners (page s)) _ Hch')
      as [H1 [H2 [k H3]]].
    split; [|apply H2]. split; [exact H1|].
    exists (shapes ++ replicate k Fetching). cbn [page inflight journal].
    rewrite H3, Hin, fmap_app, fmap_replicate, sum_list_with_app,
      (sum_list_with_replicate_zero row_owes k Fetching eq_refl),
      (frame_flag _ _ H2).
    change (flag (set_hidden h (page s))) with (flag (page s)).
    rewrite Nat.add_0_r. auto.
  - (* PostgresChanges *)
    pose proof (deliver_frame CounterRow.callback ch (page s)
                  (row_callback_frame ch)) as Hfr.
    split; [|apply Hfr]. split; [exact (frame_one_channel _ _ _ _ Hfr Hch)|].
    exists shapes. cbn [page inflight journal].
    rewrite (frame_flag _ _ (frame_keeps _ _ Hfr)). auto.
  - (* Clock *)
    split; [|auto]. split; [same_channel Hch|].
    exists shapes. cbn [page inflight journal]. auto.
Qed.

Lemma row_sound_run es db :
  row_sound (run CounterRow.component CounterTable.exec es
               (db, fresh CounterRow.component)).2.
Proof.
  apply (run_invariant CounterRow.component CounterTable.exec
           (fun w => row_sound w.2)).
  - intros e [t s] Hs. apply (row_sound_feed e t s Hs).
  - apply row_sound_fresh.
Qed.

(** ** Part 005 keeps its invariant *)

Lemma log_callback_frame ch p : frame p (VisitLog.callback ch p).
Proof.
  unfold frame, keeps; simpl. repeat split; auto.
  destruct (viewCount p); [discriminate | auto].
Qed.

Lemma log_handler p :
  one_channel INSERT None p ->
  one_channel INSERT None (VisitLog.handleVisibilityChange p).1 /\
  keeps p (VisitLog.handleVisibilityChange p).1 /\
  ((VisitLog.handleVisibilityChange p).2 = Done \/
   (VisitLog.handleVisibilityChange p).2 = log_task Counting).
Proof.
  intros Hp. unfold VisitLog.handleVisibilityChange.
  destruct (hidden p); simpl.
  - split; [exact Hp|]. split; [apply keeps_refl | left; reflexivity].
  - destruct Hp as [Hc _].
    pose proof (resubscribe_one INSERT None "profile-views-realtime"
                  (note (Issued SelectCountExact) p) Hc) as [H1 [H2 _]].
    split; [exact H1|]. split; [exact H2 | right; reflexivity].
Qed.

Lemma log_effect p :
  one_channel INSERT None p ->
  let r := VisitLog.useEffect p in
  one_channel INSERT None r.1 /\
  (viewCount p <> None -> viewCount r.1 <> None) /\
  ((hasIncrementedRef p = true /\ r.2 = [] /\ flag r.1 = flag p) \/
   (hasIncrementedRef p = false /\ r.2 = [log_task Inserting] /\ flag r.1 = 1%nat)).
Proof.
  intros [Hc Hk]. unfold VisitLog.useEffect, VisitLog.recordViewAndFetch.
  destruct (hasIncrementedRef p) eqn:E.
  - pose proof (resubscribe_one INSERT None "profile-views-realtime" p Hc)
      as [[H1 H1'] [[H2 H2'] _]].
    split; [split; assumption|]. split; [exact H2'|].
    left. repeat split. unfold flag. simpl in *. rewrite H2, E. reflexivity.
  - pose proof (resubscribe_one INSERT None "profile-views-realtime"
        (note (Issued InsertView) (set_hasIncrementedRef true p)) Hc)
      as [[H1 H1'] [[H2 H2'] _]].
    split; [split; assumption|]. split; [exact H2'|].
    right. repeat split. unfold flag. simpl in *. rewrite H2. reflexivity.
Qed.

Lemma log_sound_fresh : log_sound (fresh VisitLog.component).
Proof.
  split.
  - split; [reflexivity | discriminate].
  - exists []. repeat split; simpl; auto.
Qed.

Lemma log_sound_feed e db s :
  log_sound s ->
  let s' := (feed VisitLog.component VisitTable.exec e (db, s)).2 in
  log_sound s' /\ (viewCount (page s) <> None -> viewCount (page s') <> None).
Proof.
  intros [Hch [shapes [Hin [Hle Heq]]]].
  destruct e as [| |i reachable|h|ch|t]; session_step VisitLog.component.
  all: unfold log_sound, guarded in *.
  - (* Mount *)
    destruct (log_effect (page s) Hch) as [H1 [H2 H3]].
    split; [|exact H2]. split; [exact H1|].
    destruct H3 as [[Hf [Ht Hfl]] | [Hf [Ht Hfl]]].
    + exists shapes. cbn [page inflight journal].
      rewrite Ht, app_nil_r, Hfl. auto.
    + exists (shapes ++ [Inserting]). cbn [page inflight journal].
      rewrite Ht, Hin, fmap_app, Hfl, sum_list_with_app. simpl.
      unfold flag in Hle. rewrite Hf in Hle. split; [reflexivity|]. split; lia.
  - (* Unmount *)
    destruct Hch as [Hc Hk].
    destruct (unsubscribe_none INSERT None (page s) Hc) as [H1 [H2 _]].
    split; [|apply H2]. split; [exact H1|].
    exists shapes. cbn [page inflight journal].
    unfold VisitLog.useEffect_cleanup. rewrite (frame_flag _ _ H2). auto.
  - (* Reply *)
    unfold reply; cbn [fst snd]. rewrite Hin, list_lookup_fmap.
    destruct (shapes !! i) as [sh|] eqn:Hi; cbn [fmap option_fmap option_map].
    2:{ split; [|auto]. split; [exact Hch|]. exists shapes. split; auto. }
    pose proof (sum_list_with_delete log_owes shapes i sh Hi) as Hsum.
    destruct sh; cbn [log_task log_owes page inflight journal fst snd] in *.
    + (* the insert of recordViewAndFetch *)
      split; [|auto]. split; [same_channel Hch|].
      exists (delete i shapes ++ [Counting]). cbn [page inflight journal].
      unfold VisitLog.recordViewAndFetch_insert, VisitLog.fetchViewCount.
      cbn [fst snd query pending finished].
      rewrite fmap_app, list_fmap_delete, write_requests_snoc,
        sum_list_with_app; simpl.
      unfold flag in *; cbn [hasIncrementedRef note] in *.
      split; [reflexivity|]. specialize (Heq I). split; lia.
    + (* the select of fetchViewCount *)
      assert (frame (page s)
        (VisitLog.fetchViewCount_count
           (VisitTable.exec reachable SelectCountExact db).2 (page s)).1)
        as Hfr.
      { unfold VisitLog.fetchViewCount_count; cbn [fst].
        destruct (count _); [|apply frame_refl].
        unfold frame, keeps; simpl. repeat split; auto; discriminate. }
      split; [|apply Hfr]. split; [exact (frame_one_channel _ _ _ _ Hfr Hch)|].
      exists (delete i shapes). cbn [page inflight journal].
      change (VisitLog.fetchViewCount_count
                (VisitTable.exec reachable SelectCountExact db).2
                (page s)).2 with (@Done Page).
      cbn [pending finished].
      rewrite app_nil_r, list_fmap_delete, write_requests_snoc,
        (frame_flag _ _ (frame_keeps _ _ Hfr)); simpl.
      split; [reflexivity|]. specialize (Heq I). split; lia.
  - (* VisibilityChange *)
    assert (one_channel INSERT None (set_hidden h (page s))) as Hch'
      by same_channel Hch.
    destruct (dispatch_handlers INSERT None
                VisitLog.handleVisibilityChange (log_task Counting)
                log_handler eq_refl (listeners (page s)) _ Hch')
      as [H1 [H2 [k H3]]].
    split; [|apply H2]. split; [exact H1|].
    exists (shapes ++ replicate k Counting). cbn [page inflight journal].
    rewrite H3, Hin, fmap_app, fmap_replicate, sum_list_with_app,
      (sum_list_with_replicate_zero log_owes k Counting eq_refl),
      (frame_flag _ _ H2).
    change (flag (set_hidden h (page s))) with (flag (page s)).
    rewrite Nat.add_0_r. auto.
  - (* PostgresChanges *)
    pose proof (deliver_frame VisitLog.callback ch (page s)
                  (log_callback_frame ch)) as Hfr.
    split; [|apply Hfr]. split; [exact (frame_one_channel _ _ _ _ Hfr Hch)|].
    exists shapes. cbn [page inflight journal].
    rewrite (frame_flag _ _ (frame_keeps _ _ Hfr)). auto.
  - (* Clock *)
    split; [|auto]. split; [same_channel Hch|].
    exists shapes. cbn [page inflight journal]. auto.
Qed.

Lemma log_sound_run es db :
  log_sound (run VisitLog.component VisitTable.exec es
               (db, fresh VisitLog.component)).2.
Proof.
  apply (run_invariant VisitLog.component VisitTable.exec
           (fun w => log_sound w.2)).
  - intros e [t s] Hs. apply (log_sound_feed e t s Hs).
  - apply log_sound_fresh.
Qed.

(** ** The table of the first migration *)

Lemma matching_update i v ts t :
  CounterTable.matching i (CounterTable.update i v ts t) =
  List.map (fun r => {| CounterTable.id := CounterTable.id r;
                        CounterTable.view_count := v;
                        CounterTable.updated_at := ts |})
           (CounterTable.matching i t).
Proof.
  unfold CounterTable.matching, CounterTable.update.
  induction t as [|r t IH]; simpl; [reflexivity|].
  destruct (String.eqb (CounterTable.id r) i) eqn:E; simpl; rewrite E, IH; reflexivity.
Qed.

Lemma single_update i v v' ts t :
  CounterTable.single i t = Some v ->
  CounterTable.single i (CounterTable.update i v' ts t) = Some v'.
Proof.
  unfold CounterTable.single. rewrite matching_update.
  destruct (CounterTable.matching i t) as [|r [|r' l]]; simpl; congruence.
Qed.

Lemma single_sentinel v : CounterTable.single VIEW_ID (sentinel v) = Some v.
Proof. reflexivity. Qed.

(** ** The guard flag *)

Lemma answered_ok_durable j : answered_ok j -> durable_writes j = write_requests j.
Proof.
  induction j as [|[q r] j IH] using rev_ind; intros Hok; [reflexivity|].
  unfold answered_ok in Hok. rewrite Forall_app in Hok. destruct Hok as [Hj Hr].
  inversion Hr as [|? ? Herr _]; subst. simpl in Herr.
  rewrite durable_writes_snoc, write_requests_snoc, (IH Hj).
  unfold durable; simpl. rewrite Herr. destruct (is_write q); reflexivity.
Qed.

Lemma flag_le_1 p : (flag p <= 1)%nat.
Proof. unfold flag. destruct (hasIncrementedRef p); lia. Qed.

Lemma guarded_settled {Shape} (task : Shape -> Task Page) owes clean shapes s :
  guarded task owes clean shapes s -> inflight s = [] -> clean (journal s) ->
  write_requests (journal s) = flag (page s).
Proof.
  intros [Hin [_ Heq]] Hnone Hclean. rewrite Hnone in Hin.
  symmetry in Hin. apply fmap_nil_inv in Hin. subst shapes.
  specialize (Heq Hclean). simpl in Heq. lia.
Qed.

(** Without the flag every run of the effect that is answered writes. *)
Lemma unguarded_loads k : forall t s v,
  CounterTable.single VIEW_ID t = Some v -> inflight s = [] ->
  let w := run ViewCounter.component CounterTable.exec (loads k) (t, s) in
  inflight w.2 = [] /\
  CounterTable.single VIEW_ID w.1 = Some (v + Z.of_nat k) /\
  durable_writes (journal w.2) = (durable_writes (journal s) + k)%nat.
Proof.
  induction k as [|k IH]; intros t s v Hv Hs.
  - simpl. rewrite Z.add_0_r, Nat.add_0_r. auto.
  - unfold loads. simpl replicate. simpl concat. fold (loads k).
    change (Mount :: Reply 0 true :: Reply 0 true :: loads k)
      with ([Mount; Reply 0 true; Reply 0 true] ++ loads k).
    rewrite run_app.
    set (w1 := run ViewCounter.component CounterTable.exec
                 [Mount; Reply 0 true; Reply 0 true] (t, s)).
    assert (inflight w1.2 = [] /\
            CounterTable.single VIEW_ID w1.1 = Some (v + 1) /\
            durable_writes (journal w1.2) = (durable_writes (journal s) + 1)%nat)
      as [H1 [H2 H3]].
    { subst w1. destruct s as [p fl j]. cbn [inflight] in Hs. subst fl.
      cbn -[CounterTable.single CounterTable.update VIEW_ID durable_writes].
      rewrite Hv. cbn -[CounterTable.single CounterTable.update VIEW_ID durable_writes].
      split; [reflexivity|]. split; [apply (single_update _ v); exact Hv|].
      rewrite !durable_writes_snoc. unfold durable; simpl. lia. }
    destruct w1 as [t1 s1]. cbn [fst snd] in *.
    destruct (IH t1 s1 (v + 1) H2 H1) as [H4 [H5 H6]].
    split; [exact H4|]. split; [rewrite H5; f_equal; lia | rewrite H6, H3; lia].
Qed.

(** C1, as amended: in the two components that keep [hasIncrementedRef]
    (parts 004 and 005) a call of the recorder sets the flag and a call
    with the flag set returns at once; whatever else happens to the
    session, the store is asked to write at most once; and a session that
    has recorded, has nothing pending and was never answered with an error
    has made exactly one durable write. *)
Theorem guard_flag_one_write :
  (forall p, hasIncrementedRef (CounterRow.incrementAndFetch p).1 = true) /\
  (forall p, hasIncrementedRef (VisitLog.recordViewAndFetch p).1 = true) /\
  (forall p, hasIncrementedRef p = true ->
     CounterRow.incrementAndFetch p = (p, Done) /\
     VisitLog.recordViewAndFetch p = (p, Done)) /\
  (forall es db,
     let s := (run CounterRow.component CounterTable.exec es
                 (db, fresh CounterRow.component)).2 in
     (write_requests (journal s) <= 1)%nat /\
     (hasIncrementedRef (page s) = true -> inflight s = [] ->
      answered_ok (journal s) -> durable_writes (journal s) = 1%nat)) /\
  (forall es db,
     let s := (run VisitLog.component VisitTable.exec es
                 (db, fresh VisitLog.component)).2 in
     (write_requests (journal s) <= 1)%nat /\
     (hasIncrementedRef (page s) = true -> inflight s = [] ->
      answered_ok (journal s) -> durable_writes (journal s) = 1%nat)).
Proof.
  split; [|split; [|split; [|split]]].
  - intros p. unfold CounterRow.incrementAndFetch.
    destruct (hasIncrementedRef p) eqn:E; [exact E | reflexivity].
  - intros p. unfold VisitLog.recordViewAndFetch.
    destruct (hasIncrementedRef p) eqn:E; [exact E | reflexivity].
  - intros p Hp. unfold CounterRow.incrementAndFetch, VisitLog.recordViewAndFetch.
    rewrite Hp. split; reflexivity.
  - intros es db s.
    destruct (row_sound_run es db) as [_ [shapes Hg]]. fold s in Hg.
    split.
    + destruct Hg as [_ [Hle _]]. pose proof (flag_le_1 (page s)). lia.
    + intros Hf Hnone Hok. rewrite (answered_ok_durable _ Hok).
      rewrite (guarded_settled _ _ _ _ _ Hg Hnone Hok). unfold flag.
      rewrite Hf. reflexivity.
  - intros es db s.
    destruct (log_sound_run es db) as [_ [shapes Hg]]. fold s in Hg.
    split.
    + destruct Hg as [_ [Hle _]]. pose proof (flag_le_1 (page s)). lia.
    + intros Hf Hnone Hok. rewrite (answered_ok_durable _ Hok).
      rewrite (guarded_settled _ _ _ _ _ Hg Hnone I). unfold flag.
      rewrite Hf. reflexivity.
Qed.

Lemma guard_flag_one_write_witness :
  durable_writes
    (journal (run CounterRow.component CounterTable.exec
                [Mount; Mount; Reply 0 true; Reply 0 true]
                (sentinel 41, fresh CounterRow.component)).2) = 1%nat /\
  durable_writes
    (journal (run VisitLog.component VisitTable.exec
                [Mount; Mount; Reply 0 true; Reply 0 true]
                ([], fresh VisitLog.component)).2) = 1%nat /\
  CounterRow.incrementAndFetch (CounterRow.incrementAndFetch blank).1
  = ((CounterRow.incrementAndFetch blank).1, Done).
Proof.
  destruct guard_flag_one_write as [_ [_ [Hnoop [Hrow Hlog]]]].
  split; [|split].
  - apply (Hrow [Mount; Mount; Reply 0 true; Reply 0 true] (sentinel 41)).
    + reflexivity.
    + reflexivity.
    + repeat constructor.
  - apply (Hlog [Mount; Mount; Reply 0 true; Reply 0 true] []).
    + reflexivity.
    + reflexivity.
    + repeat constructor.
  - apply (Hnoop (CounterRow.incrementAndFetch blank).1). reflexivity.
Defined.

(** C1, as stated, fails twice over.  src/components/ViewCounter.tsx has no
    flag: its effect run twice in one session, on a counter row at 41 and a
    store that answers, writes twice, whether the two runs overlap or follow
    each other.  And behind the flag of part 004 two calls make no durable
    write at all when the read is not answered. *)
Lemma unguarded_writes_twice :
  let overlapping := run ViewCounter.component CounterTable.exec
             [Mount; Mount; Reply 0 true; Reply 0 true; Reply 0 true; Reply 0 true]
             (sentinel 41, fresh ViewCounter.component) in
  let in_turn := run ViewCounter.component CounterTable.exec
             [Mount; Reply 0 true; Reply 0 true; Mount; Reply 0 true; Reply 0 true]
             (sentinel 41, fresh ViewCounter.component) in
  let unanswered := run CounterRow.component CounterTable.exec
             [Mount; Mount; Reply 0 false]
             (sentinel 41, fresh CounterRow.component) in
  (durable_writes (journal overlapping.2) = 2%nat /\
   inflight overlapping.2 = [] /\ overlapping.1 = sentinel 42) /\
  (durable_writes (journal in_turn.2) = 2%nat /\
   inflight in_turn.2 = [] /\ in_turn.1 = sentinel 43) /\
  (durable_writes (journal unanswered.2) = 0%nat /\
   inflight unanswered.2 = [] /\ unanswered.1 = sentinel 41).
Proof. repeat split. Qed.

(** ** The counter row *)

(** What one page load alone on the store leaves behind, for both
    components that keep the counter row. *)
Lemma row_visit ok t v :
  CounterTable.single VIEW_ID t = Some v ->
  let w := visit CounterRow.component CounterTable.exec ok t in
  inflight w.2 = [] /\
  CounterTable.single VIEW_ID w.1 = Some (if ok.1 && ok.2 then v + 1 else v).
Proof.
  intros Hv. destruct ok as [[|] [|]];
    cbn -[CounterTable.single CounterTable.update VIEW_ID]; rewrite ?Hv;
    cbn -[CounterTable.single CounterTable.update VIEW_ID];
    (split; [reflexivity|]);
    first [exact Hv | reflexivity | apply (single_update _ v); exact Hv].
Qed.

Lemma unguarded_visit ok t v :
  CounterTable.single VIEW_ID t = Some v ->
  let w := visit ViewCounter.component CounterTable.exec ok t in
  inflight w.2 = [] /\
  CounterTable.single VIEW_ID w.1 = Some (if ok.1 && ok.2 then v + 1 else v).
Proof.
  intros Hv. destruct ok as [[|] [|]];
    cbn -[CounterTable.single CounterTable.update VIEW_ID]; rewrite ?Hv;
    cbn -[CounterTable.single CounterTable.update VIEW_ID];
    (split; [reflexivity|]);
    first [exact Hv | reflexivity | apply (single_update _ v); exact Hv].
Qed.

Lemma visits_count {P} (C : Component P) oks :
  (forall ok t v, CounterTable.single VIEW_ID t = Some v ->
     CounterTable.single VIEW_ID (visit C CounterTable.exec ok t).1
     = Some (if ok.1 && ok.2 then v + 1 else v)) ->
  forall t v, CounterTable.single VIEW_ID t = Some v ->
    CounterTable.single VIEW_ID (visits C CounterTable.exec oks t)
    = Some (v + recorded oks).
Proof.
  intros Hvisit. unfold visits, recorded.
  induction oks as [|ok oks IH]; intros t v Hv; simpl.
  - rewrite Z.add_0_r. exact Hv.
  - rewrite (IH _ _ (Hvisit ok t v Hv)). f_equal.
    destruct (ok.1 && ok.2); simpl List.length; lia.
Qed.

Lemma recorded_all n : recorded (replicate n (true, true)) = Z.of_nat n.
Proof.
  unfold recorded. induction n as [|n IH]; [reflexivity|].
  simpl replicate. simpl List.filter. simpl List.length. lia.
Qed.

(** The premise of the next theorem matters: two page loads of part 004
    whose reads both come before either write leave 42 where 41 was. *)
Example counter_row_lost_update :
  CounterTable.single VIEW_ID
    (db (schedule CounterRow.component CounterTable.exec
           [(0, Mount); (1, Mount); (0, Reply 0 true); (1, Reply 0 true);
            (0, Reply 0 true); (1, Reply 0 true)]%nat
           (crowd CounterRow.component 2 (sentinel 41)))) = Some 42.
Proof. reflexivity. Qed.

(** C2: [n] page loads one after the other, every request answered, on a
    table whose counter row holds [v], leave [v + n] in the row; this holds
    for the guarded component of part 004 and for
    src/components/ViewCounter.tsx, and one such load adds exactly 1. *)
Theorem sequential_visits_add_up n t v :
  CounterTable.single VIEW_ID t = Some v ->
  CounterTable.single VIEW_ID
    (visits CounterRow.component CounterTable.exec (replicate n (true, true)) t)
  = Some (v + Z.of_nat n) /\
  CounterTable.single VIEW_ID
    (visits ViewCounter.component CounterTable.exec (replicate n (true, true)) t)
  = Some (v + Z.of_nat n) /\
  CounterTable.single VIEW_ID
    (visit CounterRow.component CounterTable.exec (true, true) t).1 = Some (v + 1) /\
  CounterTable.single VIEW_ID
    (visit ViewCounter.component CounterTable.exec (true, true) t).1 = Some (v + 1).
Proof.
  intros Hv. rewrite <- (recorded_all n).
  split; [|split; [|split]].
  - apply visits_count; [|exact Hv]. intros ok t' v' H. apply (row_visit ok t' v' H).
  - apply visits_count; [|exact Hv]. intros ok t' v' H. apply (unguarded_visit ok t' v' H).
  - apply (row_visit (true, true) t v Hv).
  - apply (unguarded_visit (true, true) t v Hv).
Qed.

Lemma sequential_visits_add_up_witness :
  CounterTable.single VIEW_ID
    (visits CounterRow.component CounterTable.exec (replicate 3 (true, true))
       (sentinel 41)) = Some (41 + Z.of_nat 3).
Proof.
  apply (sequential_visits_add_up 3 (sentinel 41) 41). reflexivity.
Defined.

(** ** The visit log *)

(** A step of any session, whatever it has pending, adds a row exactly
    when it journals a durable write. *)
Lemma log_feed_exact e t (s : Session Page) :
  let w := feed VisitLog.component VisitTable.exec e (t, s) in
  (List.length w.1 + durable_writes (journal s))%nat
  = (List.length t + durable_writes (journal w.2))%nat.
Proof.
  destruct e as [| |i reachable|h|ch|u]; try reflexivity.
  cbn [feed]. unfold reply. cbn [fst snd].
  destruct (inflight s !! i) as [[|q k]|]; try reflexivity.
  cbn [fst snd journal]. rewrite durable_writes_snoc. unfold durable.
  destruct reachable, q; simpl; rewrite ?length_app; simpl; lia.
Qed.

Lemma log_step_exact e (y : System Page VisitTable.Table) :
  let y' := step VisitLog.component VisitTable.exec e y in
  (List.length (db y') + total_durable (sessions y))%nat
  = (List.length (db y) + total_durable (sessions y'))%nat.
Proof.
  unfold step. destruct (sessions y !! e.1) as [s|] eqn:Hs; [|reflexivity].
  cbn [db sessions]. pose proof (log_feed_exact e.2 (db y) s) as Hf.
  pose proof (sum_list_with_insert (fun s => durable_writes (journal s))
                (sessions y) e.1 s
                (feed VisitLog.component VisitTable.exec e.2 (db y, s)).2 Hs) as Hi.
  unfold total_durable. cbv zeta in Hf. lia.
Qed.

Lemma log_schedule_exact es (y : System Page VisitTable.Table) :
  let y' := schedule VisitLog.component VisitTable.exec es y in
  (List.length (db y') + total_durable (sessions y))%nat
  = (List.length (db y) + total_durable (sessions y'))%nat.
Proof.
  revert y. induction es as [|e es IH]; intros y; [reflexivity|].
  simpl. pose proof (log_step_exact e y) as H1.
  pose proof (IH (step VisitLog.component VisitTable.exec e y)) as H2.
  cbv zeta in *. lia.
Qed.

Lemma log_schedule_sound es (y : System Page VisitTable.Table) :
  Forall log_sound (sessions y) ->
  let y' := schedule VisitLog.component VisitTable.exec es y in
  Forall log_sound (sessions y') /\
  List.length (sessions y') = List.length (sessions y).
Proof.
  intros Hy.
  apply (schedule_invariant VisitLog.component VisitTable.exec
           (fun y' => Forall log_sound (sessions y') /\
                      List.length (sessions y') = List.length (sessions y))).
  - intros e y' [Hall Hlen]. unfold step.
    destruct (sessions y' !! e.1) as [s|] eqn:Hs; [|auto].
    cbn [sessions]. split.
    + apply Forall_insert; [exact Hall|].
      apply (log_sound_feed e.2 (db y') s).
      exact (Forall_lookup_1 _ _ _ _ Hall Hs).
    + rewrite length_insert. exact Hlen.
  - auto.
Qed.

Lemma writes_durable j :
  Forall (fun e => is_write e.1 = true -> error e.2 = false) j ->
  durable_writes j = write_requests j.
Proof.
  induction j as [|[q r] j IH] using rev_ind; intros Hok; [reflexivity|].
  rewrite Forall_app in Hok. destruct Hok as [Hj Hr].
  inversion Hr as [|? ? Herr _]; subst. simpl in Herr.
  rewrite durable_writes_snoc, write_requests_snoc, (IH Hj).
  unfold durable; simpl. destruct (is_write q); [|reflexivity].
  rewrite (Herr eq_refl). reflexivity.
Qed.

Lemma settled_one_write s :
  log_sound s -> settled s -> durable_writes (journal s) = 1%nat.
Proof.
  intros [_ [shapes Hg]] [Hf [Hnone Hok]].
  rewrite (writes_durable _ Hok), (guarded_settled _ _ _ _ _ Hg Hnone I).
  unfold flag. rewrite Hf. reflexivity.
Qed.

Lemma total_durable_settled l :
  Forall log_sound l -> Forall settled l -> total_durable l = List.length l.
Proof.
  unfold total_durable. induction l as [|s l IH]; intros Hs Hd; [reflexivity|].
  inversion Hs; inversion Hd; subst. simpl.
  rewrite settled_one_write, IH by assumption. reflexivity.
Qed.

Lemma total_durable_fresh n :
  total_durable (replicate n (fresh VisitLog.component)) = 0%nat.
Proof. apply sum_list_with_replicate_zero. reflexivity. Qed.

(** A fetch of the count called on any session of part 005 and answered:
    the store is asked for the exact count and is not written, the page
    shows the number of rows, and what was pending before stays pending. *)
Lemma fetch_count_answered t (s : Session Page) :
  let w := reply VisitTable.exec (List.length (inflight s)) true
             (t, call VisitLog.fetchViewCount s) in
  w.1 = t /\ inflight w.2 = inflight s /\
  journal w.2 = journal s ++ [(SelectCountExact, counted (List.length t))] /\
  viewCount (page w.2) = Some (Z.of_nat (List.length t)).
Proof.
  cbv zeta. unfold reply, call, spawn, VisitLog.fetchViewCount, query.
  cbn [fst snd page inflight journal pending finished].
  rewrite list_lookup_middle by reflexivity.
  cbn [VisitTable.exec fst snd VisitLog.fetchViewCount_count counted count pending
       finished inflight page journal].
  rewrite delete_middle, !app_nil_r. repeat split.
Qed.

(** C3: on the visit log every durable write of any session, in any
    interleaving, is one more row; [n] page loads opened together and run to
    their end, in whatever order their steps are taken, leave the initial
    number of rows plus [n]; the fetch of the count, called on any session
    and answered, asks the store for the exact count and puts the number of
    rows on display, so after those [n] page loads the initial number plus
    [n]; and a count answered by the store to a fetch already pending is
    the number of rows as well. *)
Theorem visit_log_exact :
  (forall es (y : System Page VisitTable.Table),
     let y' := schedule VisitLog.component VisitTable.exec es y in
     (List.length (db y') + total_durable (sessions y))%nat
     = (List.length (db y) + total_durable (sessions y'))%nat) /\
  (forall n t es,
     let y' := schedule VisitLog.component VisitTable.exec es
                 (crowd VisitLog.component n t) in
     Forall settled (sessions y') ->
     List.length (db y') = (List.length t + n)%nat) /\
  (forall t (s : Session Page),
     let w := reply VisitTable.exec (List.length (inflight s)) true
                (t, call VisitLog.fetchViewCount s) in
     w.1 = t /\ inflight w.2 = inflight s /\
     journal w.2 = journal s ++ [(SelectCountExact, counted (List.length t))] /\
     viewCount (page w.2) = Some (Z.of_nat (List.length t))) /\
  (forall n t es (s : Session Page),
     let y' := schedule VisitLog.component VisitTable.exec es
                 (crowd VisitLog.component n t) in
     Forall settled (sessions y') ->
     viewCount (page (reply VisitTable.exec (List.length (inflight s)) true
                        (db y', call VisitLog.fetchViewCount s)).2)
     = Some (Z.of_nat (List.length t + n))) /\
  (forall i t (s : Session Page),
     inflight s !! i = Some (log_task Counting) ->
     viewCount (page (reply VisitTable.exec i true (t, s)).2)
     = Some (Z.of_nat (List.length t))).
Proof.
  assert (Hrows : forall n t es,
            let y' := schedule VisitLog.component VisitTable.exec es
                        (crowd VisitLog.component n t) in
            Forall settled (sessions y') ->
            List.length (db y') = (List.length t + n)%nat).
  { intros n t es y' Hsettled.
    pose proof (log_schedule_exact es (crowd VisitLog.component n t)) as Hex.
    destruct (log_schedule_sound es (crowd VisitLog.component n t)) as [Hs Hl].
    { apply Forall_replicate, log_sound_fresh. }
    fold y' in Hex, Hs, Hl. cbv zeta in Hex.
    rewrite (total_durable_settled _ Hs Hsettled), Hl in Hex.
    cbn [crowd db sessions] in Hex. rewrite total_durable_fresh, length_replicate in Hex.
    lia. }
  split; [exact log_schedule_exact|]. split; [exact Hrows|].
  split; [exact fetch_count_answered|]. split.
  - intros n t es s y' Hsettled.
    destruct (fetch_count_answered (db y') s) as (_ & _ & _ & Hshown).
    cbv zeta in Hshown. rewrite Hshown. do 2 f_equal. exact (Hrows n t es Hsettled).
  - intros i t s Hi. unfold reply. cbn [fst snd]. rewrite Hi. reflexivity.
Qed.

Lemma visit_log_exact_witness :
  let y' := schedule VisitLog.component VisitTable.exec
              [(0, Mount); (1, Mount); (1, Reply 0 true); (0, Reply 0 true);
               (0, Reply 0 true); (1, Reply 0 true)]%nat
              (crowd VisitLog.component 2 []) in
  List.length (db y') = (List.length (@nil VisitTable.Row) + 2)%nat /\
  viewCount (page (reply VisitTable.exec 0 true
                     (db y', call VisitLog.fetchViewCount (fresh VisitLog.component))).2)
  = Some 2.
Proof.
  intros y'.
  destruct visit_log_exact as (_ & Hrows & _ & Hshown & _).
  assert (Hsettled : Forall settled (sessions y')).
  { vm_compute. repeat constructor; intros; try reflexivity; discriminate. }
  split.
  - exact (Hrows 2%nat [] _ Hsettled).
  - exact (Hshown 2%nat [] _ (fresh VisitLog.component) Hsettled).
Defined.

(** ** Unknown and zero *)






(** ** The change feed *)

Lemma deliver_single callback ch c p :
  channels p = [c] -> receives ch c = true ->
  deliver callback ch p = callback ch p.
Proof. intros Hc Hr. unfold deliver. rewrite Hc. simpl. rewrite Hr. reflexivity. Qed.

Lemma subscribed_channel ev f p :
  one_channel ev f p -> channelRef p <> None ->
  exists c, channels p = [c] /\ event c = ev /\ filter_by c = f.
Proof.
  intros [Hc Hk] Hsome. destruct (channelRef p) as [c|] eqn:E; [|congruence].
  exists c. destruct (Hk c eq_refl) as [H1 H2]. auto.
Qed.

(** C5: in part 004, while the component holds a channel, an UPDATE of the
    counter row that the feed brings sets the displayed count to the
    [view_count] of the new row; no request is made, nothing becomes
    pending and the store is not touched. *)
Theorem update_event_verbatim es db ch :
  let w := run CounterRow.component CounterTable.exec es
             (db, fresh CounterRow.component) in
  channelRef (page w.2) <> None ->
  eventType ch = UPDATE -> new_id ch = VIEW_ID ->
  let w' := feed CounterRow.component CounterTable.exec (PostgresChanges ch) w in
  viewCount (page w'.2) = Some (new_view_count ch) /\
  log (page w'.2) = log (page w.2) /\
  inflight w'.2 = inflight w.2 /\ journal w'.2 = journal w.2 /\ w'.1 = w.1.
Proof.
  intros w Href Hev Hid w'.
  destruct (row_sound_run es db) as [Hch _]. fold w in Hch.
  destruct (subscribed_channel _ _ _ Hch Href) as [c [Hc [He Hf]]].
  assert (receives ch c = true) as Hr.
  { unfold receives. rewrite He, Hev, Hf, Hid. apply String.eqb_refl. }
  subst w'. session_step CounterRow.component.
  rewrite (deliver_single _ _ _ _ Hc Hr). repeat split.
Qed.

Lemma update_event_verbatim_witness :
  viewCount
    (page (feed CounterRow.component CounterTable.exec
             (PostgresChanges {| eventType := UPDATE; new_id := VIEW_ID;
                                 new_view_count := 42 |})
             (run CounterRow.component CounterTable.exec [Mount]
                (sentinel 41, fresh CounterRow.component))).2) = Some 42.
Proof.
  apply (update_event_verbatim [Mount] (sentinel 41)
           {| eventType := UPDATE; new_id := VIEW_ID; new_view_count := 42 |}).
  - discriminate.
  - reflexivity.
  - reflexivity.
Defined.

(** C6: in part 005, while the component holds a channel, an INSERT that
    the feed brings adds 1 to a known count and leaves an unknown count
    unknown. *)
Theorem insert_event_increments es db ch :
  let w := run VisitLog.component VisitTable.exec es
             (db, fresh VisitLog.component) in
  channelRef (page w.2) <> None ->
  eventType ch = INSERT ->
  let w' := feed VisitLog.component VisitTable.exec (PostgresChanges ch) w in
  viewCount (page w'.2) = match viewCount (page w.2) with
                          | Some prev => Some (prev + 1)
                          | None => None
                          end.
Proof.
  intros w Href Hev w'.
  destruct (log_sound_run es db) as [Hch _]. fold w in Hch.
  destruct (subscribed_channel _ _ _ Hch Href) as [c [Hc [He Hf]]].
  assert (receives ch c = true) as Hr.
  { unfold receives. rewrite He, Hev, Hf. reflexivity. }
  subst w'. session_step VisitLog.component.
  rewrite (deliver_single _ _ _ _ Hc Hr). reflexivity.
Qed.

Lemma insert_event_increments_witness :
  viewCount
    (page (feed VisitLog.component VisitTable.exec
             (PostgresChanges {| eventType := INSERT; new_id := "b";
                                 new_view_count := 0 |})
             (run VisitLog.component VisitTable.exec
                [Mount; Reply 0 true; Reply 0 true]
                ([], fresh VisitLog.component))).2) = Some (1 + 1).
Proof.
  apply (insert_event_increments [Mount; Reply 0 true; Reply 0 true] []
           {| eventType := INSERT; new_id := "b"; new_view_count := 0 |}).
  - discriminate.
  - reflexivity.
Defined.

(** ** One subscription *)

Lemma one_channel_at_most ev f p ch :
  one_channel ev f p ->
  (List.length (channels p) <= 1)%nat /\
  (List.length (List.filter (receives ch) (channels p)) <= 1)%nat.
Proof.
  intros [Hc _]. rewrite Hc. destruct (channelRef p) as [c|]; simpl.
  - split; [lia|]. destruct (receives ch c); simpl; lia.
  - split; lia.
Qed.

Lemma resubscribe_log ev f name p :
  let p1 := match channelRef p with Some c => removeChannel c p | None => p end in
  let channel := subscribe name ev f p1 in
  log (set_channelRef (Some channel.1) channel.2)
  = log p ++ match channelRef p with Some c => [Removed (chan c)] | None => [] end
          ++ [Subscribed (created p)].
Proof.
  destruct (channelRef p) as [c|]; simpl.
  - rewrite <- app_assoc. reflexivity.
  - reflexivity.
Qed.

(** C7: in parts 004 and 005, after any inputs the client holds the
    channel of [channelRef] and no other, so at most one, and a change of
    the feed reaches the callback at most once; [setupRealtimeChannel]
    called then removes the channel held, if any, before it subscribes, and
    leaves exactly the new channel. *)
Theorem one_subscription es ch :
  (forall db,
     let p := page (run CounterRow.component CounterTable.exec es
                      (db, fresh CounterRow.component)).2 in
     let p' := CounterRow.setupRealtimeChannel p in
     channels p = option_list (channelRef p) /\
     (List.length (channels p) <= 1)%nat /\
     (List.length (List.filter (receives ch) (channels p)) <= 1)%nat /\
     List.length (channels p') = 1%nat /\
     channels p' = option_list (channelRef p') /\
     log p' = log p ++ match channelRef p with
                       | Some c => [Removed (chan c)]
                       | None => []
                       end ++ [Subscribed (created p)]) /\
  (forall db,
     let p := page (run VisitLog.component VisitTable.exec es
                      (db, fresh VisitLog.component)).2 in
     let p' := VisitLog.setupRealtimeChannel p in
     channels p = option_list (channelRef p) /\
     (List.length (channels p) <= 1)%nat /\
     (List.length (List.filter (receives ch) (channels p)) <= 1)%nat /\
     List.length (channels p') = 1%nat /\
     channels p' = option_list (channelRef p') /\
     log p' = log p ++ match channelRef p with
                       | Some c => [Removed (chan c)]
                       | None => []
                       end ++ [Subscribed (created p)]).
Proof.
  split; intros db p p'.
  - destruct (row_sound_run es db) as [Hch _]. fold p in Hch.
    destruct (one_channel_at_most _ _ p ch Hch) as [H1 H2].
    destruct (resubscribe_one UPDATE (Some VIEW_ID) "profile-views-realtime" p
                (proj1 Hch)) as [_ [_ [H3 H4]]].
    fold (CounterRow.setupRealtimeChannel p) in H3, H4. fold p' in H3, H4.
    split; [exact (proj1 Hch)|]. split; [exact H1|]. split; [exact H2|].
    split; [rewrite H3; reflexivity|]. split; [rewrite H3, H4; reflexivity|].
    apply resubscribe_log.
  - destruct (log_sound_run es db) as [Hch _]. fold p in Hch.
    destruct (one_channel_at_most _ _ p ch Hch) as [H1 H2].
    destruct (resubscribe_one INSERT None "profile-views-realtime" p
                (proj1 Hch)) as [_ [_ [H3 H4]]].
    fold (VisitLog.setupRealtimeChannel p) in H3, H4. fold p' in H3, H4.
    split; [exact (proj1 Hch)|]. split; [exact H1|]. split; [exact H2|].
    split; [rewrite H3; reflexivity|]. split; [rewrite H3, H4; reflexivity|].
    apply resubscribe_log.
Qed.

(** ** Becoming visible again *)



(** ** Failures of the recorder *)

(** C9, as amended: in part 004 and in src/components/ViewCounter.tsx the
    recorder ends, with nothing pending, whatever the store answers.  When
    the read fails, or finds no single counter row, it asks for no write and
    leaves the store and the displayed count as they were.  When the read
    succeeds and the write fails the store is as it was, and the displayed
    count is the value read plus 1: the answer to the update is not looked
    at. *)
Theorem recorder_absorbs_failure t p :
  hasIncrementedRef p = false ->
  (forall answer,
     let w := reply CounterTable.exec 0 answer
                (reply CounterTable.exec 0 false
                   (t, call CounterRow.incrementAndFetch (session_of p))) in
     w.1 = t /\ viewCount (page w.2) = viewCount p /\ inflight w.2 = [] /\
     write_requests (journal w.2) = 0%nat) /\
  (forall answer,
     let w := reply CounterTable.exec 0 answer
                (reply CounterTable.exec 0 false
                   (t, call ViewCounter.incrementAndFetch (session_of p))) in
     w.1 = t /\ viewCount (page w.2) = viewCount p /\ inflight w.2 = [] /\
     write_requests (journal w.2) = 0%nat) /\
  (CounterTable.single VIEW_ID t = None ->
   forall reachable answer,
     let w := reply CounterTable.exec 0 answer
                (reply CounterTable.exec 0 reachable
                   (t, call CounterRow.incrementAndFetch (session_of p))) in
     w.1 = t /\ viewCount (page w.2) = viewCount p /\ inflight w.2 = [] /\
     write_requests (journal w.2) = 0%nat) /\
  (CounterTable.single VIEW_ID t = None ->
   forall reachable answer,
     let w := reply CounterTable.exec 0 answer
                (reply CounterTable.exec 0 reachable
                   (t, call ViewCounter.incrementAndFetch (session_of p))) in
     w.1 = t /\ viewCount (page w.2) = viewCount p /\ inflight w.2 = [] /\
     write_requests (journal w.2) = 0%nat) /\
  (forall v, CounterTable.single VIEW_ID t = Some v ->
     let w := reply CounterTable.exec 0 false
                (reply CounterTable.exec 0 true
                   (t, call CounterRow.incrementAndFetch (session_of p))) in
     w.1 = t /\ viewCount (page w.2) = Some (v + 1) /\ inflight w.2 = [] /\
     durable_writes (journal w.2) = 0%nat) /\
  (forall v, CounterTable.single VIEW_ID t = Some v ->
     let w := reply CounterTable.exec 0 false
                (reply CounterTable.exec 0 true
                   (t, call ViewCounter.incrementAndFetch (session_of p))) in
     w.1 = t /\ viewCount (page w.2) = Some (v + 1) /\ inflight w.2 = [] /\
     durable_writes (journal w.2) = 0%nat).
Proof.
  intros Hf.
  assert (call CounterRow.incrementAndFetch (session_of p)
          = call ViewCounter.incrementAndFetch
              (session_of (set_hasIncrementedRef true p))) as Hcall.
  { unfold call, session_of, CounterRow.incrementAndFetch. cbn [page].
    rewrite Hf. reflexivity. }
  rewrite Hcall.
  split; [|split; [|split; [|split; [|split]]]].
  - intros answer. repeat split.
  - intros answer. repeat split.
  - intros Hnone [|] answer; cbn -[CounterTable.single VIEW_ID];
      rewrite ?Hnone; repeat split.
  - intros Hnone [|] answer; cbn -[CounterTable.single VIEW_ID];
      rewrite ?Hnone; repeat split.
  - intros v Hv. cbn -[CounterTable.single VIEW_ID]. rewrite Hv.
    cbn -[CounterTable.single VIEW_ID]. repeat split.
  - intros v Hv. cbn -[CounterTable.single VIEW_ID]. rewrite Hv.
    cbn -[CounterTable.single VIEW_ID]. repeat split.
Qed.

Lemma recorder_absorbs_failure_witness :
  (let w := reply CounterTable.exec 0 false
              (reply CounterTable.exec 0 true
                 (sentinel 41, call CounterRow.incrementAndFetch (session_of blank))) in
   w.1 = sentinel 41 /\ viewCount (page w.2) = Some (41 + 1) /\ inflight w.2 = [] /\
   durable_writes (journal w.2) = 0%nat) /\
  (let w := reply CounterTable.exec 0 true
              (reply CounterTable.exec 0 true
                 ([], call CounterRow.incrementAndFetch (session_of blank))) in
   w.1 = [] /\ viewCount (page w.2) = viewCount blank /\ inflight w.2 = [] /\
   write_requests (journal w.2) = 0%nat).
Proof.
  destruct (recorder_absorbs_failure (sentinel 41) blank eq_refl)
    as [_ [_ [_ [_ [Hwrite _]]]]].
  destruct (recorder_absorbs_failure [] blank eq_refl)
    as [_ [_ [Hmissing _]]].
  split.
  - apply (Hwrite 41). reflexivity.
  - apply (Hmissing eq_refl true true).
Defined.

(** C9, as stated, fails when the write fails: the store still holds 41 and
    no write was durable, yet the count on display went from unknown to 42. *)
Lemma failed_write_is_displayed :
  let w := run CounterRow.component CounterTable.exec
             [Mount; Reply 0 true; Reply 0 false]
             (sentinel 41, fresh CounterRow.component) in
  viewCount (page (fresh CounterRow.component)) = None /\
  viewCount (page w.2) = Some 42 /\
  w.1 = sentinel 41 /\ durable_writes (journal w.2) = 0%nat.
Proof. repeat split. Qed.

(** ** A known count stays known *)

Lemma row_known_run es w :
  row_sound w.2 -> viewCount (page w.2) <> None ->
  viewCount (page (run CounterRow.component CounterTable.exec es w).2) <> None.
Proof.
  intros Hs Hk.
  apply (run_invariant CounterRow.component CounterTable.exec
           (fun w => row_sound w.2 /\ viewCount (page w.2) <> None));
    [|split; assumption].
  intros e [t s] [Hs' Hk']. destruct (row_sound_feed e t s Hs') as [H1 H2].
  split; [exact H1 | exact (H2 Hk')].
Qed.

Lemma log_known_run es w :
  log_sound w.2 -> viewCount (page w.2) <> None ->
  viewCount (page (run VisitLog.component VisitTable.exec es w).2) <> None.
Proof.
  intros Hs Hk.
  apply (run_invariant VisitLog.component VisitTable.exec
           (fun w => log_sound w.2 /\ viewCount (page w.2) <> None));
    [|split; assumption].
  intros e [t s] [Hs' Hk']. destruct (log_sound_feed e t s Hs') as [H1 H2].
  split; [exact H1 | exact (H2 Hk')].
Qed.

(** C10: in parts 004 and 005, once a session displays a count, no later
    input of any kind makes it unknown again; a fetch that fails leaves the
    page as it is, and the callback of part 005 keeps an unknown count
    unknown and turns a known [n] into [n + 1]. *)
Theorem known_stays_known es1 es2 :
  (forall db,
     let w := run CounterRow.component CounterTable.exec es1
                (db, fresh CounterRow.component) in
     viewCount (page w.2) <> None ->
     viewCount (page (run CounterRow.component CounterTable.exec es2 w).2) <> None) /\
  (forall db,
     let w := run VisitLog.component VisitTable.exec es1
                (db, fresh VisitLog.component) in
     viewCount (page w.2) <> None ->
     viewCount (page (run VisitLog.component VisitTable.exec es2 w).2) <> None) /\
  (forall p, (CounterRow.fetchViewCount_data failure p).1 = p) /\
  (forall p, (VisitLog.fetchViewCount_count failure p).1 = p) /\
  (forall ch p, viewCount (VisitLog.callback ch p)
                = match viewCount p with
                  | Some n => Some (n + 1)
                  | None => None
                  end).
Proof.
  split; [|split; [|repeat split]].
  - intros db w Hk. apply row_known_run; [apply row_sound_run | exact Hk].
  - intros db w Hk. apply log_known_run; [apply log_sound_run | exact Hk].
Qed.

Lemma known_stays_known_witness :
  viewCount
    (page (run VisitLog.component VisitTable.exec
             [VisibilityChange true; VisibilityChange false; Reply 0 false; Unmount]
             (run VisitLog.component VisitTable.exec
                [Mount; Reply 0 true; Reply 0 true]
                ([], fresh VisitLog.component))).2) <> None.
Proof.
  destruct (known_stays_known [Mount; Reply 0 true; Reply 0 true]
              [VisibilityChange true; VisibilityChange false; Reply 0 false; Unmount])
    as [_ [H _]].
  apply (H []). discriminate.
Defined.


(** * Beyond the claims *)

(** ** Sessions that keep their invariant *)

Lemma row_sound_from es w :
  row_sound w.2 -> row_sound (run CounterRow.component CounterTable.exec es w).2.
Proof.
  apply (run_invariant CounterRow.component CounterTable.exec
           (fun w => row_sound w.2)).
  intros e [t s] Hs. apply (row_sound_feed e t s Hs).
Qed.

Lemma log_sound_from es w :
  log_sound w.2 -> log_sound (run VisitLog.component VisitTable.exec es w).2.
Proof.
  apply (run_invariant VisitLog.component VisitTable.exec
           (fun w => log_sound w.2)).
  intros e [t s] Hs. apply (log_sound_feed e t s Hs).
Qed.

Lemma deliver_none callback ch p :
  List.filter (receives ch) (channels p) = [] -> deliver callback ch p = p.
Proof. intros H. unfold deliver. rewrite H. reflexivity. Qed.

Lemma eqb_VIEW_ID_false i : i <> VIEW_ID -> String.eqb i VIEW_ID = false.
Proof. intros H. apply String.eqb_neq. exact H. Qed.

(** ** Tearing down *)

(** After the cleanup of the effect the client holds no channel and the ref
    is empty, whatever the session did before, and a change that the feed
    brings afterwards leaves the page as it is. *)
Theorem cleanup_ends_delivery es ch :
  (forall db,
     let w := run CounterRow.component CounterTable.exec (es ++ [Unmount])
                (db, fresh CounterRow.component) in
     channels (page w.2) = [] /\ channelRef (page w.2) = None /\
     page (feed CounterRow.component CounterTable.exec (PostgresChanges ch) w).2
     = page w.2) /\
  (forall db,
     let w := run VisitLog.component VisitTable.exec (es ++ [Unmount])
                (db, fresh VisitLog.component) in
     channels (page w.2) = [] /\ channelRef (page w.2) = None /\
     page (feed VisitLog.component VisitTable.exec (PostgresChanges ch) w).2
     = page w.2).
Proof.
  split; intros db w; subst w; rewrite run_app.
  - destruct (row_sound_run es db) as [[Hc _] _].
    set (w0 := run CounterRow.component CounterTable.exec es
                 (db, fresh CounterRow.component)) in *.
    destruct (unsubscribe_none UPDATE (Some VIEW_ID) (page w0.2) Hc)
      as [_ [_ [H1 H2]]].
    change (run CounterRow.component CounterTable.exec [Unmount] w0)
      with (w0.1, on_page CounterRow.useEffect_cleanup w0.2).
    session_step CounterRow.component.
    split; [exact H1|]. split; [exact H2|].
    apply deliver_none. unfold CounterRow.useEffect_cleanup. rewrite H1.
    reflexivity.
  - destruct (log_sound_run es db) as [[Hc _] _].
    set (w0 := run VisitLog.component VisitTable.exec es
                 (db, fresh VisitLog.component)) in *.
    destruct (unsubscribe_none INSERT None (page w0.2) Hc)
      as [_ [_ [H1 H2]]].
    change (run VisitLog.component VisitTable.exec [Unmount] w0)
      with (w0.1, on_page VisitLog.useEffect_cleanup w0.2).
    session_step VisitLog.component.
    split; [exact H1|]. split; [exact H2|].
    apply deliver_none. unfold VisitLog.useEffect_cleanup. rewrite H1.
    reflexivity.
Qed.

(** ** What the subscription lets through *)

Lemma held_channel_ignores ev f ch p :
  one_channel ev f p ->
  (forall c, event c = ev -> filter_by c = f -> receives ch c = false) ->
  List.filter (receives ch) (channels p) = [].
Proof.
  intros [Hc Hk] Hno. rewrite Hc. destruct (channelRef p) as [c|]; [|reflexivity].
  destruct (Hk c eq_refl) as [He Hf]. simpl. rewrite (Hno c He Hf). reflexivity.
Qed.

(** The channel of part 004 lets through nothing but an UPDATE of the
    counter row, and the channel of part 005 nothing but an INSERT: any
    other change leaves the page as it is, whatever the session did
    before. *)
Theorem other_changes_ignored es ch :
  (forall db,
     let w := run CounterRow.component CounterTable.exec es
                (db, fresh CounterRow.component) in
     ~ counter_update ch ->
     page (feed CounterRow.component CounterTable.exec (PostgresChanges ch) w).2
     = page w.2) /\
  (forall db,
     let w := run VisitLog.component VisitTable.exec es
                (db, fresh VisitLog.component) in
     eventType ch <> INSERT ->
     page (feed VisitLog.component VisitTable.exec (PostgresChanges ch) w).2
     = page w.2).
Proof.
  split; intros db w Hch.
  - destruct (row_sound_run es db) as [Hone _]. fold w in Hone.
    session_step CounterRow.component. apply deliver_none.
    apply (held_channel_ignores _ _ _ _ Hone). intros c He Hf.
    unfold receives. rewrite He, Hf.
    destruct (eventType ch) eqn:Hev; try reflexivity.
    apply eqb_VIEW_ID_false. intros Hid. apply Hch. split; assumption.
  - destruct (log_sound_run es db) as [Hone _]. fold w in Hone.
    session_step VisitLog.component. apply deliver_none.
    apply (held_channel_ignores _ _ _ _ Hone). intros c He Hf.
    unfold receives. rewrite He, Hf.
    destruct (eventType ch); try reflexivity. congruence.
Qed.

Lemma other_changes_ignored_witness :
  let w := run CounterRow.component CounterTable.exec [Mount; Reply 0 true; Reply 0 true]
             (sentinel 41, fresh CounterRow.component) in
  viewCount
    (page (feed CounterRow.component CounterTable.exec
             (PostgresChanges {| eventType := UPDATE; new_id := "another row";
                                 new_view_count := 7 |}) w).2) = Some 42.
Proof.
  pose proof (proj1 (other_changes_ignored [Mount; Reply 0 true; Reply 0 true]
                {| eventType := UPDATE; new_id := "another row";
                   new_view_count := 7 |}) (sentinel 41)) as H.
  cbv zeta in H |- *. rewrite H; [reflexivity|].
  intros [_ Hid]. discriminate Hid.
Defined.

(** ** Runs of events *)

Lemma run_cons {P Table} (C : Component P)
    (exec : bool -> Request -> Table -> Table * Response) e es w :
  run C exec (e :: es) w = run C exec es (feed C exec e w).
Proof. reflexivity. Qed.

Lemma log_event t s ch :
  log_sound s -> channelRef (page s) <> None -> eventType ch = INSERT ->
  feed VisitLog.component VisitTable.exec (PostgresChanges ch) (t, s)
  = (t, on_page (VisitLog.callback ch) s).
Proof.
  intros [Hone _] Href Hev.
  destruct (subscribed_channel _ _ _ Hone Href) as [c [Hc [He Hf]]].
  session_step VisitLog.component. unfold on_page. f_equal. f_equal.
  apply (deliver_single _ _ c); [exact Hc|].
  unfold receives. rewrite He, Hev, Hf. reflexivity.
Qed.

Lemma row_event t s ch :
  row_sound s -> channelRef (page s) <> None -> counter_update ch ->
  feed CounterRow.component CounterTable.exec (PostgresChanges ch) (t, s)
  = (t, on_page (CounterRow.callback ch) s).
Proof.
  intros [Hone _] Href [Hev Hid].
  destruct (subscribed_channel _ _ _ Hone Href) as [c [Hc [He Hf]]].
  session_step CounterRow.component. unfold on_page. f_equal. f_equal.
  apply (deliver_single _ _ c); [exact Hc|].
  unfold receives. rewrite He, Hev, Hf, Hid. apply String.eqb_refl.
Qed.

Lemma log_events chs : forall t s,
  log_sound s -> channelRef (page s) <> None ->
  Forall (fun ch => eventType ch = INSERT) chs ->
  let w := run VisitLog.component VisitTable.exec (PostgresChanges <$> chs) (t, s) in
  w.1 = t /\ inflight w.2 = inflight s /\ journal w.2 = journal s /\
  viewCount (page w.2) = match viewCount (page s) with
                         | Some n => Some (n + Z.of_nat (List.length chs))
                         | None => None
                         end.
Proof.
  induction chs as [|ch chs IH]; intros t s Hs Href Hall.
  - simpl. destruct (viewCount (page s)); [rewrite Z.add_0_r|]; auto.
  - inversion Hall as [|? ? Hev Hrest]; subst.
    rewrite fmap_cons, run_cons, (log_event t s ch Hs Href Hev).
    assert (log_sound (on_page (VisitLog.callback ch) s)) as Hs'.
    { pose proof (log_sound_feed (PostgresChanges ch) t s Hs) as [H _].
      rewrite (log_event t s ch Hs Href Hev) in H. exact H. }
    destruct (IH t (on_page (VisitLog.callback ch) s) Hs' Href Hrest)
      as [H1 [H2 [H3 H4]]].
    split; [exact H1|]. split; [exact H2|]. split; [exact H3|].
    rewrite H4. cbn [on_page page VisitLog.callback setViewCount viewCount].
    destruct (viewCount (page s)); [|reflexivity].
    f_equal. cbn [List.length]. lia.
Qed.

(** In part 005, while the component holds a channel, every INSERT that
    the feed brings adds 1 to a known count: [k] of them add [k], whatever
    the table holds, and make no request; an unknown count stays unknown. *)
Theorem insert_events_accumulate es db chs :
  let w := run VisitLog.component VisitTable.exec es
             (db, fresh VisitLog.component) in
  channelRef (page w.2) <> None ->
  Forall (fun ch => eventType ch = INSERT) chs ->
  let w' := run VisitLog.component VisitTable.exec (PostgresChanges <$> chs) w in
  w'.1 = w.1 /\ inflight w'.2 = inflight w.2 /\ journal w'.2 = journal w.2 /\
  viewCount (page w'.2) = match viewCount (page w.2) with
                          | Some n => Some (n + Z.of_nat (List.length chs))
                          | None => None
                          end.
Proof.
  intros w Href Hall. pose proof (log_sound_run es db) as Hs. fold w in Hs.
  destruct w as [t s]. apply (log_events chs t s Hs Href Hall).
Qed.

Lemma insert_events_accumulate_witness :
  let ins := {| eventType := INSERT; new_id := "row"; new_view_count := 0 |} in
  let w := run VisitLog.component VisitTable.exec [Mount; Reply 0 true; Reply 0 true]
             ([], fresh VisitLog.component) in
  let w' := run VisitLog.component VisitTable.exec
              (PostgresChanges <$> [ins; ins; ins]) w in
  List.length w'.1 = 1%nat /\ viewCount (page w'.2) = Some 4.
Proof.
  intros ins w w'.
  destruct (insert_events_accumulate [Mount; Reply 0 true; Reply 0 true] []
              [ins; ins; ins]) as [H1 [_ [_ H4]]].
  - discriminate.
  - repeat constructor.
  - split; [reflexivity | exact H4].
Defined.

Lemma row_events chs : forall t s,
  row_sound s -> channelRef (page s) <> None ->
  Forall counter_update chs ->
  let w := run CounterRow.component CounterTable.exec (PostgresChanges <$> chs) (t, s) in
  w.1 = t /\ inflight w.2 = inflight s /\ journal w.2 = journal s /\
  viewCount (page w.2) = match last chs with
                         | Some ch => Some (new_view_count ch)
                         | None => viewCount (page s)
                         end.
Proof.
  induction chs as [|ch chs IH]; intros t s Hs Href Hall.
  - simpl. auto.
  - inversion Hall as [|? ? Hev Hrest]; subst.
    rewrite fmap_cons, run_cons, (row_event t s ch Hs Href Hev).
    assert (row_sound (on_page (CounterRow.callback ch) s)) as Hs'.
    { pose proof (row_sound_feed (PostgresChanges ch) t s Hs) as [H _].
      rewrite (row_event t s ch Hs Href Hev) in H. exact H. }
    destruct (IH t (on_page (CounterRow.callback ch) s) Hs' Href Hrest)
      as [H1 [H2 [H3 H4]]].
    split; [exact H1|]. split; [exact H2|]. split; [exact H3|].
    rewrite H4. destruct chs as [|ch' chs']; [reflexivity|].
    rewrite last_cons_cons.
    destruct (last (ch' :: chs')) eqn:E; [reflexivity|].
    apply last_None in E. discriminate E.
Qed.

(** In part 004, while the component holds a channel, the count on display
    after a run of UPDATE events of the counter row is the [view_count] of
    the last one, be it lower than what was shown before; no request is
    made. *)
Theorem last_update_event_wins es db chs :
  let w := run CounterRow.component CounterTable.exec es
             (db, fresh CounterRow.component) in
  channelRef (page w.2) <> None ->
  Forall counter_update chs ->
  let w' := run CounterRow.component CounterTable.exec (PostgresChanges <$> chs) w in
  w'.1 = w.1 /\ inflight w'.2 = inflight w.2 /\ journal w'.2 = journal w.2 /\
  viewCount (page w'.2) = match last chs with
                          | Some ch => Some (new_view_count ch)
                          | None => viewCount (page w.2)
                          end.
Proof.
  intros w Href Hall. pose proof (row_sound_run es db) as Hs. fold w in Hs.
  destruct w as [t s]. apply (row_events chs t s Hs Href Hall).
Qed.

Lemma last_update_event_wins_witness :
  let up v := {| eventType := UPDATE; new_id := VIEW_ID; new_view_count := v |} in
  let w := run CounterRow.component CounterTable.exec [Mount; Reply 0 true; Reply 0 true]
             (sentinel 41, fresh CounterRow.component) in
  viewCount (page (run CounterRow.component CounterTable.exec
                     (PostgresChanges <$> [up 44; up 43]) w).2) = Some 43.
Proof.
  intros up w.
  destruct (last_update_event_wins [Mount; Reply 0 true; Reply 0 true] (sentinel 41)
              [up 44; up 43]) as [_ [_ [_ H4]]].
  - discriminate.
  - repeat constructor.
  - exact H4.
Defined.

(** ** One page load of part 005 *)

(** A page load of part 005 alone on the store, by the outcomes of its two
    requests: the insert adds one row when it is answered; the count is
    asked for whether or not the insert was, and when it is answered the
    page shows the number of rows then in the table; nothing stays
    pending. *)
Theorem visit_log_page_load ok t :
  let w := visit VisitLog.component VisitTable.exec ok t in
  inflight w.2 = [] /\
  w.1 = (if ok.1 then t ++ [{| VisitTable.id := List.length t |}] else t) /\
  durable_writes (journal w.2) = (if ok.1 then 1 else 0)%nat /\
  viewCount (page w.2)
  = (if ok.2 then Some (Z.of_nat (List.length w.1)) else None).
Proof. destruct ok as [[|] [|]]; repeat split. Qed.

(** ** Turning visible again brings the display back to the store *)

(** In parts 004 and 005, on a session with the one handler of a mounted
    component, once the page has turned visible and the fetch it starts is
    answered, the page shows what the store holds (the counter row's
    [view_count], the number of rows), whatever it showed before; the store
    is not written; what was pending stays pending. *)
Theorem visible_again_shows_store (s : Session Page) :
  listeners (page s) = 1%nat ->
  (forall t v,
     CounterTable.single VIEW_ID t = Some v ->
     let w := run CounterRow.component CounterTable.exec
                [VisibilityChange false; Reply (List.length (inflight s)) true] (t, s) in
     viewCount (page w.2) = Some v /\ w.1 = t /\ inflight w.2 = inflight s) /\
  (forall t,
     let w := run VisitLog.component VisitTable.exec
                [VisibilityChange false; Reply (List.length (inflight s)) true] (t, s) in
     viewCount (page w.2) = Some (Z.of_nat (List.length t)) /\ w.1 = t /\
     inflight w.2 = inflight s).
Proof.
  intros Hl. split.
  - intros t v Hv w. subst w.
    rewrite !run_cons. cbn [run foldl].
    session_step CounterRow.component. rewrite Hl.
    cbn [dispatch CounterRow.handleVisibilityChange hidden set_hidden fst snd
         CounterRow.fetchViewCount query pending finished].
    unfold reply. cbn [fst snd inflight page journal].
    rewrite app_nil_r, list_lookup_middle by reflexivity.
    cbn [CounterTable.exec]. rewrite Hv.
    cbn [fst snd CounterRow.fetchViewCount_data found data pending finished
         viewCount setViewCount].
    rewrite app_nil_r, delete_middle. repeat split.
    cbn [inflight]. apply app_nil_r.
  - intros t w. subst w.
    rewrite !run_cons. cbn [run foldl].
    session_step VisitLog.component. rewrite Hl.
    cbn [dispatch VisitLog.handleVisibilityChange hidden set_hidden fst snd
         VisitLog.fetchViewCount query pending finished].
    unfold reply. cbn [fst snd inflight page journal].
    rewrite app_nil_r, list_lookup_middle by reflexivity.
    cbn [VisitTable.exec fst snd VisitLog.fetchViewCount_count counted count
         pending finished viewCount setViewCount].
    rewrite app_nil_r, delete_middle. repeat split.
    cbn [inflight]. apply app_nil_r.
Qed.

Lemma visible_again_shows_store_witness :
  let w1 := run CounterRow.component CounterTable.exec
              [Mount; Reply 0 true; Reply 0 false]
              (sentinel 41, fresh CounterRow.component) in
  let w2 := run CounterRow.component CounterTable.exec
              [VisibilityChange false; Reply (List.length (inflight w1.2)) true]
              (sentinel 41, w1.2) in
  viewCount (page w1.2) = Some 42 /\ viewCount (page w2.2) = Some 41.
Proof.
  intros w1 w2. split; [reflexivity|].
  destruct (visible_again_shows_store w1.2 eq_refl) as [H _].
  apply (H (sentinel 41) 41 eq_refl).
Defined.

(** ** Overlapping page loads on the counter row *)

(** Two page loads on a counter row at [v] whose reads are both answered
    before either write: both write [v + 1], both writes are durable, both
    pages show [v + 1], and the row ends at [v + 1]; so it is in part 004
    and in src/components/ViewCounter.tsx. *)
Theorem overlapping_loads_count_once t v :
  CounterTable.single VIEW_ID t = Some v ->
  let es := [(0, Mount); (1, Mount); (0, Reply 0 true); (1, Reply 0 true);
             (0, Reply 0 true); (1, Reply 0 true)]%nat in
  (let y := schedule CounterRow.component CounterTable.exec es
              (crowd CounterRow.component 2 t) in
   CounterTable.single VIEW_ID (db y) = Some (v + 1) /\
   total_durable (sessions y) = 2%nat /\
   Forall (fun s => viewCount (page s) = Some (v + 1) /\ inflight s = [])
          (sessions y)) /\
  (let y := schedule ViewCounter.component CounterTable.exec es
              (crowd ViewCounter.component 2 t) in
   CounterTable.single VIEW_ID (db y) = Some (v + 1) /\
   total_durable (sessions y) = 2%nat /\
   Forall (fun s => viewCount (page s) = Some (v + 1) /\ inflight s = [])
          (sessions y)).
Proof.
  intros Hv es. subst es. split.
  - cbn -[CounterTable.single CounterTable.update VIEW_ID]. rewrite Hv.
    cbn -[CounterTable.single CounterTable.update VIEW_ID].
    split; [|split; [reflexivity | repeat constructor]].
    apply (single_update _ (v + 1)), (single_update _ v), Hv.
  - cbn -[CounterTable.single CounterTable.update VIEW_ID]. rewrite Hv.
    cbn -[CounterTable.single CounterTable.update VIEW_ID].
    split; [|split; [reflexivity | repeat constructor]].
    apply (single_update _ (v + 1)), (single_update _ v), Hv.
Qed.

Lemma overlapping_loads_count_once_witness :
  CounterTable.single VIEW_ID
    (db (schedule ViewCounter.component CounterTable.exec
           [(0, Mount); (1, Mount); (0, Reply 0 true); (1, Reply 0 true);
            (0, Reply 0 true); (1, Reply 0 true)]%nat
           (crowd ViewCounter.component 2 (sentinel 41)))) = Some (41 + 1).
Proof.
  destruct (overlapping_loads_count_once (sentinel 41) 41 eq_refl) as [_ [H _]].
  exact H.
Defined.

(** ** What a component asks of a store, whichever it is *)

Section AnyStore.
Context {Table : Type}.
Variable exec : bool -> Request -> Table -> Table * Response.

(** A step leaves the table alone or answers one pending request. *)
Lemma feed_table {P} (C : Component P) e t (s : Session P) :
  (feed C exec e (t, s)).1 = t \/
  exists i reachable q k,
    e = Reply i reachable /\ inflight s !! i = Some (Await q k) /\
    (feed C exec e (t, s)).1 = (exec reachable q t).1 /\
    journal (feed C exec e (t, s)).2 = journal s ++ [(q, (exec reachable q t).2)].
Proof.
  destruct e as [| |i reachable|h|ch|u]; try (left; reflexivity).
  cbn [feed]. unfold reply. cbn [fst snd].
  destruct (inflight s !! i) as [[|q k]|] eqn:Hi; try (left; reflexivity).
  right. exists i, reachable, q, k.
  split; [reflexivity|]. split; [exact Hi|]. split; reflexivity.
Qed.

Lemma feed_journal {P} (C : Component P) e t (s : Session P) :
  journal (feed C exec e (t, s)).2 = journal s \/
  exists i reachable q k,
    e = Reply i reachable /\ inflight s !! i = Some (Await q k) /\
    journal (feed C exec e (t, s)).2 = journal s ++ [(q, (exec reachable q t).2)].
Proof.
  destruct e as [| |i reachable|h|ch|u]; try (left; reflexivity).
  cbn [feed]. unfold reply. cbn [fst snd].
  destruct (inflight s !! i) as [[|q k]|] eqn:Hi; try (left; reflexivity).
  right. exists i, reachable, q, k.
  split; [reflexivity|]. split; [exact Hi|]. reflexivity.
Qed.

Lemma plain_shaped_feed e t s :
  shaped plain_task s ->
  shaped plain_task (feed ViewCounter.component exec e (t, s)).2.
Proof.
  intros [shapes Hin].
  destruct e as [| |i reachable|h|ch|u]; session_step ViewCounter.component.
  - exists (shapes ++ [PlainReading]). cbn [inflight].
    rewrite Hin, fmap_app. reflexivity.
  - exists shapes. exact Hin.
  - unfold reply; cbn [fst snd]. rewrite Hin, list_lookup_fmap.
    destruct (shapes !! i) as [sh|] eqn:Hi; cbn [fmap option_fmap option_map];
      [|exists shapes; exact Hin].
    destruct sh as [|n u]; cbn [plain_task inflight].
    + unfold ViewCounter.incrementAndFetch_read.
      destruct (data (exec reachable (SelectViewCount VIEW_ID) t).2) as [v|];
        cbn [fst snd query pending finished].
      * exists (delete i shapes ++ [PlainWriting (v + 1) (now (page s))]).
        rewrite fmap_app, list_fmap_delete. reflexivity.
      * exists (delete i shapes). rewrite app_nil_r, list_fmap_delete. reflexivity.
    + exists (delete i shapes). cbn [ViewCounter.incrementAndFetch_update snd
        pending finished]. rewrite app_nil_r, list_fmap_delete. reflexivity.
  - exists shapes. cbn [inflight]. rewrite app_nil_r. exact Hin.
  - exists shapes. exact Hin.
  - exists shapes. exact Hin.
Qed.

Lemma row_shaped_feed e t s :
  shaped row_task s ->
  shaped row_task (feed CounterRow.component exec e (t, s)).2.
Proof.
  intros [shapes Hin].
  destruct e as [| |i reachable|h|ch|u]; session_step CounterRow.component.
  - unfold CounterRow.useEffect, CounterRow.incrementAndFetch.
    destruct (hasIncrementedRef (page s)); cbn [fst snd query pending finished inflight].
    + exists shapes. rewrite app_nil_r. exact Hin.
    + exists (shapes ++ [Reading]). rewrite Hin, fmap_app. reflexivity.
  - exists shapes. exact Hin.
  - unfold reply; cbn [fst snd]. rewrite Hin, list_lookup_fmap.
    destruct (shapes !! i) as [sh|] eqn:Hi; cbn [fmap option_fmap option_map];
      [|exists shapes; exact Hin].
    destruct sh as [|n u|]; cbn [row_task inflight].
    + unfold CounterRow.incrementAndFetch_read.
      destruct (data (exec reachable (SelectViewCount VIEW_ID) t).2) as [v|];
        cbn [fst snd query pending finished].
      * exists (delete i shapes ++ [Writing (v + 1) (now (page s))]).
        rewrite fmap_app, list_fmap_delete. reflexivity.
      * exists (delete i shapes). rewrite app_nil_r, list_fmap_delete. reflexivity.
    + exists (delete i shapes). cbn [CounterRow.incrementAndFetch_update snd
        pending finished]. rewrite app_nil_r, list_fmap_delete. reflexivity.
    + exists (delete i shapes). cbn [CounterRow.fetchViewCount_data snd
        pending finished]. rewrite app_nil_r, list_fmap_delete. reflexivity.
  - cbn [inflight].
    assert (forall n p, exists k,
              (dispatch n CounterRow.handleVisibilityChange p).2
              = replicate k (row_task Fetching)) as Hd.
    { clear. induction n as [|n IH]; intros p; [exists 0%nat; reflexivity|].
      cbn [dispatch snd]. destruct (IH (CounterRow.handleVisibilityChange p).1)
        as [k Hk]. rewrite Hk. unfold CounterRow.handleVisibilityChange.
      destruct (hidden p); cbn [snd pending finished CounterRow.fetchViewCount query].
      - exists k. reflexivity.
      - exists (S k). reflexivity. }
    destruct (Hd (listeners (page s)) (set_hidden h (page s))) as [k Hk].
    exists (shapes ++ replicate k Fetching).
    rewrite Hk, Hin, fmap_app, fmap_replicate. reflexivity.
  - exists shapes. exact Hin.
  - exists shapes. exact Hin.
Qed.

Lemma log_shaped_feed e t s :
  shaped log_task s ->
  shaped log_task (feed VisitLog.component exec e (t, s)).2.
Proof.
  intros [shapes Hin].
  destruct e as [| |i reachable|h|ch|u]; session_step VisitLog.component.
  - unfold VisitLog.useEffect, VisitLog.recordViewAndFetch.
    destruct (hasIncrementedRef (page s)); cbn [fst snd query pending finished inflight].
    + exists shapes. rewrite app_nil_r. exact Hin.
    + exists (shapes ++ [Inserting]). rewrite Hin, fmap_app. reflexivity.
  - exists shapes. exact Hin.
  - unfold reply; cbn [fst snd]. rewrite Hin, list_lookup_fmap.
    destruct (shapes !! i) as [sh|] eqn:Hi; cbn [fmap option_fmap option_map];
      [|exists shapes; exact Hin].
    destruct sh; cbn [log_task inflight].
    + exists (delete i shapes ++ [Counting]).
      rewrite fmap_app, list_fmap_delete. reflexivity.
    + exists (delete i shapes). cbn [VisitLog.fetchViewCount_count snd
        pending finished]. rewrite app_nil_r, list_fmap_delete. reflexivity.
  - cbn [inflight].
    assert (forall n p, exists k,
              (dispatch n VisitLog.handleVisibilityChange p).2
              = replicate k (log_task Counting)) as Hd.
    { clear. induction n as [|n IH]; intros p; [exists 0%nat; reflexivity|].
      cbn [dispatch snd]. destruct (IH (VisitLog.handleVisibilityChange p).1)
        as [k Hk]. rewrite Hk. unfold VisitLog.handleVisibilityChange.
      destruct (hidden p); cbn [snd pending finished VisitLog.fetchViewCount query].
      - exists k. reflexivity.
      - exists (S k). reflexivity. }
    destruct (Hd (listeners (page s)) (set_hidden h (page s))) as [k Hk].
    exists (shapes ++ replicate k Counting).
    rewrite Hk, Hin, fmap_app, fmap_replicate. reflexivity.
  - exists shapes. exact Hin.
  - exists shapes. exact Hin.
Qed.

Lemma shaped_request {Shape} (task : Shape -> Task Page) (ok : Request -> Prop) s i q k :
  (forall sh q k, task sh = Await q k -> ok q) ->
  shaped task s -> inflight s !! i = Some (Await q k) -> ok q.
Proof.
  intros Hok [shapes Hin] Hi. rewrite Hin, list_lookup_fmap in Hi.
  destruct (shapes !! i) as [sh|]; [|discriminate].
  injection Hi as Hi. exact (Hok sh q k Hi).
Qed.
End AnyStore.

Lemma plain_task_request sh q k : plain_task sh = Await q k -> counter_request q.
Proof. destruct sh; intros [= <- _]; reflexivity. Qed.

Lemma row_task_request sh q k : row_task sh = Await q k -> counter_request q.
Proof. destruct sh; intros [= <- _]; reflexivity. Qed.

Lemma log_task_request sh q k : log_task sh = Await q k -> log_request q.
Proof. destruct sh; intros [= <- _]; exact I. Qed.

(** ** The counter row and the other rows *)

Lemma update_ids i v ts t :
  List.map CounterTable.id (CounterTable.update i v ts t) = List.map CounterTable.id t.
Proof.
  unfold CounterTable.update. induction t as [|r t IH]; [reflexivity|].
  simpl. rewrite IH. destruct (String.eqb (CounterTable.id r) i); reflexivity.
Qed.

Lemma update_other_rows v ts t :
  other_rows (CounterTable.update VIEW_ID v ts t) = other_rows t.
Proof.
  unfold other_rows, CounterTable.update. induction t as [|r t IH]; [reflexivity|].
  simpl. destruct (String.eqb (CounterTable.id r) VIEW_ID) eqn:E; simpl; rewrite E;
    simpl; rewrite IH; reflexivity.
Qed.

Lemma counter_request_keeps_rows reachable q t :
  counter_request q ->
  other_rows (CounterTable.exec reachable q t).1 = other_rows t /\
  List.map CounterTable.id (CounterTable.exec reachable q t).1
  = List.map CounterTable.id t.
Proof.
  intros Hq. destruct reachable; [|split; reflexivity].
  destruct q as [i|i v ts| |]; simpl in Hq; try contradiction; subst; simpl.
  - split; reflexivity.
  - split; [apply update_other_rows | apply update_ids].
Qed.

Lemma counter_rows_kept {Shape} (task : Shape -> Task Page) (C : Component Page) t0 :
  (forall sh q k, task sh = Await q k -> counter_request q) ->
  (forall e t s, shaped task s -> shaped task (feed C CounterTable.exec e (t, s)).2) ->
  shaped task (fresh C) ->
  forall es,
    let t' := (run C CounterTable.exec es (t0, fresh C)).1 in
    other_rows t' = other_rows t0 /\
    List.map CounterTable.id t' = List.map CounterTable.id t0.
Proof.
  intros Hreq Hstep Hfresh es.
  assert (let w := run C CounterTable.exec es (t0, fresh C) in
          shaped task w.2 /\ other_rows w.1 = other_rows t0 /\
          List.map CounterTable.id w.1 = List.map CounterTable.id t0) as H.
  { apply (run_invariant C CounterTable.exec
             (fun w => shaped task w.2 /\ other_rows w.1 = other_rows t0 /\
                       List.map CounterTable.id w.1 = List.map CounterTable.id t0));
      [|split; [exact Hfresh | split; reflexivity]].
    intros e [t s] [Hs [Ho Hi]]. cbn [fst snd] in *.
    split; [apply Hstep, Hs|].
    destruct (feed_table CounterTable.exec C e t s)
      as [-> | [i [r [q [k [_ [Hq [-> _]]]]]]]]; [split; assumption|].
    destruct (counter_request_keeps_rows r q t
                (shaped_request task counter_request s i q k Hreq Hs Hq))
      as [H1 H2].
    rewrite H1, H2. split; assumption. }
  destruct H as [_ H]. exact H.
Qed.

(** On the table of the first migration, whatever part 004 or
    src/components/ViewCounter.tsx is put through, no row is added or
    removed, and every row but the counter row stays as it was. *)
Theorem only_counter_row_written es t :
  (let t' := (run CounterRow.component CounterTable.exec es
                (t, fresh CounterRow.component)).1 in
   other_rows t' = other_rows t /\
   List.map CounterTable.id t' = List.map CounterTable.id t) /\
  (let t' := (run ViewCounter.component CounterTable.exec es
                (t, fresh ViewCounter.component)).1 in
   other_rows t' = other_rows t /\
   List.map CounterTable.id t' = List.map CounterTable.id t).
Proof.
  split.
  - apply (counter_rows_kept row_task CounterRow.component t row_task_request).
    + intros e t' s. apply row_shaped_feed.
    + exists []. reflexivity.
  - apply (counter_rows_kept plain_task ViewCounter.component t plain_task_request).
    + intros e t' s. apply plain_shaped_feed.
    + exists []. reflexivity.
Qed.

(** ** A component on the table of the other migration *)

Lemma visit_table_refuses reachable q t :
  counter_request q -> VisitTable.exec reachable q t = (t, failure).
Proof.
  intros Hq. destruct reachable; [|reflexivity].
  destruct q; simpl in Hq; try contradiction; reflexivity.
Qed.

Lemma delete_replicate {A} (x : A) k : forall i,
  (i < k)%nat -> delete i (replicate k x) = replicate (Nat.pred k) x.
Proof.
  induction k as [|k IH]; intros i Hi; [lia|].
  destruct i as [|i]; [reflexivity|].
  destruct k as [|k]; [lia|].
  cbn [replicate delete list_delete Nat.pred]. f_equal.
  apply (IH i). lia.
Qed.

Lemma plain_on_visit_table es t :
  let w := run ViewCounter.component VisitTable.exec es
             (t, fresh ViewCounter.component) in
  (exists k, inflight w.2 = replicate k (plain_task PlainReading)) /\
  w.1 = t /\ write_requests (journal w.2) = 0%nat /\ viewCount (page w.2) = None.
Proof.
  apply (run_invariant ViewCounter.component VisitTable.exec
           (fun w => (exists k, inflight w.2 = replicate k (plain_task PlainReading)) /\
                     w.1 = t /\ write_requests (journal w.2) = 0%nat /\
                     viewCount (page w.2) = None)).
  2:{ split; [exists 0%nat; reflexivity | repeat split]. }
  intros e [t' s] [[k Hk] [Ht [Hw Hv]]]. cbn [fst snd] in *. subst t'.
  destruct e as [| |i reachable|h|ch|u]; session_step ViewCounter.component.
  - split; [|repeat split; assumption].
    exists (S k). cbn [inflight]. rewrite Hk.
    change (ViewCounter.useEffect (page s)).2 with [plain_task PlainReading].
    change [plain_task PlainReading] with (replicate 1 (plain_task PlainReading)).
    rewrite <- replicate_add. f_equal. lia.
  - split; [exists k; exact Hk | repeat split; assumption].
  - unfold reply; cbn [fst snd]. rewrite Hk.
    destruct (replicate k (plain_task PlainReading) !! i) as [task|] eqn:Hi.
    2:{ cbn [fst snd]. split; [exists k; exact Hk | repeat split; assumption]. }
    apply lookup_replicate in Hi. destruct Hi as [-> Hi].
    cbn [plain_task fst snd inflight journal page].
    rewrite (visit_table_refuses reachable (SelectViewCount VIEW_ID) t eq_refl).
    cbn [fst snd ViewCounter.incrementAndFetch_read failure data pending finished].
    split.
    + exists (Nat.pred k). rewrite app_nil_r. apply delete_replicate, Hi.
    + split; [reflexivity|]. split; [|exact Hv].
      rewrite write_requests_snoc, Hw. reflexivity.
  - split; [|repeat split; assumption].
    exists k. cbn [inflight]. rewrite app_nil_r. exact Hk.
  - split; [exists k; exact Hk | repeat split; assumption].
  - split; [exists k; exact Hk | repeat split; assumption].
Qed.

Lemma resubscribe_viewCount ev f name p :
  let p1 := match channelRef p with Some c => removeChannel c p | None => p end in
  let channel := subscribe name ev f p1 in
  viewCount (set_channelRef (Some channel.1) channel.2) = viewCount p.
Proof. destruct (channelRef p); reflexivity. Qed.

Lemma row_effect_display p :
  viewCount (CounterRow.useEffect p).1 = viewCount p.
Proof.
  unfold CounterRow.useEffect, CounterRow.incrementAndFetch,
    CounterRow.setupRealtimeChannel.
  destruct (hasIncrementedRef p); cbn [fst snd query set_listeners viewCount];
    rewrite resubscribe_viewCount; reflexivity.
Qed.

Lemma row_cleanup_display p :
  viewCount (CounterRow.useEffect_cleanup p) = viewCount p.
Proof. unfold CounterRow.useEffect_cleanup. destruct (channelRef p); reflexivity. Qed.

Lemma row_dispatch_display n : forall p,
  viewCount (dispatch n CounterRow.handleVisibilityChange p).1 = viewCount p.
Proof.
  induction n as [|n IH]; intros p; [reflexivity|].
  cbn [dispatch fst]. rewrite IH. unfold CounterRow.handleVisibilityChange.
  destruct (hidden p); [reflexivity|]. cbn [fst].
  unfold CounterRow.setupRealtimeChannel. rewrite resubscribe_viewCount. reflexivity.
Qed.

Lemma row_on_visit_table es t :
  Forall no_counter_update es ->
  let w := run CounterRow.component VisitTable.exec es
             (t, fresh CounterRow.component) in
  w.1 = t /\ write_requests (journal w.2) = 0%nat /\ viewCount (page w.2) = None.
Proof.
  intros Hes.
  assert (forall w,
    (one_channel UPDATE (Some VIEW_ID) (page w.2) /\
     Forall (fun task => task = row_task Reading \/ task = row_task Fetching)
            (inflight w.2) /\
     w.1 = t /\ write_requests (journal w.2) = 0%nat /\ viewCount (page w.2) = None) ->
    let w' := run CounterRow.component VisitTable.exec es w in
    one_channel UPDATE (Some VIEW_ID) (page w'.2) /\
    Forall (fun task => task = row_task Reading \/ task = row_task Fetching)
           (inflight w'.2) /\
    w'.1 = t /\ write_requests (journal w'.2) = 0%nat /\ viewCount (page w'.2) = None)
    as Hrun.
  { induction Hes as [|e es He Hes IH]; intros w Hw; [exact Hw|].
    rewrite run_cons. apply IH. clear IH Hes.
    destruct w as [t' s]. destruct Hw as [Hone [Hfl [Ht [Hw Hv]]]].
    cbn [fst snd] in *. subst t'.
    destruct e as [| |i reachable|h|ch|u]; session_step CounterRow.component.
    - destruct (row_effect (page s) Hone) as [H1 [_ H3]].
      split; [exact H1|]. split.
      + apply Forall_app. split; [exact Hfl|].
        destruct H3 as [[_ [-> _]] | [_ [-> _]]]; repeat constructor.
      + rewrite row_effect_display. repeat split; assumption.
    - destruct Hone as [Hc Hk].
      destruct (unsubscribe_none UPDATE (Some VIEW_ID) (page s) Hc) as [H1 _].
      split; [exact H1|]. split; [exact Hfl|].
      cbn [page journal]. rewrite row_cleanup_display. repeat split; assumption.
    - unfold reply; cbn [fst snd].
      destruct (inflight s !! i) as [task|] eqn:Hi.
      2:{ cbn [fst snd]. split; [exact Hone|]. repeat split; assumption. }
      pose proof (Forall_lookup_1 _ _ _ _ Hfl Hi) as [-> | ->];
        cbn [row_task fst snd inflight journal page];
        rewrite (visit_table_refuses reachable (SelectViewCount VIEW_ID) t eq_refl);
        cbn [fst snd CounterRow.incrementAndFetch_read CounterRow.fetchViewCount_data
             failure data pending finished];
        rewrite app_nil_r, write_requests_snoc, Hw;
        (split; [exact Hone|]); (split; [apply Forall_delete, Hfl|]);
        repeat split; assumption.
    - assert (one_channel UPDATE (Some VIEW_ID) (set_hidden h (page s))) as Hone'
        by same_channel Hone.
      destruct (dispatch_handlers UPDATE (Some VIEW_ID)
                  CounterRow.handleVisibilityChange (row_task Fetching)
                  row_handler eq_refl (listeners (page s)) _ Hone')
        as [H1 [_ [k H3]]].
      split; [exact H1|]. split.
      + cbn [inflight]. rewrite H3. apply Forall_app. split; [exact Hfl|].
        apply Forall_replicate. right. reflexivity.
      + cbn [page journal]. rewrite row_dispatch_display. repeat split; assumption.
    - cbn [no_counter_update] in He.
      assert (deliver CounterRow.callback ch (page s) = page s) as Hsame.
      { apply deliver_none. apply (held_channel_ignores _ _ _ _ Hone).
        intros c Hev Hf. unfold receives. rewrite Hev, Hf.
        destruct (eventType ch) eqn:E; try reflexivity.
        apply eqb_VIEW_ID_false. intros Hid. apply He. split; assumption. }
      cbn [page inflight journal]. rewrite Hsame.
      split; [exact Hone|]. repeat split; assumption.
    - split; [same_channel Hone|]. repeat split; assumption. }
  intros w. apply Hrun. cbn [fst snd fresh page inflight journal].
  split; [split; [reflexivity | discriminate]|]. repeat split. constructor.
Qed.

(** On the table of the second migration, which has no [view_count], the
    components written for the counter row get every request refused:
    src/components/ViewCounter.tsx never shows a count and never asks for a
    write, whatever it is put through, and neither does part 004 as long as
    the feed brings it no UPDATE of the counter row; the table stays as it
    is. *)
Theorem counter_row_components_on_visit_table es (t : VisitTable.Table) :
  (let w := run ViewCounter.component VisitTable.exec es
              (t, fresh ViewCounter.component) in
   w.1 = t /\ write_requests (journal w.2) = 0%nat /\ viewCount (page w.2) = None) /\
  (Forall no_counter_update es ->
   let w := run CounterRow.component VisitTable.exec es
              (t, fresh CounterRow.component) in
   w.1 = t /\ write_requests (journal w.2) = 0%nat /\ viewCount (page w.2) = None).
Proof.
  split.
  - destruct (plain_on_visit_table es t) as [_ H]. exact H.
  - apply row_on_visit_table.
Qed.

Lemma counter_row_components_on_visit_table_witness :
  let es := [Mount; Reply 0 true; VisibilityChange true; VisibilityChange false;
             Reply 0 true;
             PostgresChanges {| eventType := INSERT; new_id := "a visit";
                                new_view_count := 0 |}] in
  let w := run CounterRow.component VisitTable.exec es
             ([{| VisitTable.id := 0 |}], fresh CounterRow.component) in
  w.1 = [{| VisitTable.id := 0 |}] /\ write_requests (journal w.2) = 0%nat /\
  viewCount (page w.2) = None.
Proof.
  intros es.
  apply (proj2 (counter_row_components_on_visit_table es [{| VisitTable.id := 0 |}])).
  subst es. repeat constructor. intros [H _]. discriminate H.
Defined.

Lemma counter_table_answers reachable q t :
  log_request q ->
  (CounterTable.exec reachable q t).1 = t /\
  durable (q, (CounterTable.exec reachable q t).2) = false.
Proof.
  intros Hq. destruct reachable, q; simpl in Hq; try contradiction;
    split; reflexivity.
Qed.

(** On the table of the first migration, which has no policy for INSERT,
    part 005 records nothing, whatever it is put through: no write is
    durable and the table stays as it is; a page load alone on it shows the
    number of rows of the table when its count is answered. *)
Theorem visit_log_on_counter_table es t ok :
  (let w := run VisitLog.component CounterTable.exec es
              (t, fresh VisitLog.component) in
   w.1 = t /\ durable_writes (journal w.2) = 0%nat) /\
  (let w := visit VisitLog.component CounterTable.exec ok t in
   viewCount (page w.2)
   = (if ok.2 then Some (Z.of_nat (List.length t)) else None)).
Proof.
  split.
  - assert (let w := run VisitLog.component CounterTable.exec es
                       (t, fresh VisitLog.component) in
            shaped log_task w.2 /\ w.1 = t /\
            durable_writes (journal w.2) = 0%nat) as H.
    { apply (run_invariant VisitLog.component CounterTable.exec
               (fun w => shaped log_task w.2 /\ w.1 = t /\
                         durable_writes (journal w.2) = 0%nat));
        [|split; [exists []; reflexivity | split; reflexivity]].
      intros e [t' s] [Hs [Ht Hd]]. cbn [fst snd] in *. subst t'.
      split; [apply log_shaped_feed, Hs|].
      destruct (feed_table CounterTable.exec VisitLog.component e t s)
        as [Ht | [i [r [q [k [_ [Hq [Ht Hj]]]]]]]].
      - split; [exact Ht|].
        destruct (feed_journal CounterTable.exec VisitLog.component e t s)
          as [-> | [i [r [q [k [_ [Hq ->]]]]]]]; [exact Hd|].
        destruct (counter_table_answers r q t
                    (shaped_request log_task log_request s i q k
                       log_task_request Hs Hq)) as [_ H2].
        rewrite durable_writes_snoc, Hd, H2. reflexivity.
      - destruct (counter_table_answers r q t
                    (shaped_request log_task log_request s i q k
                       log_task_request Hs Hq)) as [H1 H2].
        rewrite Ht, Hj, durable_writes_snoc, Hd, H2. split; [exact H1 | reflexivity]. }
    destruct H as [_ H]. exact H.
  - destruct ok as [[|] [|]]; reflexivity.
Qed.

(** ** The time label of the Spotify player *)

Lemma two_digits s :
  0 <= s < 60 ->
  padStart 2 "0" (toString s) = String (digit (s / 10)) (String (digit (s mod 10)) "").
Proof.
  intros Hs. rewrite <- (Z2Nat.id s) by lia.
  assert (Z.to_nat s < 60)%nat as Hn by lia.
  generalize dependent (Z.to_nat s). clear. intros n Hn.
  do 60 (destruct n as [|n]; [reflexivity|]). lia.
Qed.

(** For a position of [ms] whole milliseconds, not negative and a safe
    integer, the label is the whole minutes, a safe integer too, a colon,
    and the seconds within the minute written with exactly two digits, so
    never 60 or more. *)
Theorem spotify_time_label ms :
  0 <= ms -> safe_integer ms ->
  let s := (ms / 1000) mod 60 in
  safe_integer (ms / 60000) /\
  SpotifyPlayer.formatTime ms
  = String.append (toString (ms / 60000))
      (String.append ":" (String (digit (s / 10)) (String (digit (s mod 10)) ""))).
Proof.
  intros Hms Hsafe s. split.
  { unfold safe_integer in *.
    assert (0 <= ms / 60000 <= ms) by (split; [apply Z.div_pos; lia|];
      apply Z.div_le_upper_bound; lia).
    lia. }
  unfold SpotifyPlayer.formatTime.
  assert (0 <= ms / 1000) as Hsec by (apply Z.div_pos; lia).
  rewrite Z.rem_mod_nonneg by lia. fold s.
  rewrite Z.div_div by lia. change (1000 * 60) with 60000.
  rewrite (two_digits s) by (apply Z.mod_pos_bound; lia). reflexivity.
Qed.

Lemma spotify_time_label_witness :
  SpotifyPlayer.formatTime 185999 = "3:05".
Proof. apply (spotify_time_label 185999); [lia | unfold safe_integer; lia]. Defined.

(** ** The volume of the Spotify player *)

Lemma spotify_mixer_step a m :
  SpotifyPlayer.on_slider a -> spotify_mixer_sound m ->
  spotify_mixer_sound (SpotifyPlayer.act a m).
Proof.
  intros Ha [Hv [Hm [Hr Hp]]].
  unfold spotify_mixer_sound, SpotifyPlayer.player_volume in *.
  destruct a as [v|]; cbn [SpotifyPlayer.act SpotifyPlayer.on_slider] in *.
  - unfold SpotifyPlayer.handleVolumeChange; cbn. rewrite last_last.
    split; [reflexivity|]. split; [|lia].
    destruct (0 <? v) eqn:E; [discriminate|]. intros _. apply Z.ltb_ge in E. lia.
  - unfold SpotifyPlayer.toggleMute.
    destruct (SpotifyPlayer.isMuted m); cbn; rewrite last_last;
      (split; [reflexivity|]); (split; [|lia]); [discriminate | reflexivity].
Qed.

Lemma spotify_mixer_run l : forall m,
  Forall SpotifyPlayer.on_slider l -> spotify_mixer_sound m ->
  spotify_mixer_sound (SpotifyPlayer.run l m).
Proof.
  induction l as [|a l IH]; intros m Hl Hm; [exact Hm|].
  inversion Hl; subst. apply IH; [assumption|]. apply spotify_mixer_step; assumption.
Qed.

(** Whatever is done with the slider and the mute button of the Spotify
    player, the volume last given to the player is the one the slider
    shows, starting from the 50 of both; while muted the slider is at 0;
    and muting and unmuting brings back the volume from before. *)
Theorem spotify_volume_follows_slider l :
  Forall SpotifyPlayer.on_slider l ->
  let m := SpotifyPlayer.run l SpotifyPlayer.initial in
  SpotifyPlayer.player_volume m = SpotifyPlayer.volume m /\
  (SpotifyPlayer.isMuted m = true -> SpotifyPlayer.volume m = 0) /\
  (SpotifyPlayer.isMuted m = false ->
   let m' := SpotifyPlayer.toggleMute (SpotifyPlayer.toggleMute m) in
   SpotifyPlayer.volume m' = SpotifyPlayer.volume m /\
   SpotifyPlayer.isMuted m' = false /\
   SpotifyPlayer.player_volume m' = SpotifyPlayer.volume m).
Proof.
  intros Hl m.
  assert (spotify_mixer_sound m) as [Hv [Hm _]].
  { apply spotify_mixer_run; [exact Hl|].
    unfold spotify_mixer_sound; cbn. repeat split; try lia; try discriminate. }
  split; [exact Hv|]. split; [exact Hm|].
  intros Hun. unfold SpotifyPlayer.toggleMute at 2. rewrite Hun.
  unfold SpotifyPlayer.toggleMute, SpotifyPlayer.player_volume. cbn.
  rewrite last_last. repeat split.
Qed.

Lemma spotify_volume_follows_slider_witness :
  let m := SpotifyPlayer.run
             [SpotifyPlayer.Slide 30; SpotifyPlayer.ToggleMute; SpotifyPlayer.Slide 0;
              SpotifyPlayer.ToggleMute]
             SpotifyPlayer.initial in
  SpotifyPlayer.player_volume m = 30 /\ SpotifyPlayer.volume m = 30.
Proof.
  intros m.
  destruct (spotify_volume_follows_slider
              [SpotifyPlayer.Slide 30; SpotifyPlayer.ToggleMute; SpotifyPlayer.Slide 0;
               SpotifyPlayer.ToggleMute]) as [H _].
  - repeat constructor; simpl; lia.
  - split; [exact H | reflexivity].
Defined.

(** ** The volume of the YouTube player *)

Lemma youtube_mixer_step a m :
  youtube_mixer_sound m -> youtube_mixer_sound (YouTubeMusicPlayer.act a m).
Proof.
  intros [Hp [Hm Hv]].
  unfold youtube_mixer_sound, YouTubeMusicPlayer.player_muted,
    YouTubeMusicPlayer.player_volume in *.
  destruct a as [v|]; cbn [YouTubeMusicPlayer.act].
  - unfold YouTubeMusicPlayer.handleVolumeChange. rewrite Hp.
    destruct ((0 <? v) && YouTubeMusicPlayer.isMuted m) eqn:E; cbn;
      rewrite !fold_left_app; cbn.
    + repeat split; auto.
    + split; [reflexivity|]. split; [exact Hm | left; reflexivity].
  - unfold YouTubeMusicPlayer.toggleMute. rewrite Hp.
    destruct (YouTubeMusicPlayer.isMuted m) eqn:E; cbn;
      rewrite !fold_left_app; cbn.
    + split; [reflexivity|]. split; [reflexivity|].
      destruct (YouTubeMusicPlayer.volume m =? 0) eqn:Ez.
      * right. apply Z.eqb_eq in Ez. split; [exact Ez | reflexivity].
      * left. reflexivity.
    + split; [reflexivity|]. split; [reflexivity | exact Hv].
Qed.

(** Whatever is done with the slider and the mute button of the YouTube
    player once it is ready, the player is muted exactly when the component
    says so, and the volume last given to the player is the one the
    component keeps, or 50 while the component keeps 0: unmuting with the
    volume at 0 sets the player to 50 and leaves the slider at 0, as after
    the slider is put to 0 and the mute button pressed twice. *)
Theorem youtube_volume_and_slider l :
  let m := YouTubeMusicPlayer.run l YouTubeMusicPlayer.ready in
  let q := YouTubeMusicPlayer.run
             [YouTubeMusicPlayer.Slide 0; YouTubeMusicPlayer.ToggleMute;
              YouTubeMusicPlayer.ToggleMute] m in
  YouTubeMusicPlayer.player_muted (YouTubeMusicPlayer.calls m)
  = YouTubeMusicPlayer.isMuted m /\
  (YouTubeMusicPlayer.player_volume (YouTubeMusicPlayer.calls m)
   = Some (YouTubeMusicPlayer.volume m) \/
   (YouTubeMusicPlayer.volume m = 0 /\
    YouTubeMusicPlayer.player_volume (YouTubeMusicPlayer.calls m) = Some 50)) /\
  (YouTubeMusicPlayer.player_volume (YouTubeMusicPlayer.calls q) = Some 50 /\
   YouTubeMusicPlayer.volume q = 0 /\
   YouTubeMusicPlayer.slider q = 0).
Proof.
  intros m q.
  assert (youtube_mixer_sound m) as Hm.
  { subst m. generalize YouTubeMusicPlayer.ready,
      (ltac:(unfold youtube_mixer_sound; cbn; auto)
        : youtube_mixer_sound YouTubeMusicPlayer.ready).
    induction l as [|a l IH]; intros m0 Hm0; [exact Hm0|].
    apply IH, youtube_mixer_step, Hm0. }
  destruct Hm as [Hp [Hmu Hv]]. split; [exact Hmu|]. split; [exact Hv|].
  subst q. clearbody m. destruct m as [v mu pr cl]. cbn in Hp. subst pr.
  unfold YouTubeMusicPlayer.player_volume, YouTubeMusicPlayer.player_muted,
    YouTubeMusicPlayer.slider.
  destruct mu; cbn; rewrite ?fold_left_app; cbn; repeat split.
Qed.

(** ** Numbers written and read back *)


Lemma digits_uint d : forall acc,
  digits (NilEmpty.string_of_uint d) (Some acc) = Some (uint_value d acc).
Proof.
  induction d; intros acc; cbn [NilEmpty.string_of_uint digits uint_value];
    try reflexivity;
    (match goal with |- context [digit_value ?c] =>
       change (digit_value c) with (Some (Z.of_nat (nat_of_ascii c) - 48)) end);
    cbn [default]; apply IHd.
Qed.

Lemma digits_uint_start d :
  d <> Nil -> digits (NilEmpty.string_of_uint d) None = Some (uint_value d 0).
Proof.
  destruct d; intros Hd; try congruence;
    cbn [NilEmpty.string_of_uint digits uint_value];
    (match goal with |- context [digit_value ?c] =>
       change (digit_value c) with (Some (Z.of_nat (nat_of_ascii c) - 48)) end);
    cbn [default]; apply digits_uint.
Qed.

Lemma of_uint_acc_value d : forall acc,
  Z.pos (Pos.of_uint_acc d acc) = uint_value d (Z.pos acc).
Proof.
  induction d; intros acc; cbn [Pos.of_uint_acc uint_value];
    try reflexivity; rewrite IHd; f_equal; lia.
Qed.

Lemma of_uint_value d : Z.of_N (Pos.of_uint d) = uint_value d 0.
Proof.
  induction d; cbn [Pos.of_uint uint_value]; try reflexivity;
    try (cbn [Z.of_N]; rewrite of_uint_acc_value; reflexivity).
  exact IHd.
Qed.

Lemma parseInt_uint p :
  parseInt (NilEmpty.string_of_uint (Pos.to_uint p)) = Some (Z.pos p).
Proof.
  pose proof (DecimalPos.Unsigned.to_uint_nonnil p) as Hn.
  pose proof (DecimalPos.Unsigned.of_to p) as Hv.
  apply (f_equal Z.of_N) in Hv. rewrite of_uint_value in Hv. cbn [Z.of_N] in Hv.
  rewrite <- Hv. rewrite <- (digits_uint_start _ Hn).
  destruct (Pos.to_uint p); try congruence; reflexivity.
Qed.


Lemma string_of_uint_nonnil d :
  d <> Nil -> NilZero.string_of_uint d = NilEmpty.string_of_uint d.
Proof. destruct d; intros Hd; try congruence; reflexivity. Qed.

Lemma parseInt_toString z : parseInt (toString z) = Some z.
Proof.
  unfold toString. destruct z as [|p|p]; cbn [Z.to_int NilZero.string_of_int].
  - reflexivity.
  - rewrite string_of_uint_nonnil by apply DecimalPos.Unsigned.to_uint_nonnil.
    apply parseInt_uint.
  - pose proof (DecimalPos.Unsigned.to_uint_nonnil p) as Hn.
    pose proof (DecimalPos.Unsigned.of_to p) as Hv.
    apply (f_equal Z.of_N) in Hv. rewrite of_uint_value in Hv. cbn [Z.of_N] in Hv.
    rewrite string_of_uint_nonnil by exact Hn.
    unfold parseInt. cbn [trimStart]. change (white_space "-") with false. cbv iota.
    rewrite (digits_uint_start _ Hn), Hv. reflexivity.
Qed.

(** ** The code verifier and the code challenge *)

Lemma length_append s1 s2 :
  String.length (String.append s1 s2) = (String.length s1 + String.length s2)%nat.
Proof.
  induction s1 as [|c s1 IH]; [reflexivity|].
  change (String.append (String c s1) s2) with (String c (String.append s1 s2)).
  cbn [String.length]. rewrite IH. reflexivity.
Qed.

Lemma list_ascii_append s1 s2 :
  list_ascii_of_string (String.append s1 s2)
  = list_ascii_of_string s1 ++ list_ascii_of_string s2.
Proof.
  induction s1 as [|c s1 IH]; [reflexivity|].
  change (String.append (String c s1) s2) with (String c (String.append s1 s2)).
  cbn [list_ascii_of_string]. rewrite IH. reflexivity.
Qed.

Lemma possible_at_byte x :
  exists c, SpotifyAuth.possible_at (Byte.to_nat x mod String.length SpotifyAuth.possible)
            = String c EmptyString /\ alphanumeric c = true.
Proof. destruct x; eexists; split; vm_compute; reflexivity. Qed.

Lemma generateRandomString_from values : forall acc,
  let s := List.fold_left
             (fun acc x => String.append acc
                (SpotifyAuth.possible_at (Byte.to_nat x mod String.length SpotifyAuth.possible)))
             values acc in
  String.length s = (String.length acc + List.length values)%nat /\
  (Forall (fun c => alphanumeric c = true) (list_ascii_of_string acc) ->
   Forall (fun c => alphanumeric c = true) (list_ascii_of_string s)).
Proof.
  induction values as [|x values IH]; intros acc; cbn [List.fold_left List.length].
  - split; [lia | auto].
  - destruct (possible_at_byte x) as (c & -> & Hc).
    destruct (IH (String.append acc (String c EmptyString))) as [Hl Hf].
    cbv zeta in Hl, Hf |- *. split.
    + rewrite Hl, length_append. cbn. lia.
    + intros Hacc. apply Hf. rewrite list_ascii_append. apply Forall_app. split; [exact Hacc|].
      cbn. repeat constructor. exact Hc.
Qed.

(** The code verifier of [generateRandomString] has one character for
    every random byte, so 64 for the 64 bytes that [login] draws, and each
    is a letter or a digit. *)
Theorem verifier_alphanumeric values :
  String.length (SpotifyAuth.generateRandomString values) = List.length values /\
  Forall (fun c => alphanumeric c = true)
    (list_ascii_of_string (SpotifyAuth.generateRandomString values)).
Proof.
  destruct (generateRandomString_from values EmptyString) as [Hl Hf].
  split; [exact Hl | apply Hf; constructor].
Qed.

Lemma list_ind3 {A} (P : list A -> Prop) :
  P [] -> (forall a, P [a]) -> (forall a b, P [a; b]) ->
  (forall a b c rest, P rest -> P (a :: b :: c :: rest)) ->
  forall l, P l.
Proof.
  intros H0 H1 H2 H3. fix IH 1. intros [|a [|b [|c rest]]].
  - exact H0.
  - apply H1.
  - apply H2.
  - apply H3. apply IH.
Qed.

Lemma clean_sextet n :
  (n < 64)%nat ->
  exists c, url_safe c = true /\
    forall s,
      replace_all "/" "_" (replace_all "+" "-" (replace_all "=" EmptyString (String (sextet n) s)))
      = String c (replace_all "/" "_" (replace_all "+" "-" (replace_all "=" EmptyString s))).
Proof.
  intros Hn.
  do 64 (destruct n as [|n]; [eexists; split; [|intros s; reflexivity]; reflexivity|]).
  lia.
Qed.

Lemma base64encode_block a b c rest :
  exists c1 c2 c3 c4,
    Forall (fun c => url_safe c = true) [c1; c2; c3; c4] /\
    SpotifyAuth.base64encode (a :: b :: c :: rest)
    = String c1 (String c2 (String c3 (String c4 (SpotifyAuth.base64encode rest)))).
Proof.
  pose proof (Byte.to_nat_bounded a) as Ha.
  pose proof (Byte.to_nat_bounded b) as Hb.
  pose proof (Byte.to_nat_bounded c) as Hc.
  unfold SpotifyAuth.base64encode. cbn [btoa]. cbv zeta.
  set (x := Byte.to_nat a) in *. set (y := Byte.to_nat b) in *. set (z := Byte.to_nat c) in *.
  assert (H1 : (x / 4 < 64)%nat) by (apply Nat.Div0.div_lt_upper_bound; lia).
  assert (H2 : (x mod 4 * 16 + y / 16 < 64)%nat).
  { pose proof (Nat.mod_upper_bound x 4 ltac:(lia)).
    assert (y / 16 < 16)%nat by (apply Nat.Div0.div_lt_upper_bound; lia). lia. }
  assert (H3 : (y mod 16 * 4 + z / 64 < 64)%nat).
  { pose proof (Nat.mod_upper_bound y 16 ltac:(lia)).
    assert (z / 64 < 4)%nat by (apply Nat.Div0.div_lt_upper_bound; lia). lia. }
  assert (H4 : (z mod 64 < 64)%nat) by (apply Nat.mod_upper_bound; lia).
  destruct (clean_sextet _ H1) as (c1 & S1 & E1).
  destruct (clean_sextet _ H2) as (c2 & S2 & E2).
  destruct (clean_sextet _ H3) as (c3 & S3 & E3).
  destruct (clean_sextet _ H4) as (c4 & S4 & E4).
  exists c1, c2, c3, c4. split; [repeat constructor; assumption|].
  rewrite E1, E2, E3, E4. reflexivity.
Qed.

(** [base64encode] of [n] bytes has the 4n/3 characters, rounded up, of
    base64 without its padding, 43 for the 32 bytes of a SHA-256 digest,
    and each is a letter, a digit, [-] or [_]. *)
Theorem challenge_url_safe input :
  Forall (fun c => url_safe c = true)
    (list_ascii_of_string (SpotifyAuth.base64encode input)) /\
  String.length (SpotifyAuth.base64encode input)
  = ((4 * List.length input + 2) / 3)%nat.
Proof.
  induction input as [|a|a b|a b c rest [IHs IHl]] using list_ind3.
  - split; [constructor | reflexivity].
  - pose proof (Byte.to_nat_bounded a) as Ha.
    unfold SpotifyAuth.base64encode. cbn [btoa]. cbv zeta.
    set (x := Byte.to_nat a) in *.
    assert (H1 : (x / 4 < 64)%nat) by (apply Nat.Div0.div_lt_upper_bound; lia).
    assert (H2 : (x mod 4 * 16 < 64)%nat)
      by (pose proof (Nat.mod_upper_bound x 4 ltac:(lia)); lia).
    destruct (clean_sextet _ H1) as (c1 & S1 & E1).
    destruct (clean_sextet _ H2) as (c2 & S2 & E2).
    rewrite E1, E2. cbn. split; [repeat constructor; assumption | reflexivity].
  - pose proof (Byte.to_nat_bounded a) as Ha.
    pose proof (Byte.to_nat_bounded b) as Hb.
    unfold SpotifyAuth.base64encode. cbn [btoa]. cbv zeta.
    set (x := Byte.to_nat a) in *. set (y := Byte.to_nat b) in *.
    assert (H1 : (x / 4 < 64)%nat) by (apply Nat.Div0.div_lt_upper_bound; lia).
    assert (H2 : (x mod 4 * 16 + y / 16 < 64)%nat).
    { pose proof (Nat.mod_upper_bound x 4 ltac:(lia)).
      assert (y / 16 < 16)%nat by (apply Nat.Div0.div_lt_upper_bound; lia). lia. }
    assert (H3 : (y mod 16 * 4 < 64)%nat)
      by (pose proof (Nat.mod_upper_bound y 16 ltac:(lia)); lia).
    destruct (clean_sextet _ H1) as (c1 & S1 & E1).
    destruct (clean_sextet _ H2) as (c2 & S2 & E2).
    destruct (clean_sextet _ H3) as (c3 & S3 & E3).
    rewrite E1, E2, E3. cbn. split; [repeat constructor; assumption | reflexivity].
  - destruct (base64encode_block a b c rest) as (c1 & c2 & c3 & c4 & Hs & ->).
    cbn [list_ascii_of_string String.length List.length]. split.
    + inversion Hs as [|? ? ? Hs1]; subst. inversion Hs1 as [|? ? ? Hs2]; subst.
      inversion Hs2 as [|? ? ? Hs3]; subst. inversion Hs3; subst.
      repeat (constructor; [assumption|]). exact IHs.
    + rewrite IHl.
      replace (4 * S (S (S (List.length rest))) + 2)%nat
        with (4 * List.length rest + 2 + 4 * 3)%nat by lia.
      rewrite Nat.div_add by lia. lia.
Qed.

(** ** The tokens of the sign-in with Spotify *)

Ltac auth_unfold :=
  unfold SpotifyAuth.step, SpotifyAuth.start, SpotifyAuth.finish, SpotifyAuth.fresh,
    SpotifyAuth.initial, SpotifyAuth.checkExistingToken, SpotifyAuth.handleCallback,
    SpotifyAuth.handleCallback_fetched, SpotifyAuth.refreshAccessToken_fetched,
    SpotifyAuth.refreshAccessToken, SpotifyAuth.login, SpotifyAuth.login_hashed,
    SpotifyAuth.logout, SpotifyAuth.saveTokens, SpotifyAuth.clearTokens,
    SpotifyAuth.setItem, SpotifyAuth.removeItem, SpotifyAuth.getItem, SpotifyAuth.store,
    SpotifyAuth.setAccessToken, SpotifyAuth.setIsLoading, SpotifyAuth.setError,
    SpotifyAuth.replaceState, SpotifyAuth.navigate, SpotifyAuth.tick,
    SpotifyAuth.isAuthenticated in *.

Ltac auth_proj :=
  cbn [SpotifyAuth.hook SpotifyAuth.pending SpotifyAuth.accessToken SpotifyAuth.isLoading
       SpotifyAuth.error SpotifyAuth.localStorage SpotifyAuth.code SpotifyAuth.errorParam
       SpotifyAuth.href SpotifyAuth.now fst snd] in *.

Ltac other_key := first [discriminate | cbv; discriminate].

Ltac storage :=
  repeat first
    [ rewrite lookup_insert_eq
    | rewrite lookup_delete_eq
    | rewrite lookup_insert_ne by other_key
    | rewrite lookup_delete_ne by other_key ].

Lemma toString_truthy z : truthy (Some (toString z)) = Some (toString z).
Proof.
  unfold toString. destruct z as [|p|p]; cbn [Z.to_int NilZero.string_of_int];
    try reflexivity.
  rewrite string_of_uint_nonnil by apply DecimalPos.Unsigned.to_uint_nonnil.
  pose proof (DecimalPos.Unsigned.to_uint_nonnil p) as Hn.
  destruct (Pos.to_uint p); try congruence; reflexivity.
Qed.

Lemma truthy_nonempty s : s <> EmptyString -> truthy (Some s) = Some s.
Proof. destruct s; [congruence | reflexivity]. Qed.

Lemma truthy_Some o s : truthy o = Some s -> o = Some s.
Proof. destruct o as [[|c r]|]; cbn; congruence. Qed.

Lemma saveTokens_storage data h :
  let h' := SpotifyAuth.saveTokens data h in
  SpotifyAuth.localStorage h' !! SpotifyAuth.STORAGE_KEYS.accessToken
  = Some (SpotifyAuth.access_token data) /\
  SpotifyAuth.localStorage h' !! SpotifyAuth.STORAGE_KEYS.tokenExpiry
  = Some (toString (SpotifyAuth.now h + SpotifyAuth.expires_in data * 1000)) /\
  SpotifyAuth.localStorage h' !! SpotifyAuth.STORAGE_KEYS.refreshToken
  = match truthy (SpotifyAuth.refresh_token data) with
    | Some r => Some r
    | None => SpotifyAuth.localStorage h !! SpotifyAuth.STORAGE_KEYS.refreshToken
    end /\
  SpotifyAuth.localStorage h' !! SpotifyAuth.STORAGE_KEYS.codeVerifier
  = SpotifyAuth.localStorage h !! SpotifyAuth.STORAGE_KEYS.codeVerifier /\
  SpotifyAuth.accessToken h' = Some (SpotifyAuth.access_token data) /\
  SpotifyAuth.error h' = None /\
  SpotifyAuth.isLoading h' = SpotifyAuth.isLoading h /\
  SpotifyAuth.href h' = SpotifyAuth.href h /\
  SpotifyAuth.code h' = SpotifyAuth.code h /\
  SpotifyAuth.errorParam h' = SpotifyAuth.errorParam h.
Proof.
  cbv zeta. auth_unfold. cbv zeta.
  destruct (truthy (SpotifyAuth.refresh_token data)); auth_proj; storage;
    repeat split; reflexivity.
Qed.

Lemma clearTokens_storage h :
  let h' := SpotifyAuth.clearTokens h in
  (forall k, SpotifyAuth.own_key k -> SpotifyAuth.localStorage h' !! k = None) /\
  (forall k, ~ SpotifyAuth.own_key k ->
             SpotifyAuth.localStorage h' !! k = SpotifyAuth.localStorage h !! k) /\
  SpotifyAuth.accessToken h' = None /\
  SpotifyAuth.error h' = SpotifyAuth.error h /\
  SpotifyAuth.isLoading h' = SpotifyAuth.isLoading h /\
  SpotifyAuth.href h' = SpotifyAuth.href h /\
  SpotifyAuth.code h' = SpotifyAuth.code h /\
  SpotifyAuth.errorParam h' = SpotifyAuth.errorParam h.
Proof.
  cbv zeta. auth_unfold. auth_proj. split; [|split].
  - intros k [-> | [-> | [-> | ->]]]; storage; reflexivity.
  - intros k Hk. unfold SpotifyAuth.own_key in Hk.
    rewrite !lookup_delete_ne by (intros <-; apply Hk; auto). reflexivity.
  - repeat split; reflexivity.
Qed.

Lemma mount_plain cfg storage t :
  let h := SpotifyAuth.initial storage None None t in
  SpotifyAuth.step cfg SpotifyAuth.Mount (SpotifyAuth.fresh h)
  = {| SpotifyAuth.hook := (SpotifyAuth.checkExistingToken cfg h).1;
       SpotifyAuth.pending := (SpotifyAuth.checkExistingToken cfg h).2 |}.
Proof.
  cbv zeta. unfold SpotifyAuth.step, SpotifyAuth.start, SpotifyAuth.fresh.
  cbn [SpotifyAuth.hook SpotifyAuth.pending app].
  assert (Hc : SpotifyAuth.code (SpotifyAuth.checkExistingToken cfg
                 (SpotifyAuth.initial storage None None t)).1 = None /\
               SpotifyAuth.errorParam (SpotifyAuth.checkExistingToken cfg
                 (SpotifyAuth.initial storage None None t)).1 = None).
  { unfold SpotifyAuth.checkExistingToken.
    repeat match goal with |- context [match ?x with _ => _ end] => destruct x end;
      split; reflexivity. }
  destruct Hc as [Hc He].
  unfold SpotifyAuth.handleCallback. rewrite Hc, He. cbn [truthy fst snd].
  rewrite app_nil_r. reflexivity.
Qed.

(** What [saveTokens] puts in the storage is what the check of a later page
    load reads back, the times being safe integers: the time of the saving,
    the lifetime in milliseconds, the expiry time and the time of the page
    load. Before the expiry time the access token is in memory again,
    nothing is posted and the storage is as it was left; from the expiry
    time on it is not, and the refresh token of the storage is posted, or,
    with none, the four keys are removed. *)
Theorem saved_tokens_come_back cfg data h t :
  SpotifyAuth.access_token data <> EmptyString ->
  safe_integer (SpotifyAuth.now h) ->
  safe_integer (SpotifyAuth.expires_in data * 1000) ->
  safe_integer (SpotifyAuth.now h + SpotifyAuth.expires_in data * 1000) ->
  safe_integer t ->
  let expiryTime := SpotifyAuth.now h + SpotifyAuth.expires_in data * 1000 in
  let h' := SpotifyAuth.saveTokens data h in
  let s := SpotifyAuth.step cfg SpotifyAuth.Mount
             (SpotifyAuth.fresh (SpotifyAuth.initial (SpotifyAuth.localStorage h') None None t)) in
  (t < expiryTime ->
   SpotifyAuth.accessToken (SpotifyAuth.hook s) = Some (SpotifyAuth.access_token data) /\
   SpotifyAuth.isLoading (SpotifyAuth.hook s) = false /\
   SpotifyAuth.pending s = [] /\
   SpotifyAuth.localStorage (SpotifyAuth.hook s) = SpotifyAuth.localStorage h') /\
  (expiryTime <= t ->
   SpotifyAuth.accessToken (SpotifyAuth.hook s) = None /\
   match truthy (SpotifyAuth.localStorage h' !! SpotifyAuth.STORAGE_KEYS.refreshToken) with
   | Some r =>
       SpotifyAuth.pending s = [SpotifyAuth.RefreshToken (SpotifyAuth.clientId cfg) r] /\
       SpotifyAuth.isLoading (SpotifyAuth.hook s) = true /\
       SpotifyAuth.localStorage (SpotifyAuth.hook s) = SpotifyAuth.localStorage h'
   | None =>
       SpotifyAuth.pending s = [] /\
       SpotifyAuth.isLoading (SpotifyAuth.hook s) = false /\
       forall k, SpotifyAuth.own_key k ->
                 SpotifyAuth.localStorage (SpotifyAuth.hook s) !! k = None
   end).
Proof.
  intros Htok _ _ _ _. cbv zeta. rewrite mount_plain.
  destruct (saveTokens_storage data h) as (Ha & He & _).
  cbv zeta in Ha, He.
  set (m := SpotifyAuth.localStorage (SpotifyAuth.saveTokens data h)) in *.
  unfold SpotifyAuth.checkExistingToken, SpotifyAuth.getItem.
  cbn [SpotifyAuth.localStorage SpotifyAuth.initial SpotifyAuth.now].
  rewrite Ha, He, (truthy_nonempty _ Htok), toString_truthy, parseInt_toString.
  cbv zeta. unfold less_than. split.
  - intros Hlt. apply Z.ltb_lt in Hlt. rewrite Hlt. repeat split.
  - intros Hge. apply Z.ltb_ge in Hge. rewrite Hge.
    destruct (truthy (m !! SpotifyAuth.STORAGE_KEYS.refreshToken)).
    + repeat split.
    + split; [reflexivity|]. split; [reflexivity|]. split; [reflexivity|].
      cbn [fst]. unfold SpotifyAuth.setIsLoading. cbn [SpotifyAuth.localStorage].
      apply clearTokens_storage.
Qed.



Lemma token_stored_saveTokens data h : token_stored (SpotifyAuth.saveTokens data h).
Proof.
  destruct (saveTokens_storage data h) as (Ha & _ & _ & _ & Hm & _). cbv zeta in *.
  intros tok E. rewrite Hm in E. rewrite Ha. exact E.
Qed.

Lemma token_stored_clearTokens h : token_stored (SpotifyAuth.clearTokens h).
Proof. intros tok E. discriminate E. Qed.

Lemma token_stored_step cfg e s :
  token_stored (SpotifyAuth.hook s) ->
  token_stored (SpotifyAuth.hook (SpotifyAuth.step cfg e s)).
Proof.
  intros Hs. destruct e as [|values| |i r|i d|t].
  - (* Mount *)
    assert (H1 : token_stored (SpotifyAuth.checkExistingToken cfg (SpotifyAuth.hook s)).1).
    { unfold SpotifyAuth.checkExistingToken, SpotifyAuth.getItem.
      destruct (truthy (SpotifyAuth.localStorage (SpotifyAuth.hook s)
                          !! SpotifyAuth.STORAGE_KEYS.accessToken)) as [tok|] eqn:Et;
        [|exact Hs].
      destruct (truthy (SpotifyAuth.localStorage (SpotifyAuth.hook s)
                          !! SpotifyAuth.STORAGE_KEYS.tokenExpiry)); [|exact Hs].
      cbv zeta. destruct (less_than _ _).
      - intros tok' E. cbn in E. injection E as <-. cbn. apply truthy_Some, Et.
      - destruct (truthy (SpotifyAuth.localStorage (SpotifyAuth.hook s)
                            !! SpotifyAuth.STORAGE_KEYS.refreshToken));
          [exact Hs|]. apply (token_stored_clearTokens (SpotifyAuth.hook s)). }
    unfold SpotifyAuth.step, SpotifyAuth.start. cbn [SpotifyAuth.hook].
    set (h1 := (SpotifyAuth.checkExistingToken cfg (SpotifyAuth.hook s)).1) in *.
    unfold SpotifyAuth.handleCallback.
    repeat match goal with |- context [match ?x with _ => _ end] => destruct x end;
      exact H1.
  - intros tok E. revert E. auth_unfold. cbv zeta. auth_proj. intros E.
    rewrite lookup_insert_ne by other_key. apply Hs, E.
  - apply (token_stored_clearTokens (SpotifyAuth.hook s)).
  - unfold SpotifyAuth.step.
    destruct (SpotifyAuth.pending s !! i) as [[| |]|]; try exact Hs;
      destruct r as [tokens|d|m];
      cbn [SpotifyAuth.finish SpotifyAuth.hook SpotifyAuth.handleCallback_fetched
           SpotifyAuth.refreshAccessToken_fetched];
      try exact Hs;
      try apply (token_stored_clearTokens (SpotifyAuth.hook s));
      try apply (token_stored_saveTokens tokens (SpotifyAuth.hook s)).
    intros tok E.
    pose proof (token_stored_saveTokens tokens (SpotifyAuth.hook s) tok E) as Hk.
    unfold SpotifyAuth.setIsLoading, SpotifyAuth.replaceState, SpotifyAuth.removeItem,
      SpotifyAuth.store. cbn [SpotifyAuth.localStorage].
    rewrite lookup_delete_ne by other_key. exact Hk.
  - unfold SpotifyAuth.step.
    destruct (SpotifyAuth.pending s !! i) as [[| |]|]; try exact Hs.
    destruct d; exact Hs.
  - exact Hs.
Qed.

Lemma auth_run_snoc cfg es e s :
  SpotifyAuth.run cfg (es ++ [e]) s = SpotifyAuth.step cfg e (SpotifyAuth.run cfg es s).
Proof. unfold SpotifyAuth.run. rewrite foldl_app. reflexivity. Qed.

(** Whatever the hook is put through, the access token it holds in memory
    is the one in the storage. *)
Theorem memory_token_is_stored cfg storage code errorParam t es :
  let s := SpotifyAuth.run cfg es
             (SpotifyAuth.fresh (SpotifyAuth.initial storage code errorParam t)) in
  forall tok,
    SpotifyAuth.accessToken (SpotifyAuth.hook s) = Some tok ->
    SpotifyAuth.localStorage (SpotifyAuth.hook s) !! SpotifyAuth.STORAGE_KEYS.accessToken
    = Some tok.
Proof.
  cbv zeta. induction es as [|e es IH] using rev_ind.
  - intros tok E. discriminate E.
  - rewrite auth_run_snoc. apply token_stored_step. exact IH.
Qed.


Lemma at_rest_mount cfg s : at_rest (SpotifyAuth.step cfg SpotifyAuth.Mount s).
Proof.
  unfold at_rest, SpotifyAuth.step, SpotifyAuth.start.
  cbn [SpotifyAuth.hook SpotifyAuth.pending].
  unfold SpotifyAuth.checkExistingToken, SpotifyAuth.handleCallback, SpotifyAuth.getItem.
  cbv zeta.
  repeat match goal with |- context [match ?x with _ => _ end] => destruct x end;
    cbn [fst snd]; intros Hp Hh; try reflexivity;
    try (apply app_eq_nil in Hp as [Hp Hq]; try discriminate Hq;
         apply app_eq_nil in Hp as [_ Hq']; discriminate Hq').
Qed.

Lemma at_rest_step cfg e s : at_rest s -> at_rest (SpotifyAuth.step cfg e s).
Proof.
  intros Hs. destruct e as [|values| |i r|i d|t].
  - apply at_rest_mount.
  - intros Hp _. cbn in Hp. apply app_eq_nil in Hp as [_ Hq]. discriminate Hq.
  - intros Hp Hh. apply Hs; [exact Hp | exact Hh].
  - unfold SpotifyAuth.step.
    destruct (SpotifyAuth.pending s !! i) as [[| |]|]; try exact Hs;
      intros _ _; destruct r; reflexivity.
  - unfold SpotifyAuth.step.
    destruct (SpotifyAuth.pending s !! i) as [[| |]|]; try exact Hs.
    intros _ Hh. destruct d; [discriminate Hh | reflexivity].
  - intros Hp Hh. apply Hs; [exact Hp | exact Hh].
Qed.

(** Once mounted, whatever the hook is put through after, it is not loading
    when it awaits nothing, unless the page is leaving for the authorize
    address. *)
Theorem loading_ends cfg storage code errorParam t es :
  let s := SpotifyAuth.run cfg (SpotifyAuth.Mount :: es)
             (SpotifyAuth.fresh (SpotifyAuth.initial storage code errorParam t)) in
  SpotifyAuth.pending s = [] -> SpotifyAuth.href (SpotifyAuth.hook s) = None ->
  SpotifyAuth.isLoading (SpotifyAuth.hook s) = false.
Proof.
  cbv zeta. induction es as [|e es IH] using rev_ind.
  - apply at_rest_mount.
  - rewrite app_comm_cons, auth_run_snoc. apply at_rest_step. exact IH.
Qed.

(** A page load, at a time that is a safe integer, on a storage whose
    access token and expiry are not empty, the expiry being past or no
    number, and whose refresh token is not empty, posts that refresh token
    and stays loading. An ok answer signs in with the new token, keeps the
    refresh token unless a new one came with it, and stores the new expiry
    time when that and the lifetime in milliseconds are safe integers; an
    answer that is not ok or a failure removes the four keys and leaves the
    hook signed out; in no case is an error shown. On a storage whose
    access token or expiry is missing or empty nothing is posted: the
    loading ends, the hook is signed out and the storage stays as it is. *)
Theorem expired_token_is_refreshed cfg storage t :
  safe_integer t ->
  (forall tok exp r o,
     truthy (storage !! SpotifyAuth.STORAGE_KEYS.accessToken) = Some tok ->
     truthy (storage !! SpotifyAuth.STORAGE_KEYS.tokenExpiry) = Some exp ->
     less_than t (parseInt exp) = false ->
     truthy (storage !! SpotifyAuth.STORAGE_KEYS.refreshToken) = Some r ->
     let s := SpotifyAuth.step cfg SpotifyAuth.Mount
                (SpotifyAuth.fresh (SpotifyAuth.initial storage None None t)) in
     let s' := SpotifyAuth.step cfg (SpotifyAuth.Answer 0 o) s in
     (SpotifyAuth.pending s = [SpotifyAuth.RefreshToken (SpotifyAuth.clientId cfg) r] /\
      SpotifyAuth.isLoading (SpotifyAuth.hook s) = true /\
      SpotifyAuth.accessToken (SpotifyAuth.hook s) = None) /\
     (SpotifyAuth.pending s' = [] /\
      SpotifyAuth.isLoading (SpotifyAuth.hook s') = false /\
      SpotifyAuth.error (SpotifyAuth.hook s') = None) /\
     match o with
     | SpotifyAuth.Granted data =>
         SpotifyAuth.accessToken (SpotifyAuth.hook s')
         = Some (SpotifyAuth.access_token data) /\
         SpotifyAuth.localStorage (SpotifyAuth.hook s')
           !! SpotifyAuth.STORAGE_KEYS.accessToken
         = Some (SpotifyAuth.access_token data) /\
         (safe_integer (SpotifyAuth.expires_in data * 1000) ->
          safe_integer (t + SpotifyAuth.expires_in data * 1000) ->
          SpotifyAuth.localStorage (SpotifyAuth.hook s')
            !! SpotifyAuth.STORAGE_KEYS.tokenExpiry
          = Some (toString (t + SpotifyAuth.expires_in data * 1000))) /\
         SpotifyAuth.localStorage (SpotifyAuth.hook s')
           !! SpotifyAuth.STORAGE_KEYS.refreshToken
         = Some (default r (truthy (SpotifyAuth.refresh_token data)))
     | _ =>
         SpotifyAuth.accessToken (SpotifyAuth.hook s') = None /\
         forall k, SpotifyAuth.own_key k ->
                   SpotifyAuth.localStorage (SpotifyAuth.hook s') !! k = None
     end) /\
  (truthy (storage !! SpotifyAuth.STORAGE_KEYS.accessToken) = None \/
   truthy (storage !! SpotifyAuth.STORAGE_KEYS.tokenExpiry) = None ->
   let s := SpotifyAuth.step cfg SpotifyAuth.Mount
              (SpotifyAuth.fresh (SpotifyAuth.initial storage None None t)) in
   SpotifyAuth.pending s = [] /\
   SpotifyAuth.isLoading (SpotifyAuth.hook s) = false /\
   SpotifyAuth.accessToken (SpotifyAuth.hook s) = None /\
   SpotifyAuth.error (SpotifyAuth.hook s) = None /\
   SpotifyAuth.localStorage (SpotifyAuth.hook s) = storage).
Proof.
  intros _. split.
  - intros tok exp r o Ha He Hx Hr. cbv zeta. rewrite mount_plain.
    unfold SpotifyAuth.checkExistingToken, SpotifyAuth.getItem.
    cbn [SpotifyAuth.localStorage SpotifyAuth.initial SpotifyAuth.now].
    rewrite Ha, He. cbv zeta. rewrite Hx, Hr. cbn [fst snd].
    split; [repeat split|].
    unfold SpotifyAuth.step, SpotifyAuth.refreshAccessToken.
    cbn [SpotifyAuth.pending lookup list_lookup SpotifyAuth.finish SpotifyAuth.hook delete
         list_delete].
    set (h := SpotifyAuth.initial storage None None t).
    destruct o as [data|d|m]; cbn [SpotifyAuth.refreshAccessToken_fetched].
    + destruct (saveTokens_storage data h) as (H1 & H2 & H3 & _ & H5 & H6 & _).
      cbv zeta in *. unfold SpotifyAuth.setIsLoading.
      cbn [SpotifyAuth.isLoading SpotifyAuth.error SpotifyAuth.accessToken
           SpotifyAuth.localStorage].
      split; [repeat split; assumption|].
      split; [exact H5|]. split; [exact H1|]. split; [intros _ _; exact H2|].
      rewrite H3. destruct (truthy (SpotifyAuth.refresh_token data)); [reflexivity|].
      cbn [default]. apply truthy_Some, Hr.
    + destruct (clearTokens_storage h) as (H1 & _ & H3 & H4 & _). cbv zeta in *.
      unfold SpotifyAuth.setIsLoading.
      cbn [SpotifyAuth.isLoading SpotifyAuth.error SpotifyAuth.accessToken
           SpotifyAuth.localStorage].
      split; [repeat split; assumption|]. split; assumption.
    + destruct (clearTokens_storage h) as (H1 & _ & H3 & H4 & _). cbv zeta in *.
      unfold SpotifyAuth.setIsLoading.
      cbn [SpotifyAuth.isLoading SpotifyAuth.error SpotifyAuth.accessToken
           SpotifyAuth.localStorage].
      split; [repeat split; assumption|]. split; assumption.
  - intros Hmiss. cbv zeta. rewrite mount_plain.
    unfold SpotifyAuth.checkExistingToken, SpotifyAuth.getItem.
    cbn [SpotifyAuth.localStorage SpotifyAuth.initial SpotifyAuth.now].
    destruct (truthy (storage !! SpotifyAuth.STORAGE_KEYS.accessToken)) as [tok|];
      [|repeat split].
    destruct Hmiss as [Hm|Hm]; [discriminate Hm|]. rewrite Hm. repeat split.
Qed.

Lemma expired_token_is_refreshed_witness :
  let cfg := {| SpotifyAuth.clientId := "id"; SpotifyAuth.redirectUri := "uri";
                SpotifyAuth.scopes := None |} in
  let storage : gmap string string :=
    <[SpotifyAuth.STORAGE_KEYS.accessToken := "old"]>
      (<[SpotifyAuth.STORAGE_KEYS.tokenExpiry := "1000"]>
         (<[SpotifyAuth.STORAGE_KEYS.refreshToken := "again"]> ∅)) in
  let s' := SpotifyAuth.run cfg
              [SpotifyAuth.Mount; SpotifyAuth.Answer 0 (SpotifyAuth.Failed "offline")]
              (SpotifyAuth.fresh (SpotifyAuth.initial storage None None 1000)) in
  SpotifyAuth.accessToken (SpotifyAuth.hook s') = None /\
  SpotifyAuth.error (SpotifyAuth.hook s') = None.
Proof.
  intros cfg storage s'.
  destruct (expired_token_is_refreshed cfg storage 1000) as [H _];
    [unfold safe_integer; lia|].
  destruct (H "old" "1000" "again" (SpotifyAuth.Failed "offline"))
    as (_ & (_ & _ & He) & Ha & _); [vm_compute; reflexivity..|].
  split; [exact Ha | exact He].
Defined.

Lemma saved_tokens_come_back_witness :
  let cfg := {| SpotifyAuth.clientId := "id"; SpotifyAuth.redirectUri := "uri";
                SpotifyAuth.scopes := None |} in
  let data := {| SpotifyAuth.access_token := "token"; SpotifyAuth.refresh_token := None;
                 SpotifyAuth.expires_in := 3600 |} in
  let h' := SpotifyAuth.saveTokens data (SpotifyAuth.initial ∅ None None 5000) in
  let s := SpotifyAuth.step cfg SpotifyAuth.Mount
             (SpotifyAuth.fresh
                (SpotifyAuth.initial (SpotifyAuth.localStorage h') None None 3604999)) in
  SpotifyAuth.accessToken (SpotifyAuth.hook s) = Some "token".
Proof.
  intros cfg data h' s.
  destruct (saved_tokens_come_back cfg data (SpotifyAuth.initial ∅ None None 5000) 3604999)
    as [H _]; [discriminate | unfold safe_integer; cbn; lia..|].
  apply H. reflexivity.
Defined.

Lemma memory_token_is_stored_witness :
  let cfg := {| SpotifyAuth.clientId := "id"; SpotifyAuth.redirectUri := "uri";
                SpotifyAuth.scopes := None |} in
  let storage : gmap string string :=
    <[SpotifyAuth.STORAGE_KEYS.accessToken := "token"]>
      (<[SpotifyAuth.STORAGE_KEYS.tokenExpiry := "2000"]> ∅) in
  let s := SpotifyAuth.run cfg [SpotifyAuth.Mount]
             (SpotifyAuth.fresh (SpotifyAuth.initial storage None None 1000)) in
  SpotifyAuth.localStorage (SpotifyAuth.hook s) !! SpotifyAuth.STORAGE_KEYS.accessToken
  = Some "token".
Proof.
  intros cfg storage s.
  apply (memory_token_is_stored cfg storage None None 1000 [SpotifyAuth.Mount] "token").
  vm_compute. reflexivity.
Defined.

Lemma loading_ends_witness :
  let cfg := {| SpotifyAuth.clientId := "id"; SpotifyAuth.redirectUri := "uri";
                SpotifyAuth.scopes := None |} in
  let storage : gmap string string :=
    <[SpotifyAuth.STORAGE_KEYS.codeVerifier := "verifier"]> ∅ in
  let s := SpotifyAuth.run cfg
             [SpotifyAuth.Mount; SpotifyAuth.Answer 0 (SpotifyAuth.Refused None)]
             (SpotifyAuth.fresh (SpotifyAuth.initial storage (Some "code") None 1000)) in
  SpotifyAuth.isLoading (SpotifyAuth.hook s) = false.
Proof.
  intros cfg storage s.
  apply (loading_ends cfg storage (Some "code") None 1000
           [SpotifyAuth.Answer 0 (SpotifyAuth.Refused None)]);
    vm_compute; reflexivity.
Defined.

Lemma pending_step cfg e s :
  e <> SpotifyAuth.Mount ->
  Forall (fun c => ~ SpotifyAuth.is_refresh c) (SpotifyAuth.pending s) ->
  Forall (fun c => ~ SpotifyAuth.is_refresh c)
    (SpotifyAuth.pending (SpotifyAuth.step cfg e s)).
Proof.
  intros He Hs. destruct e as [|values| |i r|i d|t]; try congruence.
  - cbn. apply Forall_app. split; [exact Hs|]. repeat constructor. intros [].
  - exact Hs.
  - unfold SpotifyAuth.step.
    destruct (SpotifyAuth.pending s !! i) as [[| |]|]; try exact Hs;
      cbn [SpotifyAuth.finish SpotifyAuth.pending]; apply Forall_delete, Hs.
  - unfold SpotifyAuth.step.
    destruct (SpotifyAuth.pending s !! i) as [[| |]|]; try exact Hs;
      cbn [SpotifyAuth.finish SpotifyAuth.pending]; apply Forall_delete, Hs.
  - exact Hs.
Qed.

Lemma clock_run cfg ts : forall s,
  let s' := SpotifyAuth.run cfg (SpotifyAuth.Clock <$> ts) s in
  SpotifyAuth.accessToken (SpotifyAuth.hook s') = SpotifyAuth.accessToken (SpotifyAuth.hook s) /\
  SpotifyAuth.localStorage (SpotifyAuth.hook s') = SpotifyAuth.localStorage (SpotifyAuth.hook s) /\
  SpotifyAuth.pending s' = SpotifyAuth.pending s.
Proof.
  induction ts as [|t ts IH]; intros s; [repeat split|].
  cbv zeta. rewrite fmap_cons. unfold SpotifyAuth.run. cbn [foldl].
  fold (SpotifyAuth.run cfg (SpotifyAuth.Clock <$> ts)
          (SpotifyAuth.step cfg (SpotifyAuth.Clock t) s)).
  destruct (IH (SpotifyAuth.step cfg (SpotifyAuth.Clock t) s)) as (H1 & H2 & H3).
  cbv zeta in *. rewrite H1, H2, H3. repeat split.
Qed.

(** Nothing but the mount posts a refresh, whatever else the hook is put
    through; and the passing of time alone changes neither the token in
    memory nor the storage, and posts nothing: a token that expires while
    the page is open stays the token of the hook. *)
Theorem refresh_only_at_mount cfg es s :
  Forall (fun e => e <> SpotifyAuth.Mount) es ->
  Forall (fun c => ~ SpotifyAuth.is_refresh c) (SpotifyAuth.pending s) ->
  Forall (fun c => ~ SpotifyAuth.is_refresh c)
    (SpotifyAuth.pending (SpotifyAuth.run cfg es s)) /\
  (forall ts,
     let s' := SpotifyAuth.run cfg (SpotifyAuth.Clock <$> ts) s in
     SpotifyAuth.accessToken (SpotifyAuth.hook s') = SpotifyAuth.accessToken (SpotifyAuth.hook s) /\
     SpotifyAuth.localStorage (SpotifyAuth.hook s')
     = SpotifyAuth.localStorage (SpotifyAuth.hook s) /\
     SpotifyAuth.pending s' = SpotifyAuth.pending s).
Proof.
  intros Hes Hs. split; [|intros ts; apply clock_run].
  induction es as [|e es IH] using rev_ind; [exact Hs|].
  apply Forall_app in Hes as [Hes He]. inversion He as [|? ? Hne _]; subst.
  rewrite auth_run_snoc. apply pending_step; [exact Hne | apply IH, Hes].
Qed.

Lemma refresh_only_at_mount_witness :
  let cfg := {| SpotifyAuth.clientId := "id"; SpotifyAuth.redirectUri := "uri";
                SpotifyAuth.scopes := None |} in
  let storage : gmap string string :=
    <[SpotifyAuth.STORAGE_KEYS.accessToken := "token"]>
      (<[SpotifyAuth.STORAGE_KEYS.tokenExpiry := "2000"]>
         (<[SpotifyAuth.STORAGE_KEYS.refreshToken := "again"]> ∅)) in
  let s := SpotifyAuth.run cfg [SpotifyAuth.Mount]
             (SpotifyAuth.fresh (SpotifyAuth.initial storage None None 1000)) in
  let s' := SpotifyAuth.run cfg [SpotifyAuth.Clock 3000; SpotifyAuth.Clock 4000] s in
  SpotifyAuth.pending s' = [] /\
  SpotifyAuth.accessToken (SpotifyAuth.hook s') = Some "token".
Proof.
  intros cfg storage s s'.
  destruct (refresh_only_at_mount cfg [SpotifyAuth.Clock 3000; SpotifyAuth.Clock 4000] s)
    as [_ H].
  - repeat constructor; discriminate.
  - vm_compute. constructor.
  - destruct (H [3000; 4000]) as (H1 & _ & H3). split; [exact H3 | exact H1].
Defined.

(** Coming back from the authorize address, with no access token in the
    storage. With a code and the verifier that was stored, the two are
    posted with the client id and the redirect address, and the hook loads;
    an ok answer signs in, removes the verifier and shows no error; an
    answer that is not ok shows its [error_description], or "Token exchange
    failed" when it has none, and a failure its message, the hook signed
    out and the storage as it was; in every case the address is cleaned and
    the loading ends. With an [error] parameter the error is shown and
    nothing is posted, code or not. With a code and no stored verifier,
    "Code verifier not found" is shown and nothing is posted. *)
Theorem callback_outcomes cfg storage t :
  storage !! SpotifyAuth.STORAGE_KEYS.accessToken = None ->
  (forall c v o,
     c <> EmptyString -> v <> EmptyString ->
     storage !! SpotifyAuth.STORAGE_KEYS.codeVerifier = Some v ->
     let s := SpotifyAuth.step cfg SpotifyAuth.Mount
                (SpotifyAuth.fresh (SpotifyAuth.initial storage (Some c) None t)) in
     let s' := SpotifyAuth.step cfg (SpotifyAuth.Answer 0 o) s in
     (SpotifyAuth.pending s
      = [SpotifyAuth.AuthorizationCode (SpotifyAuth.clientId cfg) c
           (SpotifyAuth.redirectUri cfg) v] /\
      SpotifyAuth.isLoading (SpotifyAuth.hook s) = true) /\
     (SpotifyAuth.pending s' = [] /\
      SpotifyAuth.isLoading (SpotifyAuth.hook s') = false /\
      SpotifyAuth.code (SpotifyAuth.hook s') = None) /\
     match o with
     | SpotifyAuth.Granted data =>
         SpotifyAuth.accessToken (SpotifyAuth.hook s') = Some (SpotifyAuth.access_token data) /\
         SpotifyAuth.error (SpotifyAuth.hook s') = None /\
         SpotifyAuth.localStorage (SpotifyAuth.hook s') !! SpotifyAuth.STORAGE_KEYS.accessToken
         = Some (SpotifyAuth.access_token data) /\
         SpotifyAuth.localStorage (SpotifyAuth.hook s') !! SpotifyAuth.STORAGE_KEYS.codeVerifier
         = None
     | SpotifyAuth.Refused d =>
         SpotifyAuth.accessToken (SpotifyAuth.hook s') = None /\
         SpotifyAuth.error (SpotifyAuth.hook s')
         = Some (default "Token exchange failed" (truthy d)) /\
         SpotifyAuth.localStorage (SpotifyAuth.hook s') = storage
     | SpotifyAuth.Failed m =>
         SpotifyAuth.accessToken (SpotifyAuth.hook s') = None /\
         SpotifyAuth.error (SpotifyAuth.hook s') = Some m /\
         SpotifyAuth.localStorage (SpotifyAuth.hook s') = storage
     end) /\
  (forall c e,
     e <> EmptyString ->
     let s := SpotifyAuth.step cfg SpotifyAuth.Mount
                (SpotifyAuth.fresh (SpotifyAuth.initial storage c (Some e) t)) in
     SpotifyAuth.pending s = [] /\ SpotifyAuth.error (SpotifyAuth.hook s) = Some e /\
     SpotifyAuth.isLoading (SpotifyAuth.hook s) = false /\
     SpotifyAuth.code (SpotifyAuth.hook s) = None /\
     SpotifyAuth.errorParam (SpotifyAuth.hook s) = None /\
     SpotifyAuth.accessToken (SpotifyAuth.hook s) = None) /\
  (forall c e,
     c <> EmptyString -> truthy e = None ->
     truthy (storage !! SpotifyAuth.STORAGE_KEYS.codeVerifier) = None ->
     let s := SpotifyAuth.step cfg SpotifyAuth.Mount
                (SpotifyAuth.fresh (SpotifyAuth.initial storage (Some c) e t)) in
     SpotifyAuth.pending s = [] /\
     SpotifyAuth.error (SpotifyAuth.hook s) = Some "Code verifier not found" /\
     SpotifyAuth.isLoading (SpotifyAuth.hook s) = false /\
     SpotifyAuth.accessToken (SpotifyAuth.hook s) = None).
Proof.
  intros Hnone.
  assert (Hfirst : forall c e,
            SpotifyAuth.checkExistingToken cfg (SpotifyAuth.initial storage c e t)
            = (SpotifyAuth.setIsLoading false (SpotifyAuth.initial storage c e t), [])).
  { intros c e. unfold SpotifyAuth.checkExistingToken, SpotifyAuth.getItem.
    cbn [SpotifyAuth.localStorage SpotifyAuth.initial]. rewrite Hnone. reflexivity. }
  split; [|split].
  - intros c v o Hc Hv Hk. cbv zeta.
    set (h := SpotifyAuth.setIsLoading true
                (SpotifyAuth.setIsLoading false
                   (SpotifyAuth.initial storage (Some c) None t))).
    assert (Hs : SpotifyAuth.step cfg SpotifyAuth.Mount
                   (SpotifyAuth.fresh (SpotifyAuth.initial storage (Some c) None t))
                 = {| SpotifyAuth.hook := h;
                      SpotifyAuth.pending :=
                        [SpotifyAuth.AuthorizationCode (SpotifyAuth.clientId cfg) c
                           (SpotifyAuth.redirectUri cfg) v] |}).
    { unfold SpotifyAuth.step, SpotifyAuth.start, SpotifyAuth.fresh.
      cbn [SpotifyAuth.hook SpotifyAuth.pending]. rewrite Hfirst. cbn [fst snd app].
      unfold SpotifyAuth.handleCallback, SpotifyAuth.getItem.
      cbn [SpotifyAuth.errorParam SpotifyAuth.code SpotifyAuth.setIsLoading
           SpotifyAuth.initial SpotifyAuth.localStorage].
      change (truthy None) with (@None string). cbv iota.
      rewrite (truthy_nonempty _ Hc). rewrite Hk, (truthy_nonempty _ Hv). reflexivity. }
    rewrite Hs. cbn [SpotifyAuth.hook SpotifyAuth.pending].
    split; [split; reflexivity|].
    unfold SpotifyAuth.step.
    cbn [SpotifyAuth.pending lookup list_lookup SpotifyAuth.finish SpotifyAuth.hook delete
         list_delete].
    destruct o as [data|d|m]; cbn [SpotifyAuth.handleCallback_fetched].
    + destruct (saveTokens_storage data h) as (H1 & _ & _ & _ & H5 & H6 & _).
      cbv zeta in *.
      unfold SpotifyAuth.setIsLoading, SpotifyAuth.replaceState, SpotifyAuth.removeItem,
        SpotifyAuth.store.
      cbn [SpotifyAuth.isLoading SpotifyAuth.error SpotifyAuth.accessToken
           SpotifyAuth.localStorage SpotifyAuth.code].
      split; [repeat split|]. split; [exact H5|]. split; [exact H6|].
      split; [rewrite lookup_delete_ne by other_key; exact H1 | apply lookup_delete_eq].
    + split; [repeat split|]. repeat split.
    + split; [repeat split|]. repeat split.
  - intros c e He. cbv zeta.
    unfold SpotifyAuth.step, SpotifyAuth.start, SpotifyAuth.fresh.
    cbn [SpotifyAuth.hook SpotifyAuth.pending]. rewrite Hfirst. cbn [fst snd app].
    unfold SpotifyAuth.handleCallback.
    cbn [SpotifyAuth.errorParam SpotifyAuth.setIsLoading SpotifyAuth.initial].
    rewrite (truthy_nonempty _ He). repeat split.
  - intros c e Hc He Hv. cbv zeta.
    unfold SpotifyAuth.step, SpotifyAuth.start, SpotifyAuth.fresh.
    cbn [SpotifyAuth.hook SpotifyAuth.pending]. rewrite Hfirst. cbn [fst snd app].
    unfold SpotifyAuth.handleCallback, SpotifyAuth.getItem.
    cbn [SpotifyAuth.errorParam SpotifyAuth.code SpotifyAuth.setIsLoading
         SpotifyAuth.initial SpotifyAuth.localStorage].
    rewrite He, (truthy_nonempty _ Hc), Hv. repeat split.
Qed.

Lemma callback_outcomes_witness :
  let cfg := {| SpotifyAuth.clientId := "id"; SpotifyAuth.redirectUri := "uri";
                SpotifyAuth.scopes := None |} in
  let storage : gmap string string :=
    <[SpotifyAuth.STORAGE_KEYS.codeVerifier := "verifier"]> ∅ in
  let s' := SpotifyAuth.run cfg
              [SpotifyAuth.Mount;
               SpotifyAuth.Answer 0 (SpotifyAuth.Refused (Some "invalid_grant"))]
              (SpotifyAuth.fresh (SpotifyAuth.initial storage (Some "code") None 1000)) in
  SpotifyAuth.error (SpotifyAuth.hook s') = Some "invalid_grant".
Proof.
  intros cfg storage s'.
  destruct (callback_outcomes cfg storage 1000) as [H _]; [vm_compute; reflexivity|].
  destruct (H "code" "verifier" (SpotifyAuth.Refused (Some "invalid_grant")))
    as (_ & _ & _ & He & _);
    [discriminate | discriminate | vm_compute; reflexivity |].
  exact He.
Defined.

(** The verifier that [login] draws is the string whose digest it asks
    for; the challenge of the authorize address is the [base64encode] of
    that digest, with the method S256; and the verifier is what the page
    posts with the code when it comes back, the storage having had no
    access token. *)
Theorem pkce_round_trip cfg h values hashed c t :
  values <> [] -> c <> EmptyString ->
  SpotifyAuth.localStorage h !! SpotifyAuth.STORAGE_KEYS.accessToken = None ->
  let left_ := SpotifyAuth.run cfg
                 [SpotifyAuth.Login values; SpotifyAuth.Digest 0 (SpotifyAuth.Hashed hashed)]
                 (SpotifyAuth.fresh h) in
  let back := SpotifyAuth.step cfg SpotifyAuth.Mount
                (SpotifyAuth.fresh
                   (SpotifyAuth.initial (SpotifyAuth.localStorage (SpotifyAuth.hook left_))
                      (Some c) None t)) in
  let verifier := SpotifyAuth.generateRandomString values in
  SpotifyAuth.pending (SpotifyAuth.step cfg (SpotifyAuth.Login values) (SpotifyAuth.fresh h))
  = [SpotifyAuth.Sha256 verifier] /\
  (exists a, SpotifyAuth.href (SpotifyAuth.hook left_) = Some a /\
             SpotifyAuth.code_challenge a = SpotifyAuth.base64encode hashed /\
             SpotifyAuth.code_challenge_method a = "S256" /\
             SpotifyAuth.response_type a = "code" /\
             SpotifyAuth.client_id a = SpotifyAuth.clientId cfg /\
             SpotifyAuth.redirect_uri a = SpotifyAuth.redirectUri cfg) /\
  SpotifyAuth.pending back
  = [SpotifyAuth.AuthorizationCode (SpotifyAuth.clientId cfg) c
       (SpotifyAuth.redirectUri cfg) verifier].
Proof.
  intros Hv Hc Hnone. cbv zeta.
  assert (Hlen : SpotifyAuth.generateRandomString values <> EmptyString).
  { destruct (generateRandomString_from values EmptyString) as [Hl _].
    cbv zeta in Hl. fold (SpotifyAuth.generateRandomString values) in Hl.
    intros E. rewrite E in Hl. destruct values; [congruence | discriminate Hl]. }
  split; [reflexivity|]. split.
  - eexists. split; [reflexivity|]. repeat split.
  - assert (Hm : SpotifyAuth.localStorage
                   (SpotifyAuth.hook
                      (SpotifyAuth.run cfg
                         [SpotifyAuth.Login values;
                          SpotifyAuth.Digest 0 (SpotifyAuth.Hashed hashed)]
                         (SpotifyAuth.fresh h)))
                 = <[SpotifyAuth.STORAGE_KEYS.codeVerifier :=
                       SpotifyAuth.generateRandomString values]>
                     (SpotifyAuth.localStorage h)) by reflexivity.
    rewrite Hm.
    set (m := <[SpotifyAuth.STORAGE_KEYS.codeVerifier :=
                  SpotifyAuth.generateRandomString values]> (SpotifyAuth.localStorage h)).
    unfold SpotifyAuth.step, SpotifyAuth.start, SpotifyAuth.fresh.
    cbn [SpotifyAuth.hook SpotifyAuth.pending].
    assert (Hfirst : SpotifyAuth.checkExistingToken cfg
                       (SpotifyAuth.initial m (Some c) None t)
                     = (SpotifyAuth.setIsLoading false
                          (SpotifyAuth.initial m (Some c) None t), [])).
    { unfold SpotifyAuth.checkExistingToken, SpotifyAuth.getItem.
      cbn [SpotifyAuth.localStorage SpotifyAuth.initial]. subst m.
      rewrite lookup_insert_ne by other_key. rewrite Hnone. reflexivity. }
    rewrite Hfirst. cbn [fst snd app].
    unfold SpotifyAuth.handleCallback, SpotifyAuth.getItem.
    cbn [SpotifyAuth.errorParam SpotifyAuth.code SpotifyAuth.setIsLoading
         SpotifyAuth.initial SpotifyAuth.localStorage].
    change (truthy None) with (@None string). cbv iota.
    rewrite (truthy_nonempty _ Hc). subst m.
    rewrite lookup_insert_eq, (truthy_nonempty _ Hlen). reflexivity.
Qed.

Lemma pkce_round_trip_witness :
  let cfg := {| SpotifyAuth.clientId := "id"; SpotifyAuth.redirectUri := "uri";
                SpotifyAuth.scopes := None |} in
  let left_ := SpotifyAuth.run cfg
                 [SpotifyAuth.Login [Byte.x00; Byte.x3e; Byte.xff];
                  SpotifyAuth.Digest 0 (SpotifyAuth.Hashed [Byte.xfb; Byte.xff])]
                 (SpotifyAuth.fresh (SpotifyAuth.initial ∅ None None 0)) in
  let back := SpotifyAuth.step cfg SpotifyAuth.Mount
                (SpotifyAuth.fresh
                   (SpotifyAuth.initial (SpotifyAuth.localStorage (SpotifyAuth.hook left_))
                      (Some "code") None 10)) in
  SpotifyAuth.pending back = [SpotifyAuth.AuthorizationCode "id" "code" "uri" "AAH"].
Proof.
  intros cfg left_ back.
  destruct (pkce_round_trip cfg (SpotifyAuth.initial ∅ None None 0)
              [Byte.x00; Byte.x3e; Byte.xff] [Byte.xfb; Byte.xff] "code" 10)
    as (_ & _ & H); [discriminate | discriminate | vm_compute; reflexivity |].
  exact H.
Defined.

(** In part 005 an INSERT event that reaches the page after the count of
    its page load was answered is added to it: the page then shows one more
    than the rows of the table, as when the event is the one of its own
    insert. An event that comes before the count is answered changes
    nothing, and the page shows the number of rows. *)
Theorem late_insert_event_counts_twice t ch :
  eventType ch = INSERT ->
  (let w := run VisitLog.component VisitTable.exec
              [Mount; Reply 0 true; Reply 0 true; PostgresChanges ch]
              (t, fresh VisitLog.component) in
   List.length w.1 = S (List.length t) /\
   viewCount (page w.2) = Some (Z.of_nat (List.length w.1) + 1)) /\
  (let w := run VisitLog.component VisitTable.exec
              [Mount; Reply 0 true; PostgresChanges ch; Reply 0 true]
              (t, fresh VisitLog.component) in
   List.length w.1 = S (List.length t) /\
   viewCount (page w.2) = Some (Z.of_nat (List.length w.1))).
Proof.
  intros H. destruct ch. cbn in H. subst.
  split; cbv zeta; cbn; rewrite ?length_app; cbn; split; try lia; reflexivity.
Qed.

Lemma late_insert_event_counts_twice_witness :
  let ins := {| eventType := INSERT; new_id := "row"; new_view_count := 0 |} in
  let w := run VisitLog.component VisitTable.exec
             [Mount; Reply 0 true; Reply 0 true; PostgresChanges ins]
             ([], fresh VisitLog.component) in
  List.length w.1 = 1%nat /\ viewCount (page w.2) = Some 2.
Proof.
  intros ins w.
  destruct (late_insert_event_counts_twice [] ins) as [[H1 H2] _]; [reflexivity|].
  split; [exact H1 | exact H2].
Defined.

(** ** A write that comes late *)

(** The write of a page load carries the count it read plus one, whatever
    the store has come to hold since: answered on a table whose counter row
    holds [u], it leaves [v + 1] there and on the page, which is less than
    [u] when more than one visit was recorded in between; so it is in part
    004 and in src/components/ViewCounter.tsx. *)
Theorem late_write_sets_counter_back t t' v u :
  CounterTable.single VIEW_ID t = Some v ->
  CounterTable.single VIEW_ID t' = Some u ->
  (let w := run CounterRow.component CounterTable.exec [Mount; Reply 0 true]
              (t, fresh CounterRow.component) in
   let w' := feed CounterRow.component CounterTable.exec (Reply 0 true) (t', w.2) in
   w.1 = t /\ CounterTable.single VIEW_ID w'.1 = Some (v + 1) /\
   viewCount (page w'.2) = Some (v + 1) /\ inflight w'.2 = []) /\
  (let w := run ViewCounter.component CounterTable.exec [Mount; Reply 0 true]
              (t, fresh ViewCounter.component) in
   let w' := feed ViewCounter.component CounterTable.exec (Reply 0 true) (t', w.2) in
   w.1 = t /\ CounterTable.single VIEW_ID w'.1 = Some (v + 1) /\
   viewCount (page w'.2) = Some (v + 1) /\ inflight w'.2 = []).
Proof.
  intros Hv Hu. split.
  - cbn -[CounterTable.single CounterTable.update VIEW_ID]. rewrite Hv.
    cbn -[CounterTable.single CounterTable.update VIEW_ID].
    split; [reflexivity|]. split; [|split; reflexivity].
    apply (single_update _ u), Hu.
  - cbn -[CounterTable.single CounterTable.update VIEW_ID]. rewrite Hv.
    cbn -[CounterTable.single CounterTable.update VIEW_ID].
    split; [reflexivity|]. split; [|split; reflexivity].
    apply (single_update _ u), Hu.
Qed.

Lemma late_write_sets_counter_back_witness :
  let w := run CounterRow.component CounterTable.exec [Mount; Reply 0 true]
             (sentinel 5, fresh CounterRow.component) in
  let w' := feed CounterRow.component CounterTable.exec (Reply 0 true) (sentinel 9, w.2) in
  CounterTable.single VIEW_ID w'.1 = Some 6.
Proof.
  intros w w'.
  destruct (late_write_sets_counter_back (sentinel 5) (sentinel 9) 5 9) as [H _];
    [reflexivity | reflexivity |].
  exact (proj1 (proj2 H)).
Defined.
